(** * TOPA expert survey: pairing front end and edge worker

    A shallow embedding of the survey's pairing logic (the React front end)
    and of the Cloudflare worker that gates access by code, issues signed
    session tokens and stores preference votes.

    Conventions of the embedding.
    - JavaScript strings are [string]s: sequences of 8-bit characters.  The
      model covers ASCII text, for which [TextEncoder.encode] and
      [TextDecoder.decode] are the identity between a string and its bytes;
      a [Uint8Array] is therefore a [string] too.
    - JavaScript numbers are the integers [Z] (doubles are exact on the
      integers below 2^53); 32-bit operators wrap explicitly.
    - [undefined] is [None] of an [option]; a thrown exception is the
      [Throw] case of [result]. *)

From Stdlib Require Import ZArith String Ascii List Permutation Lia Bool.
From stdpp Require Import base option list gmap strings pretty.

Local Open Scope Z_scope.

(** ** 32-bit integer operators of JavaScript *)

Module JSInt.

(** [ToUint32] and [ToInt32] of an integral number. *)
Definition toUint32 (x : Z) : Z := x mod 2 ^ 32.
Definition toInt32 (x : Z) : Z := (x + 2 ^ 31) mod 2 ^ 32 - 2 ^ 31.

(** [a ^ b], [a | b], [a >>> k] and [Math.imul(a, b)]. *)
Definition xor (a b : Z) : Z := Z.lxor (toInt32 a) (toInt32 b).
Definition or (a b : Z) : Z := Z.lor (toInt32 a) (toInt32 b).
Definition ushr (a k : Z) : Z := Z.shiftr (toUint32 a) (k mod 32).
Definition imul (a b : Z) : Z := toInt32 (toInt32 a * toInt32 b).

(** [s.charCodeAt(i)] for the i-th character [c] of [s]. *)
Definition charCode (c : ascii) : Z := Z.of_N (N_of_ascii c).

End JSInt.

(** ** The pairing logic of the front end *)

Module App.
Import JSInt.

(** *** Deterministic generator *)

Fixpoint hash32_loop (s : string) (h : Z) : Z :=
  match s with
  | EmptyString => h
  | String c s' => hash32_loop s' (imul (xor h (charCode c)) 16777619)
  end.

Definition hash32 (s : string) : Z := ushr (hash32_loop s 2166136261) 0.

(** One call of the closure returned by [mulberry32(seed)].  The closure
    owns [seed]; a call returns the numerator [u] of the double
    [u / 4294967296] together with the updated [seed]. *)
Definition mulberry32 (seed : Z) : Z * Z :=
  let seed := seed + 0x6d2b79f5 in
  let t := seed in
  let t := imul (xor t (ushr t 15)) (or t 1) in
  let t := xor t (t + imul (xor t (ushr t 7)) (or t 61)) in
  (ushr (xor t (ushr t 14)) 0, seed).

(** [Math.floor(rnd() * n)] where [rnd()] is [u / 4294967296]: the product
    is exact in double arithmetic for the array lengths [n] below 2^21. *)
Definition floorMul (u : Z) (n : nat) : nat :=
  Z.to_nat (u * Z.of_nat n / 4294967296).

(** *** Shuffle *)

Section Shuffle.
Context {T : Type}.

(** [[a[i], a[j]] = [a[j], a[i]]].  Both reads are in range wherever the
    shuffle swaps (lemma [floorMul_lt]); out of range the model leaves
    the array as it is. *)
Definition swap (a : list T) (i j : nat) : list T :=
  match a !! i, a !! j with
  | Some x, Some y => <[j := x]> (<[i := y]> a)
  | _, _ => a
  end.

(** The [for] loop of [stableShuffle], from index [i] down to 1, on the
    local array [a] and the generator state [seed]. *)
Fixpoint shuffleLoop (i : nat) (a : list T) (seed : Z) : list T :=
  match i with
  | O => a
  | S k =>
      let '(u, seed') := mulberry32 seed in
      let j := floorMul u (i + 1) in
      shuffleLoop k (swap a i j) seed'
  end.

(** The array returned by [stableShuffle(arr, seedStr)]. *)
Definition stableShuffle (arr : list T) (seedStr : string) : list T :=
  let a := arr in
  shuffleLoop (length a - 1) a (hash32 seedStr).

(** The same function on a store of arrays, where [arr] is a reference:
    [const a = [...arr]] allocates a fresh array, the loop swaps in
    place inside it, and the reference to it is returned. *)
Definition swapAt (h : gmap nat (list T)) (a : nat) (i j : nat)
  : gmap nat (list T) :=
  match h !! a with
  | Some l => <[a := swap l i j]> h
  | None => h
  end.

Fixpoint shuffleLoopAt (i : nat) (a : nat) (h : gmap nat (list T))
  (seed : Z) : gmap nat (list T) :=
  match i with
  | O => h
  | S k =>
      let '(u, seed') := mulberry32 seed in
      let j := floorMul u (i + 1) in
      shuffleLoopAt k a (swapAt h a i j) seed'
  end.

Definition stableShuffleRef (h : gmap nat (list T)) (arr : nat)
  (seedStr : string) : option (gmap nat (list T) * nat) :=
  match h !! arr with
  | None => None
  | Some xs =>
      let a := fresh (dom h) in
      let h := <[a := xs]> h in
      Some (shuffleLoopAt (length xs - 1) a h (hash32 seedStr), a)
  end.
End Shuffle.

(** *** Vote history and pair selection *)

(** The fields of a history row that [nextPair] reads; [trial_id] may be
    missing ([a.trial_id ?? 0]). *)
Record Vote := {
  participant_id : string;
  component : string;
  trial_id : option Z;
  left_method_id : string;
  right_method_id : string;
  preferred : string;
}.

Definition trialOf (r : Vote) : Z := default 0 (trial_id r).

(** [.sort((a, b) => (a.trial_id ?? 0) - (b.trial_id ?? 0))]: the sort of
    JavaScript is stable, so rows with equal keys keep their order. *)
Fixpoint insertByTrial (x : Vote) (l : list Vote) : list Vote :=
  match l with
  | [] => [x]
  | y :: l' =>
      if Z.leb (trialOf x) (trialOf y) then x :: y :: l'
      else y :: insertByTrial x l'
  end.

Definition sortByTrial (l : list Vote) : list Vote :=
  foldr insertByTrial [] l.

Definition matches (pid comp : string) (r : Vote) : bool :=
  String.eqb (participant_id r) pid && String.eqb (component r) comp.

Definition champion_of (last : Vote) : string :=
  if String.eqb (preferred last) "left" then left_method_id last
  else right_method_id last.

(** The set built by the [appeared.add] loop. *)
Definition appearedOf (rows : list Vote) : gset string :=
  foldl (fun s r => s ∪ {[left_method_id r]} ∪ {[right_method_id r]})
    ∅ rows.

(** A returned pair [[x, y]]; an element is [None] when it is
    [undefined]. *)
Definition Pair : Type := option string * option string.

Definition nextPair (pid comp : string) (methodIds : list string)
  (history : list Vote) : option Pair :=
  if String.eqb pid "" || (length methodIds <? 2)%nat then None
  else
    let rows := sortByTrial (filter (fun r => matches pid comp r) history) in
    match last rows with
    | None =>
        let shuffled := stableShuffle methodIds (pid +:+ "::" +:+ comp) in
        Some (shuffled !! 0%nat, shuffled !! 1%nat)
    | Some lastRow =>
        let champion := champion_of lastRow in
        let appeared := appearedOf rows in
        let unseen :=
          filter (fun m => (m ∉ appeared) ∧ (m ≠ champion)) methodIds in
        if (length unseen =? 0)%nat then None
        else
          let seedStr :=
            pid +:+ "::" +:+ comp +:+ "::" +:+ pretty (size appeared) in
          let '(u, _) := mulberry32 (hash32 seedStr) in
          let challenger := unseen !! floorMul u (length unseen) in
          Some (Some champion, challenger)
    end.

End App.

(** The first version of the front end: no shuffle, no sort. *)
Module AppV0.

Definition nextPair (pid comp : string) (methodIds : list string)
  (history : list App.Vote) : option App.Pair :=
  if (length methodIds <? 2)%nat then None
  else
    let rows := filter (fun r => App.matches pid comp r) history in
    match last rows with
    | None => Some (methodIds !! 0%nat, methodIds !! 1%nat)
    | Some lastRow =>
        let champion := App.champion_of lastRow in
        let appeared := App.appearedOf rows in
        let unseen :=
          filter (fun m => (m ∉ appeared) ∧ (m ≠ champion)) methodIds in
        if (length unseen =? 0)%nat then None
        else
          Some (Some champion,
                unseen !! (length rows `mod` length unseen)%nat)
    end.

End AppV0.

(** ** JavaScript values and built-ins used by the worker *)

Module JS.

(** *** Exceptions *)

Inductive exn :=
| Error (msg : string)
| TypeError (msg : string)
| SyntaxError (msg : string)
| InvalidCharacterError (msg : string)
| DataError (msg : string).

(** [e.message] *)
Definition message (e : exn) : string :=
  match e with
  | Error m | TypeError m | SyntaxError m | InvalidCharacterError m
  | DataError m => m
  end.

Inductive result (A : Type) :=
| Ok (a : A)
| Throw (e : exn).
Arguments Ok {A} a.
Arguments Throw {A} e.

#[export] Instance result_ret : MRet result := fun _ a => Ok a.
#[export] Instance result_bind : MBind result := fun _ _ f m =>
  match m with
  | Ok a => f a
  | Throw e => Throw e
  end.

(** *** Strings *)

Definition isEmpty (s : string) : bool :=
  match s with EmptyString => true | _ => false end.

(** White space removed by [trim] (ASCII part). *)
Definition isWhite (c : ascii) : bool := Ascii.is_space c.

Fixpoint trimStart (s : string) : string :=
  match s with
  | String c s' => if isWhite c then trimStart s' else s
  | EmptyString => EmptyString
  end.

Definition trim (s : string) : string :=
  String.rev (trimStart (String.rev (trimStart s))).

Definition lowerChar (c : ascii) : ascii :=
  let n := N_of_ascii c in
  if ((65 <=? n) && (n <=? 90))%N then ascii_of_N (n + 32) else c.

Fixpoint mapChars (f : ascii -> ascii) (s : string) : string :=
  match s with
  | EmptyString => EmptyString
  | String c s' => String (f c) (mapChars f s')
  end.

Definition toLowerCase (s : string) : string := mapChars lowerChar s.

(** [s.replace(/c/g, d)] for single characters [c] and [d]. *)
Definition replaceAll (c d : ascii) (s : string) : string :=
  mapChars (fun x => if Ascii.eqb x c then d else x) s.

(** [s.split(sep)] for a one-character separator: the pieces between the
    separators, of which there is always at least one. *)
Fixpoint split (sep : ascii) (s : string) : list string :=
  match s with
  | EmptyString => [EmptyString]
  | String c s' =>
      if Ascii.eqb c sep then EmptyString :: split sep s'
      else
        match split sep s' with
        | piece :: pieces => String c piece :: pieces
        | [] => [String c EmptyString]
        end
  end.

Definition endsWith (s suffix : string) : bool :=
  String.prefix (String.rev suffix) (String.rev s).

(** [s.slice(n)] for [0 <= n]. *)
Fixpoint slice (n : nat) (s : string) : string :=
  match n, s with
  | O, _ => s
  | S k, String _ s' => slice k s'
  | S _, EmptyString => EmptyString
  end.

(** [s.replace(/=+$/g, "")]: the [=] that end the string are removed. *)
Fixpoint stripTrailingEquals (s : string) : string :=
  match s with
  | EmptyString => EmptyString
  | String c s' =>
      let r := stripTrailingEquals s' in
      if Ascii.eqb c "="%char && isEmpty r then EmptyString else String c r
  end.

(** *** Base64: [btoa] and [atob] *)

Definition b64alphabet : string :=
  "ABCDEFGHIJKLMNOPQRSTUVWXYZabcdefghijklmnopqrstuvwxyz0123456789+/".

Definition b64char (n : N) : ascii :=
  default "A"%char (String.get (N.to_nat n) b64alphabet).

Fixpoint indexOfChar (c : ascii) (s : string) : option N :=
  match s with
  | EmptyString => None
  | String x s' =>
      if Ascii.eqb x c then Some 0%N else N.succ <$> indexOfChar c s'
  end.

Definition b64index (c : ascii) : option N := indexOfChar c b64alphabet.

(** [btoa(s)] for a binary string [s]. *)
Fixpoint btoa (s : string) : string :=
  match s with
  | EmptyString => EmptyString
  | String a EmptyString =>
      let x := N_of_ascii a in
      String (b64char (x / 4)) (String (b64char (x mod 4 * 16)) "==")
  | String a (String b EmptyString) =>
      let x := N_of_ascii a in
      let y := N_of_ascii b in
      String (b64char (x / 4))
        (String (b64char (x mod 4 * 16 + y / 16))
           (String (b64char (y mod 16 * 4)) "="))
  | String a (String b (String c rest)) =>
      let x := N_of_ascii a in
      let y := N_of_ascii b in
      let z := N_of_ascii c in
      String (b64char (x / 4))
        (String (b64char (x mod 4 * 16 + y / 16))
           (String (b64char (y mod 16 * 4 + z / 64))
              (String (b64char (z mod 64)) (btoa rest))))
  end%N.

(** The forgiving base64 decoder behind [atob]: ASCII white space is
    dropped, one or two trailing [=] are dropped when the length is a
    multiple of four, a length of 1 modulo 4 or a character outside the
    alphabet fails, and left-over bits are discarded. *)
Definition isB64White (c : ascii) : bool :=
  match c with
  | "009" | "010" | "012" | "013" | " " => true
  | _ => false
  end%char.

Fixpoint removeWhite (s : string) : string :=
  match s with
  | EmptyString => EmptyString
  | String c s' =>
      if isB64White c then removeWhite s' else String c (removeWhite s')
  end.

(** [s] without the one or two [=] it ends with, if any. *)
Fixpoint dropEquals (s : string) : string :=
  match s with
  | EmptyString => EmptyString
  | String c s' =>
      if Ascii.eqb c "="%char && (String.eqb s' "" || String.eqb s' "=")
      then EmptyString
      else String c (dropEquals s')
  end.

Definition dropPadding (s : string) : string :=
  if (String.length s mod 4 =? 0)%nat then dropEquals s else s.

Fixpoint sextets (s : string) : option (list N) :=
  match s with
  | EmptyString => Some []
  | String c s' => n ← b64index c; l ← sextets s'; Some (n :: l)
  end.

Fixpoint decodeSextets (l : list N) : string :=
  match l with
  | p :: q :: r :: t :: rest =>
      String (ascii_of_N (p * 4 + q / 16))
        (String (ascii_of_N (q mod 16 * 16 + r / 4))
           (String (ascii_of_N (r mod 4 * 64 + t)) (decodeSextets rest)))
  | [p; q; r] =>
      String (ascii_of_N (p * 4 + q / 16))
        (String (ascii_of_N (q mod 16 * 16 + r / 4)) EmptyString)
  | [p; q] => String (ascii_of_N (p * 4 + q / 16)) EmptyString
  | _ => EmptyString
  end%N.

Definition atob (s : string) : result string :=
  let data := dropPadding (removeWhite s) in
  if (String.length data mod 4 =? 1)%nat then
    Throw (InvalidCharacterError "Invalid character")
  else
    match sextets data with
    | None => Throw (InvalidCharacterError "Invalid character")
    | Some l => Ok (decodeSextets l)
    end.

(** *** JSON values and coercions *)

#[local] Set Warnings "-register-all".

(** The values [JSON.parse] produces.  An object is the list of its
    properties, each key once; a number is an integer. *)
Inductive JSON :=
| JNull
| JBool (b : bool)
| JNum (n : Z)
| JStr (s : string)
| JArr (items : list JSON)
| JObj (fields : list (string * JSON)).

(** A number computed by the program: an integer or [NaN]. *)
Inductive num :=
| Int (n : Z)
| NaN.

Definition numToString (x : num) : string :=
  match x with
  | Int n => pretty n
  | NaN => "NaN"
  end.

Fixpoint lookupField (k : string) (fields : list (string * JSON))
  : option JSON :=
  match fields with
  | [] => None
  | (k', v) :: rest => if String.eqb k' k then Some v else lookupField k rest
  end.

(** [v.k] (or [v[k]]) on a value that is not [null], for the property
    names the worker reads, none of which is a property of an array,
    string, number or boolean: a missing property is [undefined]. *)
Definition field (v : JSON) (k : string) : option JSON :=
  match v with
  | JObj fields => lookupField k fields
  | _ => None
  end.

(** [v.k] on any value: reading from [null] throws. *)
Definition get (v : JSON) (k : string) : result (option JSON) :=
  match v with
  | JNull =>
      Throw (TypeError
               ("Cannot read properties of null (reading '" +:+ k +:+ "')"))
  | _ => Ok (field v k)
  end.

(** [ToBoolean]: [!!v]. *)
Definition truthy (v : option JSON) : bool :=
  match v with
  | None | Some JNull => false
  | Some (JBool b) => b
  | Some (JNum n) => negb (n =? 0)
  | Some (JStr s) => negb (isEmpty s)
  | Some (JArr _) | Some (JObj _) => true
  end.

(** [a || b] *)
Definition orElse (a : option JSON) (b : JSON) : option JSON :=
  if truthy a then a else Some b.

(** [String(v)] for a JSON value: an array joins its elements with
    commas, [null] elements giving the empty string. *)
Fixpoint toStr (v : JSON) : string :=
  match v with
  | JNull => "null"
  | JBool true => "true"
  | JBool false => "false"
  | JNum n => pretty n
  | JStr s => s
  | JArr items =>
      (fix join (l : list JSON) : string :=
         match l with
         | [] => ""
         | [x] => match x with JNull => "" | _ => toStr x end
         | x :: rest =>
             match x with JNull => "" | _ => toStr x end +:+ "," +:+ join rest
         end) items
  | JObj _ => "[object Object]"
  end.

Definition ToString (v : option JSON) : string :=
  match v with
  | None => "undefined"
  | Some v => toStr v
  end.

End JS.

(** ** The platform of the worker *)

(** What the worker takes from its runtime: WebCrypto digests and MACs on
    byte strings, the JSON codec, date parsing and printing, and the
    conversion of a string to a number. *)
Class Runtime := {
  (** [crypto.subtle.digest("SHA-256", bytes)] *)
  sha256 : string -> string;
  (** [crypto.subtle.sign("HMAC", key, data)] for a SHA-256 key imported
      from the bytes of the first argument, which are not empty *)
  hmacSha256 : string -> string -> string;
  (** the message of the [DataError] with which [crypto.subtle.importKey]
      rejects an HMAC key of length zero *)
  zeroKeyMessage : string;
  JSON_stringify : JS.JSON -> string;
  (** [None] when [JSON.parse] throws a [SyntaxError] *)
  JSON_parse : string -> option JS.JSON;
  (** [Date.parse]: milliseconds since the epoch, [None] for [NaN] *)
  Date_parse : string -> option Z;
  (** [new Date(ms).toISOString()] *)
  toISOString : Z -> string;
  (** [Number(s)] for a string [s] *)
  StringToNumber : string -> JS.num;
}.

(** ** The worker *)

Module Worker.
Import JS.

(** *** Data *)

(** The variables of the environment; the [DB] binding is the database
    state [D1] that the functions below take and return. *)
Record Env := {
  TOKEN_SECRET : string;
  ALLOWED_ORIGINS : string;
}.

Record AccessCodeRow := {
  code_hash : string;
  active : Z;
  uses_remaining : option Z;
  expires_at : option string;
}.

Record VoteRow := {
  id : string;
  participant_id : string;
  component : string;
  trial_id : num;
  left_method_id : string;
  right_method_id : string;
  preferred : string;
  timestamp_utc : string;
  user_agent : option string;
  page_url : option string;
  received_at : string;
}.

(** The two tables: [access_codes] as the list of its rows, [votes] by
    its primary key [id]. *)
Record D1 := {
  access_codes : list AccessCodeRow;
  votes : gmap string VoteRow;
}.

(** What the handler reads of a request: [req.method], the pathname of
    [req.url], the [Origin] header ([None] when absent) and the outcome
    of [req.json()] ([None] when it rejects). *)
Record Request := {
  method : string;
  pathname : string;
  origin_header : option string;
  json : option JSON;
}.

Record Response := {
  status : Z;
  headers : list (string * string);
  body : option string;
}.

(** *** Helpers *)

Definition cors (origin : string) : list (string * string) :=
  [ ("Access-Control-Allow-Origin", origin);
    ("Access-Control-Allow-Methods", "POST,OPTIONS");
    ("Access-Control-Allow-Headers", "Content-Type");
    ("Access-Control-Max-Age", "86400");
    ("Content-Type", "application/json") ].

(** The list [allowed] computed by [originAllowed]. *)
Definition allowedList (env : Env) : list string :=
  filter (fun s => isEmpty s = false)
    (trim <$> split ","%char (ALLOWED_ORIGINS env)).

Definition originAllowed (env : Env) (origin : string) : bool :=
  negb (isEmpty origin) && bool_decide (origin ∈ allowedList env).

Definition base64UrlEncode (bytes : string) : string :=
  stripTrailingEquals
    (replaceAll "/"%char "_"%char (replaceAll "+"%char "-"%char (btoa bytes))).

(** [b.toString(16).padStart(2, "0")] joined over the bytes. *)
Definition hexDigit (n : N) : ascii :=
  default "0"%char (String.get (N.to_nat n) "0123456789abcdef").

Fixpoint hexOfBytes (bytes : string) : string :=
  match bytes with
  | EmptyString => EmptyString
  | String b rest =>
      let n := N_of_ascii b in
      String (hexDigit (n / 16)) (String (hexDigit (n mod 16)) (hexOfBytes rest))
  end%N.

Definition normalizePreferred (p : string) : result string :=
  let v := trim (toLowerCase p) in
  if String.eqb v "left" || String.eqb v "top" then Ok "left"
  else if String.eqb v "right" || String.eqb v "bottom" then Ok "right"
  else Throw (Error "preferred must be one of: left/right (or top/bottom)").

(** *** Database helpers *)

Definition dbGetAccessCode (db : D1) (codeHash : string)
  : option AccessCodeRow :=
  List.find (fun r => String.eqb (code_hash r) codeHash) (access_codes db).

Definition decrementRow (codeHash : string) (r : AccessCodeRow)
  : AccessCodeRow :=
  match uses_remaining r with
  | Some n =>
      if String.eqb (code_hash r) codeHash && (n >? 0) then
        {| code_hash := code_hash r;
           active := active r;
           uses_remaining := Some (n - 1);
           expires_at := expires_at r |}
      else r
  | None => r
  end.

Definition dbDecrementUsesRemaining (db : D1) (codeHash : string) : D1 :=
  {| access_codes := decrementRow codeHash <$> access_codes db;
     votes := votes db |}.

(** The values bound to the statement: [row.user_agent ?? ""] and
    [row.page_url ?? ""]. *)
Definition boundRow (row : VoteRow) : VoteRow :=
  {| id := id row;
     participant_id := participant_id row;
     component := component row;
     trial_id := trial_id row;
     left_method_id := left_method_id row;
     right_method_id := right_method_id row;
     preferred := preferred row;
     timestamp_utc := timestamp_utc row;
     user_agent := Some (default "" (user_agent row));
     page_url := Some (default "" (page_url row));
     received_at := received_at row |}.

(** [INSERT ... ON CONFLICT(id) DO UPDATE SET] every other column. *)
Definition dbUpsertVote (db : D1) (row : VoteRow) : D1 :=
  {| access_codes := access_codes db;
     votes := <[id row := boundRow row]> (votes db) |}.

Section WithRuntime.
Context `{Runtime}.

(** [Number(v)], and [v] as the right operand of [>] against a
    number. *)
Definition ToNumber (v : option JSON) : num :=
  match v with
  | None => NaN
  | Some JNull => Int 0
  | Some (JBool b) => Int (if b then 1 else 0)
  | Some (JNum n) => Int n
  | Some (JStr s) => StringToNumber s
  | Some (JArr items) => StringToNumber (toStr (JArr items))
  | Some (JObj fields) => StringToNumber (toStr (JObj fields))
  end.

(** [x > y] for a number [x]; false against [NaN]. *)
Definition gtNum (x : Z) (y : num) : bool :=
  match y with
  | Int n => x >? n
  | NaN => false
  end.

(** *** Tokens *)

Definition sha256Hex (s : string) : string := hexOfBytes (sha256 s).

(** [crypto.subtle.importKey] rejects a raw HMAC key of length zero, so
    [hmacSign] throws for an empty (or unset) secret; otherwise it signs and
    encodes the MAC. *)
Definition hmacSign (secret data : string) : result string :=
  if isEmpty secret then Throw (DataError zeroKeyMessage)
  else Ok (base64UrlEncode (hmacSha256 secret data)).

Definition b64Json (obj : JSON) : string :=
  base64UrlEncode (JSON_stringify obj).

Definition fromB64Json (s : string) : result JSON :=
  let b64 :=
    replaceAll "_"%char "/"%char (replaceAll "-"%char "+"%char s)
    +:+ slice ((String.length s + 3) mod 4) "===" in
  raw ← atob b64;
  match JSON_parse raw with
  | Some v => Ok v
  | None => Throw (SyntaxError "Unexpected token in JSON")
  end.

Definition makeToken (env : Env) (payload : JSON) : result string :=
  let body := b64Json payload in
  sig ← hmacSign (TOKEN_SECRET env) body;
  Ok (body +:+ "." +:+ sig).

(** [!s] for a string that may be [undefined]. *)
Definition falsyStr (s : option string) : bool :=
  match s with
  | None => true
  | Some s => isEmpty s
  end.

(** [now] is the reading of [Date.now()]. *)
Definition verifyToken (env : Env) (now : Z) (token : string)
  : result JSON :=
  let parts := split "."%char token in
  let body := parts !! 0%nat in
  let sig := parts !! 1%nat in
  if falsyStr body || falsyStr sig then Throw (Error "Bad token format")
  else
    let body := default "" body in
    let sig := default "" sig in
    expected ← hmacSign (TOKEN_SECRET env) body;
    if negb (String.eqb expected sig) then
      Throw (Error "Bad token signature")
    else
      payload ← fromB64Json body;
      exp ← get payload "exp";
      if truthy exp && gtNum now (ToNumber exp) then
        Throw (Error "Token expired")
      else Ok payload.

(** *** The request handler *)

(** [new Response(JSON.stringify(obj), { status, headers: cors(origin) })] *)
Definition jsonResponse (st : Z) (origin : string) (obj : JSON)
  : Response :=
  {| status := st; headers := cors origin;
     body := Some (JSON_stringify obj) |}.

Definition errorResponse (st : Z) (origin : string) (msg : string)
  : Response :=
  jsonResponse st origin (JObj [("error", JStr msg)]).

(** The [expires_at] block of [/api/start]: the response it returns
    early, if any. *)
Definition checkExpiry (origin : string) (now : Z) (doc : AccessCodeRow)
  : option Response :=
  match expires_at doc with
  | None => None
  | Some e =>
      if isEmpty e then None
      else
        match Date_parse e with
        | None => Some (errorResponse 500 origin "Bad expires_at format in DB")
        | Some expMs =>
            if now >? expMs then Some (errorResponse 403 origin "Code expired")
            else None
        end
  end.

(** The branch [POST /api/start]; a request is handled at the instant
    [now], which every [Date.now()] of the branch reads.  [makeToken] is
    called after the decrement and outside any [try]: when it throws, the
    handler throws with the decrement done. *)
Definition fetch_start (env : Env) (now : Z) (origin : string)
  (req : Request) (db : D1) : result Response * D1 :=
  let body := default (JObj []) (json req) in
  match get body "code" with
  | Throw e => (Throw e, db)
  | Ok c =>
      let code := trim (ToString (orElse c (JStr ""))) in
      if isEmpty code then (Ok (errorResponse 400 origin "Missing code"), db)
      else
        let codeHash := sha256Hex code in
        match dbGetAccessCode db codeHash with
        | None => (Ok (errorResponse 403 origin "Invalid code"), db)
        | Some doc =>
            if negb (active doc =? 1) then
              (Ok (errorResponse 403 origin "Code inactive"), db)
            else if
              match uses_remaining doc with
              | Some n => n <=? 0
              | None => false
              end
            then
              (Ok (errorResponse 403 origin "Code has no remaining uses"), db)
            else
              match checkExpiry origin now doc with
              | Some resp => (Ok resp, db)
              | None =>
                  let db :=
                    match uses_remaining doc with
                    | Some _ => dbDecrementUsesRemaining db codeHash
                    | None => db
                    end in
                  match
                    makeToken env
                      (JObj [("codeHash", JStr codeHash);
                             ("exp", JNum (now + 12 * 60 * 60 * 1000))])
                  with
                  | Throw e => (Throw e, db)
                  | Ok token =>
                      (Ok (jsonResponse 200 origin
                             (JObj [("ok", JBool true);
                                    ("token", JStr token)])),
                       db)
                  end
              end
        end
  end.

Definition required : list string :=
  ["participant_id"; "component"; "trial_id"; "left_method_id";
   "right_method_id"; "preferred"; "timestamp_utc"].

(** [x === undefined || x === null || x === ""] *)
Definition isMissing (x : option JSON) : bool :=
  match x with
  | None | Some JNull => true
  | Some (JStr s) => isEmpty s
  | Some _ => false
  end.

(** The row that [/api/vote] builds from a vote whose [preferred] has
    been normalized; [vote] is truthy there, so its reads do not
    throw. *)
Definition voteRow (now : Z) (vote : JSON) (preferred : string) : VoteRow :=
  let participant := ToString (field vote "participant_id") in
  let component := ToString (field vote "component") in
  let trial := ToNumber (field vote "trial_id") in
  let docId :=
    participant +:+ "__" +:+ component +:+ "__" +:+ numToString trial in
  {| id := docId;
     participant_id := participant;
     component := component;
     trial_id := trial;
     left_method_id := ToString (field vote "left_method_id");
     right_method_id := ToString (field vote "right_method_id");
     preferred := preferred;
     timestamp_utc := ToString (field vote "timestamp_utc");
     user_agent :=
       Some (ToString (orElse (field vote "user_agent") (JStr "")));
     page_url := Some (ToString (orElse (field vote "page_url") (JStr "")));
     received_at := toISOString now |}.

(** The branch [POST /api/vote]; a vote that is [undefined] is falsy, so
    [!token || !vote] holds for it. *)
Definition fetch_vote (env : Env) (now : Z) (origin : string)
  (req : Request) (db : D1) : result Response * D1 :=
  let body := default (JObj []) (json req) in
  match get body "token" with
  | Throw e => (Throw e, db)
  | Ok t =>
      let token := ToString (orElse t (JStr "")) in
      match get body "vote" with
      | Throw e => (Throw e, db)
      | Ok None =>
          (Ok (errorResponse 400 origin "Missing token or vote"), db)
      | Ok (Some vote) =>
          if isEmpty token || negb (truthy (Some vote)) then
            (Ok (errorResponse 400 origin "Missing token or vote"), db)
          else
            match verifyToken env now token with
            | Throw e =>
                let msg :=
                  if isEmpty (message e) then "Invalid token"
                  else message e in
                (Ok (errorResponse 403 origin msg), db)
            | Ok _ =>
                match
                  List.find (fun k => isMissing (field vote k)) required
                with
                | Some k =>
                    (Ok (errorResponse 400 origin ("Missing field: " +:+ k)),
                     db)
                | None =>
                    match
                      normalizePreferred (ToString (field vote "preferred"))
                    with
                    | Throw e => (Ok (errorResponse 400 origin (message e)), db)
                    | Ok preferred =>
                        let row := voteRow now vote preferred in
                        let db := dbUpsertVote db row in
                        (Ok (jsonResponse 200 origin (JObj [("ok", JBool true)])),
                         db)
                    end
                end
            end
      end
  end.

Definition fetch (env : Env) (now : Z) (req : Request) (db : D1)
  : result Response * D1 :=
  let origin := default "" (origin_header req) in
  if String.eqb (method req) "OPTIONS" then
    (Ok {| status := 204;
           headers := if originAllowed env origin then cors origin else [];
           body := None |},
     db)
  else if negb (originAllowed env origin) then
    (Ok (errorResponse 403 origin "Origin not allowed"), db)
  else if negb (String.eqb (method req) "POST") then
    (Ok (errorResponse 405 origin "Method not allowed"), db)
  else
    let path := pathname req in
    if endsWith path "/api/start" then fetch_start env now origin req db
    else if endsWith path "/api/vote" then fetch_vote env now origin req db
    else (Ok (errorResponse 404 origin "Not found"), db).

(** The database after a sequence of requests, each with its instant. *)
Definition serve (env : Env) (reqs : list (Z * Request)) (db : D1) : D1 :=
  foldl (fun db r => (fetch env r.1 r.2 db).2) db reqs.

End WithRuntime.

End Worker.

(** ** The front end around the pairing logic *)

Module AppUI.
Import JS.

(** *** Casting a vote *)

(** The [trialId] computed by [vote]: one more than the largest
    [trial_id] among the rows of the participant (0 when there is none). *)
Definition nextTrialId (pid : string) (history : list App.Vote) : Z :=
  foldl (fun mx r => Z.max mx (App.trialOf r)) 0
    (filter (fun r => String.eqb (App.participant_id r) pid = true) history)
  + 1.

(** [pair?.[0] || ""] *)
Definition orEmpty (x : option string) : string := default "" x.

(** The history after [vote(preferred)]: nothing happens without a pair, a
    token or a participant id; otherwise the vote on the current pair is
    appended. *)
Definition vote (token pid comp : string) (methodIds : list string)
  (history : list App.Vote) (preferred : string) : list App.Vote :=
  match App.nextPair pid comp methodIds history with
  | None => history
  | Some (leftId, rightId) =>
      if isEmpty token || isEmpty pid then history
      else
        let voteObj :=
          {| App.participant_id := pid;
             App.component := comp;
             App.trial_id := Some (nextTrialId pid history);
             App.left_method_id := orEmpty leftId;
             App.right_method_id := orEmpty rightId;
             App.preferred := preferred |} in
        history ++ [voteObj]
  end.

(** The [progress] shown: comparisons done and comparisons to do. *)
Definition progress (pid comp : string) (methodIds : list string)
  (history : list App.Vote) : nat * nat :=
  let rows := filter (fun r => App.matches pid comp r) history in
  (length rows, Nat.max (length methodIds - 1) 0).

(** *** Finding the key of a component *)

Definition isLowerAlnum (c : ascii) : bool :=
  let n := N_of_ascii c in
  (((97 <=? n) && (n <=? 122)) || ((48 <=? n) && (n <=? 57)))%N.

Fixpoint filterChars (p : ascii -> bool) (s : string) : string :=
  match s with
  | EmptyString => EmptyString
  | String c s' =>
      if p c then String c (filterChars p s') else filterChars p s'
  end.

(** [(s || "").toLowerCase().replace(/[^a-z0-9]/g, "")] *)
Definition normKey (s : string) : string :=
  filterChars isLowerAlnum (toLowerCase s).

(** [s.slice(0, -1)] *)
Fixpoint dropLast (s : string) : string :=
  match s with
  | EmptyString => EmptyString
  | String _ EmptyString => EmptyString
  | String c s' => String c (dropLast s')
  end.

Definition stripPlural (s : string) : string :=
  if endsWith s "s" then dropLast s else s.

(** [s.includes(sub)] *)
Fixpoint includes (s sub : string) : bool :=
  String.prefix sub s ||
  match s with
  | EmptyString => false
  | String _ s' => includes s' sub
  end.

(** The score that the loop of [bestMatchingKey] gives to the key [k]. *)
Definition keyScore (target : string) (k : string) : Z :=
  let targetS := stripPlural target in
  let nk := normKey k in
  let nkS := stripPlural nk in
  if String.eqb nk target then 100
  else if String.eqb nkS targetS then 95
  else if includes nk target || includes target nk then 70
  else if includes nkS targetS || includes targetS nkS then 60
  else 0.

(** [Object.keys(obj)] for a value with [typeof obj === "object"] that is
    not [null]: the keys of an object in the order of its properties, the
    indices of an array; [None] for the other values. *)
Definition objectKeys (obj : JSON) : option (list string) :=
  match obj with
  | JObj fields => Some (fields.*1)
  | JArr items => Some (pretty <$> seq 0 (length items))
  | _ => None
  end.

(** One turn of the loop on the variable [best]. *)
Definition betterKey (target : string) (best : option (string * Z))
  (k : string) : option (string * Z) :=
  let score := keyScore target k in
  if (0 <? score) &&
     match best with
     | None => true
     | Some b => b.2 <? score
     end
  then Some (k, score)
  else best.

(** [obj] is [None] when it is [undefined]. *)
Definition bestMatchingKey (obj : option JSON) (desired : string)
  : option string :=
  match obj with
  | None => None
  | Some v =>
      if negb (truthy (Some v)) then None
      else
        match objectKeys v with
        | None => None
        | Some keys =>
            let target := normKey desired in
            fst <$> foldl (betterKey target) None keys
        end
  end.



(** *** Escaping *)

(** [s.replace(/c/g, r)] for a character [c] and a string [r]. *)
Fixpoint replaceCharWith (c : ascii) (r : string) (s : string) : string :=
  match s with
  | EmptyString => EmptyString
  | String x s' =>
      if Ascii.eqb x c then r +:+ replaceCharWith c r s'
      else String x (replaceCharWith c r s')
  end.

Definition escapeHtml (s : string) : string :=
  replaceCharWith "'"%char "&#039;"
    (replaceCharWith "034"%char "&quot;"
       (replaceCharWith ">"%char "&gt;"
          (replaceCharWith "<"%char "&lt;"
             (replaceCharWith "&"%char "&amp;" s)))).

End AppUI.

(** ** The steps of [POST /api/start] *)

(** The handler awaits the [SELECT] of [dbGetAccessCode] and then the
    [UPDATE] of [dbDecrementUsesRemaining]: two statements, between which
    the statements of other requests can run. *)
Module WorkerSteps.
Import JS Worker.

(** Where the branch stands once it has read its row: it has answered, or
    it goes on with the hash and the row it read. *)
Inductive startRead :=
| Answered (out : result Response)
| Selected (codeHash : string) (doc : AccessCodeRow).

Section WithRuntime.
Context `{Runtime}.

(** The branch up to the checks on the row read by the [SELECT]. *)
Definition start_select (now : Z) (origin : string) (req : Request)
  (db : D1) : startRead :=
  let body := default (JObj []) (json req) in
  match get body "code" with
  | Throw e => Answered (Throw e)
  | Ok c =>
      let code := trim (ToString (orElse c (JStr ""))) in
      if isEmpty code then Answered (Ok (errorResponse 400 origin "Missing code"))
      else
        let codeHash := sha256Hex code in
        match dbGetAccessCode db codeHash with
        | None => Answered (Ok (errorResponse 403 origin "Invalid code"))
        | Some doc =>
            if negb (active doc =? 1) then
              Answered (Ok (errorResponse 403 origin "Code inactive"))
            else if
              match uses_remaining doc with
              | Some n => n <=? 0
              | None => false
              end
            then
              Answered
                (Ok (errorResponse 403 origin "Code has no remaining uses"))
            else
              match checkExpiry origin now doc with
              | Some resp => Answered (Ok resp)
              | None => Selected codeHash doc
              end
        end
  end.

(** The rest of the branch, on the database as it is by then: the
    [UPDATE] when the row read has a [uses_remaining], and the token,
    whatever the [UPDATE] changed. *)
Definition start_commit (env : Env) (now : Z) (origin : string)
  (codeHash : string) (doc : AccessCodeRow) (db : D1)
  : result Response * D1 :=
  let db :=
    match uses_remaining doc with
    | Some _ => dbDecrementUsesRemaining db codeHash
    | None => db
    end in
  match
    makeToken env
      (JObj [("codeHash", JStr codeHash);
             ("exp", JNum (now + 12 * 60 * 60 * 1000))])
  with
  | Throw e => (Throw e, db)
  | Ok token =>
      (Ok (jsonResponse 200 origin
             (JObj [("ok", JBool true); ("token", JStr token)])),
       db)
  end.


End WithRuntime.
End WorkerSteps.

(** ** The pairing logic on a store *)

(** [nextPair] with its objects made explicit: the arrays it is given and
    the ones it makes, the [Set] of the methods that appeared, and the
    variable [seed] that each closure of [mulberry32] captures and
    updates.  References are the keys of the store. *)
Module AppStore.
Import App.

Inductive obj :=
| Strings (xs : list string)
| Votes (rows : list Vote)
| StringSet (s : gset string)
| Seed (seed : Z).

(** A computation on the store; [None] when a reference does not hold the
    kind of object that is read from it. *)
Definition M (A : Type) : Type := gmap nat obj -> option (A * gmap nat obj).

Definition ret {A} (a : A) : M A := fun σ => Some (a, σ).

Definition bind {A B} (m : M A) (k : A -> M B) : M B :=
  fun σ =>
    match m σ with
    | Some (a, σ') => k a σ'
    | None => None
    end.

(** A new object, at a reference that the store does not use. *)
Definition alloc (o : obj) : M nat :=
  fun σ => let l := fresh (dom σ) in Some (l, <[l := o]> σ).

Definition write (l : nat) (o : obj) : M unit :=
  fun σ => Some (tt, <[l := o]> σ).

Definition readStrings (l : nat) : M (list string) :=
  fun σ =>
    match σ !! l with
    | Some (Strings xs) => Some (xs, σ)
    | _ => None
    end.

Definition readVotes (l : nat) : M (list Vote) :=
  fun σ =>
    match σ !! l with
    | Some (Votes rows) => Some (rows, σ)
    | _ => None
    end.

Definition readSet (l : nat) : M (gset string) :=
  fun σ =>
    match σ !! l with
    | Some (StringSet s) => Some (s, σ)
    | _ => None
    end.

Definition readSeed (l : nat) : M Z :=
  fun σ =>
    match σ !! l with
    | Some (Seed seed) => Some (seed, σ)
    | _ => None
    end.

(** [mulberry32(seed)]: the closure returned is the reference to its
    variable [seed]. *)
Definition mulberry32 (seed : Z) : M nat := alloc (Seed seed).

(** [rnd()]: the numerator of the double returned; [seed] is updated. *)
Definition rnd (g : nat) : M Z :=
  bind (readSeed g) (fun seed =>
  let '(u, seed') := App.mulberry32 seed in
  bind (write g (Seed seed')) (fun _ =>
  ret u)).

Fixpoint shuffleLoop (i : nat) (a g : nat) : M unit :=
  match i with
  | O => ret tt
  | S k =>
      bind (rnd g) (fun u =>
      let j := floorMul u (i + 1) in
      bind (readStrings a) (fun xs =>
      bind (write a (Strings (swap xs i j))) (fun _ =>
      shuffleLoop k a g)))
  end.

Definition stableShuffle (arr : nat) (seedStr : string) : M nat :=
  bind (readStrings arr) (fun xs =>
  bind (alloc (Strings xs)) (fun a =>
  bind (mulberry32 (hash32 seedStr)) (fun g =>
  bind (readStrings a) (fun ys =>
  bind (shuffleLoop (length ys - 1) a g) (fun _ =>
  ret a))))).

(** The [for] loop that fills [appeared]. *)
Fixpoint addAppeared (appeared : nat) (rows : list Vote) : M unit :=
  match rows with
  | [] => ret tt
  | r :: rest =>
      bind (readSet appeared) (fun s =>
      bind (write appeared (StringSet (s ∪ {[left_method_id r]}))) (fun _ =>
      bind (readSet appeared) (fun s =>
      bind (write appeared (StringSet (s ∪ {[right_method_id r]}))) (fun _ =>
      addAppeared appeared rest))))
  end.

(** [nextPair(pid, component, methodIds, history)] for the references
    [methodIds] and [history]. *)
Definition nextPair (pid comp : string) (methodIds history : nat)
  : M (option Pair) :=
  if String.eqb pid "" then ret None
  else
    bind (readStrings methodIds) (fun ms =>
    if (length ms <? 2)%nat then ret None
    else
      bind (readVotes history) (fun hs =>
      bind (alloc (Votes (filter (fun r => matches pid comp r) hs)))
        (fun rows =>
      bind (readVotes rows) (fun rs =>
      bind (write rows (Votes (sortByTrial rs))) (fun _ =>
      bind (readVotes rows) (fun rs =>
      match last rs with
      | None =>
          bind (stableShuffle methodIds (pid +:+ "::" +:+ comp))
            (fun shuffled =>
          bind (readStrings shuffled) (fun ys =>
          ret (Some (ys !! 0%nat, ys !! 1%nat))))
      | Some lastRow =>
          let champion := champion_of lastRow in
          bind (alloc (StringSet ∅)) (fun appeared =>
          bind (addAppeared appeared rs) (fun _ =>
          bind (readSet appeared) (fun seen =>
          bind (readStrings methodIds) (fun ms =>
          bind (alloc
                  (Strings
                     (filter (fun m => (m ∉ seen) ∧ (m ≠ champion)) ms)))
            (fun unseen =>
          bind (readStrings unseen) (fun us =>
          if (length us =? 0)%nat then ret None
          else
            bind (readSet appeared) (fun seen =>
            let seedStr :=
              pid +:+ "::" +:+ comp +:+ "::" +:+ pretty (size seen) in
            bind (mulberry32 (hash32 seedStr)) (fun g =>
            bind (rnd g) (fun u =>
            bind (readStrings unseen) (fun us =>
            ret (Some (Some champion, us !! floorMul u (length us)))))))))))))
      end)))))).

End AppStore.

(** ** Notions used to state the properties of the pairing logic *)

Module AppSpec.
Import App.

(** The prior votes of a participant for a component: the rows of the
    history that carry that participant id and that component, in the
    order of the history. *)
Definition priorVotes (pid comp : string) (history : list Vote)
  : list Vote :=
  filter (fun r => participant_id r = pid ∧ component r = comp) history.

(** [m] is the method preferred in the vote [r]: its [left_method_id] if
    [preferred] is ["left"], else its [right_method_id]. *)
Definition preferredMethod (r : Vote) (m : string) : Prop :=
  (preferred r = "left" ∧ m = left_method_id r) ∨
  (preferred r ≠ "left" ∧ m = right_method_id r).

(** [r] is the most recent of [rows] by trial: no row has a larger
    [trial_id], and among the rows with the largest one it is the last
    in the history. *)
Definition mostRecentByTrial (rows : list Vote) (r : Vote) : Prop :=
  ∃ pre post,
    rows = pre ++ r :: post ∧
    Forall (fun y => trialOf y <= trialOf r) pre ∧
    Forall (fun y => trialOf y < trialOf r) post.

(** The rows are in the order of their trials, as the front end appends
    them: no row is followed by one of a smaller [trial_id]. *)
Definition trialsAscending (rows : list Vote) : Prop :=
  ∀ pre r post,
    rows = pre ++ r :: post ->
    Forall (fun y => trialOf r <= trialOf y) post.

(** [r] is the last of [rows]. *)
Definition mostRecentByPosition (rows : list Vote) (r : Vote) : Prop :=
  ∃ pre, rows = pre ++ [r].

(** [m] was on neither side of any of [rows]. *)
Definition unseenIn (rows : list Vote) (m : string) : Prop :=
  ∀ r, r ∈ rows -> m ≠ left_method_id r ∧ m ≠ right_method_id r.

End AppSpec.

(** ** Notions used to state the properties of the base64 codec *)

Module B64Spec.
Import JS.

(** The 6-bit groups of a byte string, the last one filled with zero
    bits. *)
Fixpoint sextetsOf (s : string) : list N :=
  match s with
  | EmptyString => []
  | String a EmptyString =>
      let x := N_of_ascii a in
      [x / 4; x mod 4 * 16]
  | String a (String b EmptyString) =>
      let x := N_of_ascii a in
      let y := N_of_ascii b in
      [x / 4; x mod 4 * 16 + y / 16; y mod 16 * 4]
  | String a (String b (String c rest)) =>
      let x := N_of_ascii a in
      let y := N_of_ascii b in
      let z := N_of_ascii c in
      x / 4 :: (x mod 4 * 16 + y / 16) :: (y mod 16 * 4 + z / 64) :: z mod 64
        :: sextetsOf rest
  end%N.

(** The characters of a list of 6-bit groups. *)
Fixpoint charsOf (l : list N) : string :=
  match l with
  | [] => EmptyString
  | n :: l' => String (b64char n) (charsOf l')
  end.

(** The padding [btoa] adds after the characters of [s]. *)
Definition padOf (s : string) : string :=
  match (String.length s mod 3)%nat with
  | O => ""
  | S O => "=="
  | _ => "="
  end.

(** What the two replacements of [base64UrlEncode], and the two of
    [fromB64Json], do to a character. *)
Definition urlChar (c : ascii) : ascii :=
  let c := if Ascii.eqb c "+"%char then "-"%char else c in
  if Ascii.eqb c "/"%char then "_"%char else c.

Definition unurlChar (c : ascii) : ascii :=
  let c := if Ascii.eqb c "-"%char then "+"%char else c in
  if Ascii.eqb c "_"%char then "/"%char else c.

Definition notDot (c : ascii) : bool := negb (Ascii.eqb c "."%char).

Definition isPad (pad : string) : Prop :=
  pad = "" ∨ pad = "=" ∨ pad = "==".

(** Every character of [s] satisfies [p]. *)
Fixpoint allChars (p : ascii -> bool) (s : string) : bool :=
  match s with
  | EmptyString => true
  | String c s' => p c && allChars p s'
  end.

End B64Spec.

(** ** Notions used to state the properties of the worker *)

Module WorkerSpec.
Import JS Worker.

Section WithRuntime.
Context `{Runtime}.

(** The origin the handler works with: [req.headers.get("Origin") || ""]. *)
Definition originOf (req : Request) : string :=
  default "" (origin_header req).

(** The code the handler works with: [String(body.code || "").trim()] for
    a body that is not [null]. *)
Definition codeOf (req : Request) : string :=
  trim (ToString (orElse (field (default (JObj []) (json req)) "code")
                    (JStr ""))).

(** The statuses of the error responses. *)
Definition errorStatuses : list Z := [400; 403; 404; 405; 500].

(** What a call of [fetch] on the database [db] can come to. *)
Inductive fetchOutcome (origin : string) (db : D1)
  : result Response * D1 -> Prop :=
| outcome_preflight hdrs :
    fetchOutcome origin db
      (Ok {| status := 204; headers := hdrs; body := None |}, db)
| outcome_error st msg :
    st ∈ errorStatuses ->
    fetchOutcome origin db (Ok (errorResponse st origin msg), db)
| outcome_started token db' :
    (db' = db ∨ ∃ codeHash, db' = dbDecrementUsesRemaining db codeHash) ->
    fetchOutcome origin db
      (Ok (jsonResponse 200 origin
             (JObj [("ok", JBool true); ("token", JStr token)])),
       db')
| outcome_voted row :
    fetchOutcome origin db
      (Ok (jsonResponse 200 origin (JObj [("ok", JBool true)])),
       dbUpsertVote db row)
| outcome_threw e :
    fetchOutcome origin db (Throw e, db)
| outcome_threw_after_decrement e codeHash :
    fetchOutcome origin db (Throw e, dbDecrementUsesRemaining db codeHash).

(** The body of an error response: [{error: msg}]. *)
Definition isErrorBody (resp : Response) : Prop :=
  ∃ msg, body resp = Some (JSON_stringify (JObj [("error", JStr msg)])).





(** The response that grants [token]. *)
Definition grantResponse (origin token : string) : Response :=
  jsonResponse 200 origin (JObj [("ok", JBool true); ("token", JStr token)]).

(** The payload of the token of a session started at [now]. *)
Definition sessionPayload (now : Z) (code : string) : JSON :=
  JObj [("codeHash", JStr (sha256Hex code));
        ("exp", JNum (now + 12 * 60 * 60 * 1000))].

(** A row of [access_codes] whose [uses_remaining] is null or not
    negative. *)
Definition usesNotNegative (r : AccessCodeRow) : Prop :=
  match uses_remaining r with
  | None => True
  | Some n => 0 <= n
  end.

End WithRuntime.
End WorkerSpec.

(** ** Further notions on the worker *)

Module WorkerMore.
Import JS Worker WorkerSpec.

(** The characters of base64url: letters, digits, [-] and [_]. *)
Definition isUrlSafeChar (c : ascii) : bool :=
  let n := N_of_ascii c in
  (((65 <=? n) && (n <=? 90)) || ((97 <=? n) && (n <=? 122))
   || ((48 <=? n) && (n <=? 57)) || (n =? 45) || (n =? 95))%N.

(** The digits of lower-case hexadecimal. *)
Definition isHexChar (c : ascii) : bool :=
  let n := N_of_ascii c in
  (((48 <=? n) && (n <=? 57)) || ((97 <=? n) && (n <=? 102)))%N.

(** The token the vote branch works with: [String(body.token || "")] for
    a body that is not [null]. *)
Definition tokenOf (req : Request) : string :=
  ToString (orElse (field (default (JObj []) (json req)) "token") (JStr "")).

(** A row of [votes] as the handler stores them under the key [k]: the
    key is the [id], made of participant, component and trial;
    [preferred] is normalized; the optional columns are filled. *)
Definition storedVoteOk (k : string) (row : VoteRow) : Prop :=
  id row = k ∧
  id row = participant_id row +:+ "__" +:+ component row +:+ "__" +:+
           numToString (trial_id row) ∧
  (preferred row = "left" ∨ preferred row = "right") ∧
  is_Some (user_agent row) ∧
  is_Some (page_url row).

Section WithRuntime.
Context `{Runtime}.



End WithRuntime.
End WorkerMore.

(** ** Further notions on the front end *)

Module AppMore.

(** The history after the participant has voted [prefs], one after the
    other, on the pairs proposed. *)
Definition playVotes (token pid comp : string) (methodIds : list string)
  (prefs : list string) (history : list App.Vote) : list App.Vote :=
  foldl (fun h preferred => AppUI.vote token pid comp methodIds h preferred)
    history prefs.

(** The vote that [vote] appends. *)
Definition castVote (pid comp : string) (trial : Z) (pair : App.Pair)
  (preferred : string) : App.Vote :=
  {| App.participant_id := pid;
     App.component := comp;
     App.trial_id := Some trial;
     App.left_method_id := AppUI.orEmpty pair.1;
     App.right_method_id := AppUI.orEmpty pair.2;
     App.preferred := preferred |}.

(** While a tournament runs, the methods shown are methods of the list,
    and each vote after the first has shown one more. *)
Definition tournamentInv (methodIds : list string) (rows : list App.Vote)
  : Prop :=
  App.appearedOf rows ⊆ list_to_set methodIds ∧
  size (App.appearedOf rows) = S (length rows).

(** The characters that [escapeHtml] replaces, the ampersand apart. *)
Definition isMarkupChar (c : ascii) : bool :=
  Ascii.eqb c "<"%char || Ascii.eqb c ">"%char || Ascii.eqb c "034"%char
  || Ascii.eqb c "'"%char.

Definition isEscaped (c : ascii) : bool :=
  Ascii.eqb c "&"%char || isMarkupChar c.

End AppMore.

(** ** A reference runtime *)

(** Executable definitions of the platform functions, on which the worker
    can be evaluated on concrete requests.  SHA-256 and HMAC follow
    FIPS 180-4 and RFC 2104; the JSON codec covers the compact texts that
    [JSON.stringify] produces for the values of the model; dates are UTC
    timestamps [YYYY-MM-DDTHH:MM:SS.mmmZ]. *)

Module SHA256.

Definition w32 (x : Z) : Z := x mod 2 ^ 32.

Definition rotr (n x : Z) : Z :=
  Z.lor (Z.shiftr x n) (w32 (Z.shiftl x (32 - n))).

Definition xor3 (x y z : Z) : Z := Z.lxor x (Z.lxor y z).

Definition ch (x y z : Z) : Z :=
  Z.lxor (Z.land x y) (Z.land (Z.lxor x 0xffffffff) z).

Definition maj (x y z : Z) : Z :=
  xor3 (Z.land x y) (Z.land x z) (Z.land y z).

Definition bsig0 (x : Z) : Z := xor3 (rotr 2 x) (rotr 13 x) (rotr 22 x).
Definition bsig1 (x : Z) : Z := xor3 (rotr 6 x) (rotr 11 x) (rotr 25 x).
Definition ssig0 (x : Z) : Z := xor3 (rotr 7 x) (rotr 18 x) (Z.shiftr x 3).
Definition ssig1 (x : Z) : Z := xor3 (rotr 17 x) (rotr 19 x) (Z.shiftr x 10).

(** The constants of FIPS 180-4, from their definition: the first 32 bits
    of the fractional parts of the cube roots (for [K]) and of the square
    roots (for [H0]) of the first primes. *)
Definition isPrime (n : Z) : bool :=
  forallb (fun d => negb (n mod d =? 0)) (seqZ 2 (n - 2)).

Definition primes : list Z := filter (fun n => isPrime n = true) (seqZ 2 310).

(** The integer cube root of [x] below [2 ^ bits]. *)
Fixpoint cubeRoot (bits : nat) (x acc : Z) : Z :=
  match bits with
  | O => acc
  | S k =>
      let try_ := acc + 2 ^ Z.of_nat k in
      cubeRoot k x (if try_ * try_ * try_ <=? x then try_ else acc)
  end.

Definition K : list Z :=
  Eval vm_compute in
    (fun p => w32 (cubeRoot 40 (p * 2 ^ 96) 0)) <$> take 64 primes.

Definition H0 : list Z :=
  Eval vm_compute in
    (fun p => w32 (Z.sqrt (p * 2 ^ 64))) <$> take 8 primes.

Definition bytesOf (s : string) : list Z :=
  (fun c => Z.of_N (N_of_ascii c)) <$> list_ascii_of_string s.

Definition stringOf (l : list Z) : string :=
  string_of_list_ascii ((fun b => ascii_of_N (Z.to_N b)) <$> l).

(** The big-endian bytes of a number, [n] of them. *)
Fixpoint bigEndian (n : nat) (x : Z) : list Z :=
  match n with
  | O => []
  | S k => bigEndian k (x / 256) ++ [x mod 256]
  end.

Definition pad (msg : list Z) : list Z :=
  let len := Z.of_nat (length msg) in
  msg ++ [0x80] ++ replicate (Z.to_nat ((55 - len) mod 64)) 0
    ++ bigEndian 8 (8 * len).

(** The 32-bit words of a list of bytes. *)
Fixpoint wordsOf (l : list Z) : list Z :=
  match l with
  | a :: b :: c :: d :: rest =>
      (((a * 256 + b) * 256 + c) * 256 + d) :: wordsOf rest
  | _ => []
  end.

(** The message schedule, newest word first: [n] words are added to
    [w]. *)
Fixpoint schedule (n : nat) (w : list Z) : list Z :=
  match n with
  | O => w
  | S k =>
      let at_ i := nth i w 0 in
      schedule k
        (w32 (ssig1 (at_ 1%nat) + at_ 6%nat + ssig0 (at_ 14%nat) + at_ 15%nat)
           :: w)
  end.

Definition round (st : list Z) (kw : Z * Z) : list Z :=
  match st with
  | [a; b; c; d; e; f; g; h] =>
      let t1 := h + bsig1 e + ch e f g + kw.1 + kw.2 in
      let t2 := bsig0 a + maj a b c in
      [w32 (t1 + t2); a; b; c; w32 (d + t1); e; f; g]
  | _ => st
  end.

Definition compress (h : list Z) (block : list Z) : list Z :=
  let w := rev (schedule 48 (rev block)) in
  let st := foldl round h (zip K w) in
  zip_with (fun x y => w32 (x + y)) h st.

(** The blocks of 16 words of a padded message; [n] bounds their
    number. *)
Fixpoint blocks (n : nat) (ws : list Z) : list (list Z) :=
  match n, ws with
  | S k, _ :: _ => take 16 ws :: blocks k (drop 16 ws)
  | _, _ => []
  end.

Definition digest (msg : list Z) : list Z :=
  let ws := wordsOf (pad msg) in
  let h := foldl compress H0 (blocks (length ws) ws) in
  h ≫= bigEndian 4.

Definition sha256 (s : string) : string := stringOf (digest (bytesOf s)).

(** RFC 2104 with a block of 64 bytes. *)
Definition hmac (key data : string) : string :=
  let k := bytesOf key in
  let k := if (64 <? Z.of_nat (length k)) then digest k else k in
  let k := k ++ replicate (64 - length k) 0 in
  let ipad := Z.lxor 0x36 <$> k in
  let opad := Z.lxor 0x5c <$> k in
  stringOf (digest (opad ++ digest (ipad ++ bytesOf data))).

End SHA256.

Module Reference.
Import JS.

(** *** JSON texts *)

Definition quoteChar : ascii := "034"%char.
Definition backslash : ascii := "092"%char.

Definition hexDigitOf (n : N) : ascii :=
  default "0"%char (String.get (N.to_nat n) "0123456789abcdef").

(** The text of a character inside a JSON string. *)
Definition escapeChar (c : ascii) : string :=
  let n := N_of_ascii c in
  if Ascii.eqb c quoteChar then String backslash (String quoteChar "")
  else if Ascii.eqb c backslash then String backslash (String backslash "")
  else if (n =? 8)%N then String backslash "b"
  else if (n =? 9)%N then String backslash "t"
  else if (n =? 10)%N then String backslash "n"
  else if (n =? 12)%N then String backslash "f"
  else if (n =? 13)%N then String backslash "r"
  else if (n <? 32)%N then
    String backslash
      ("u00" +:+ String (hexDigitOf (n / 16))
                   (String (hexDigitOf (n mod 16)) ""))
  else String c "".

Fixpoint escape (s : string) : string :=
  match s with
  | EmptyString => EmptyString
  | String c s' => escapeChar c +:+ escape s'
  end.

Definition quote (s : string) : string :=
  String quoteChar (escape s +:+ String quoteChar "").

Fixpoint stringify (v : JSON) : string :=
  match v with
  | JNull => "null"
  | JBool true => "true"
  | JBool false => "false"
  | JNum n => pretty n
  | JStr s => quote s
  | JArr items =>
      "[" +:+
      (fix go (l : list JSON) : string :=
         match l with
         | [] => ""
         | [x] => stringify x
         | x :: rest => stringify x +:+ "," +:+ go rest
         end) items
      +:+ "]"
  | JObj fields =>
      "{" +:+
      (fix go (l : list (string * JSON)) : string :=
         match l with
         | [] => ""
         | [(k, x)] => quote k +:+ ":" +:+ stringify x
         | (k, x) :: rest => quote k +:+ ":" +:+ stringify x +:+ "," +:+ go rest
         end) fields
      +:+ "}"
  end.

Fixpoint skipWs (s : string) : string :=
  match s with
  | String c s' => if isB64White c then skipWs s' else s
  | EmptyString => EmptyString
  end.

Definition digitOf (c : ascii) : option Z :=
  let n := N_of_ascii c in
  if ((48 <=? n) && (n <=? 57))%N then Some (Z.of_N n - 48) else None.

Definition hexOf (c : ascii) : option N :=
  let n := N_of_ascii c in
  if ((48 <=? n) && (n <=? 57))%N then Some (n - 48)%N
  else if ((97 <=? n) && (n <=? 102))%N then Some (n - 87)%N
  else if ((65 <=? n) && (n <=? 70))%N then Some (n - 55)%N
  else None.

(** The digits at the start of [s], as a number added to [10 * acc], with
    their count and the rest of [s]. *)
Fixpoint digits (s : string) (acc : Z) (count : nat) : Z * nat * string :=
  match s with
  | String c s' =>
      match digitOf c with
      | Some d => digits s' (10 * acc + d) (S count)
      | None => (acc, count, s)
      end
  | EmptyString => (acc, count, s)
  end.

(** An integer literal; a fraction or an exponent is outside the model. *)
Definition parseNumber (s : string) : option (Z * string) :=
  let '(neg, s) :=
    match s with
    | String "-" s' => (true, s')
    | _ => (false, s)
    end in
  let '(n, count, rest) := digits s 0 0 in
  if (count =? 0)%nat then None
  else
    match rest with
    | String "." _ | String "e" _ | String "E" _ => None
    | _ => Some (if neg then - n else n, rest)
    end.

(** The characters of a string literal after its opening quote. *)
Fixpoint parseString (s : string) : option (string * string) :=
  match s with
  | EmptyString => None
  | String c r =>
      if Ascii.eqb c quoteChar then Some (EmptyString, r)
      else if Ascii.eqb c backslash then
        match r with
        | String "u" (String "0" (String "0" (String h1 (String h2 r')))) =>
            a ← hexOf h1; b ← hexOf h2;
            '(str, rest) ← parseString r';
            Some (String (ascii_of_N (a * 16 + b)) str, rest)
        | String e r' =>
            c' ← (if Ascii.eqb e quoteChar then Some quoteChar
                  else if Ascii.eqb e backslash then Some backslash
                  else if Ascii.eqb e "/" then Some "/"%char
                  else if Ascii.eqb e "b" then Some "008"%char
                  else if Ascii.eqb e "t" then Some "009"%char
                  else if Ascii.eqb e "n" then Some "010"%char
                  else if Ascii.eqb e "f" then Some "012"%char
                  else if Ascii.eqb e "r" then Some "013"%char
                  else None);
            '(str, rest) ← parseString r';
            Some (String c' str, rest)
        | EmptyString => None
        end
      else if (N_of_ascii c <? 32)%N then None
      else '(str, rest) ← parseString r; Some (String c str, rest)
  end.

Definition expect (word : string) (v : JSON) (s : string)
  : option (JSON * string) :=
  if String.prefix word s then Some (v, slice (String.length word) s)
  else None.

Fixpoint parseValue (fuel : nat) (s : string) : option (JSON * string) :=
  match fuel with
  | O => None
  | S fuel' =>
      match skipWs s with
      | EmptyString => None
      | String c r =>
          if Ascii.eqb c quoteChar then
            '(str, rest) ← parseString r; Some (JStr str, rest)
          else if Ascii.eqb c "[" then
            match skipWs r with
            | String "]" rest => Some (JArr [], rest)
            | _ =>
                '(items, rest) ←
                  (fix items (n : nat) (s : string)
                     : option (list JSON * string) :=
                     match n with
                     | O => None
                     | S n' =>
                         '(v, r1) ← parseValue fuel' s;
                         match skipWs r1 with
                         | String "," r2 =>
                             '(vs, r3) ← items n' r2; Some (v :: vs, r3)
                         | String "]" r2 => Some ([v], r2)
                         | _ => None
                         end
                     end) fuel' r;
                Some (JArr items, rest)
            end
          else if Ascii.eqb c "{" then
            match skipWs r with
            | String "}" rest => Some (JObj [], rest)
            | _ =>
                '(fields, rest) ←
                  (fix members (n : nat) (s : string)
                     : option (list (string * JSON) * string) :=
                     match n with
                     | O => None
                     | S n' =>
                         match skipWs s with
                         | String q r0 =>
                             if Ascii.eqb q quoteChar then
                               '(k, r1) ← parseString r0;
                               match skipWs r1 with
                               | String ":" r2 =>
                                   '(v, r3) ← parseValue fuel' r2;
                                   match skipWs r3 with
                                   | String "," r4 =>
                                       '(kvs, r5) ← members n' r4;
                                       Some ((k, v) :: kvs, r5)
                                   | String "}" r4 => Some ([(k, v)], r4)
                                   | _ => None
                                   end
                               | _ => None
                               end
                             else None
                         | EmptyString => None
                         end
                     end) fuel' r;
                Some (JObj fields, rest)
            end
          else if Ascii.eqb c "n" then expect "null" JNull (String c r)
          else if Ascii.eqb c "t" then expect "true" (JBool true) (String c r)
          else if Ascii.eqb c "f" then expect "false" (JBool false) (String c r)
          else '(n, rest) ← parseNumber (String c r); Some (JNum n, rest)
      end
  end.

Definition parse (s : string) : option JSON :=
  '(v, rest) ← parseValue (S (String.length s)) s;
  if isEmpty (skipWs rest) then Some v else None.

(** *** Dates *)

(** Exactly [n] digits at the start of [s]. *)
Fixpoint readDigits (n : nat) (s : string) (acc : Z) : option (Z * string) :=
  match n with
  | O => Some (acc, s)
  | S k =>
      match s with
      | String c r => d ← digitOf c; readDigits k r (10 * acc + d)
      | EmptyString => None
      end
  end.

Definition expectChar (c : ascii) (s : string) : option string :=
  match s with
  | String x r => if Ascii.eqb x c then Some r else None
  | EmptyString => None
  end.

(** Days from 1970-01-01 to a date of the proleptic Gregorian calendar. *)
Definition daysFromCivil (y m d : Z) : Z :=
  let y := if m <=? 2 then y - 1 else y in
  let era := y / 400 in
  let yoe := y - era * 400 in
  let doy := (153 * (if m >? 2 then m - 3 else m + 9) + 2) / 5 + d - 1 in
  let doe := yoe * 365 + yoe / 4 - yoe / 100 + doy in
  era * 146097 + doe - 719468.

Definition civilFromDays (days : Z) : Z * Z * Z :=
  let z := days + 719468 in
  let era := z / 146097 in
  let doe := z - era * 146097 in
  let yoe := (doe - doe / 1460 + doe / 36524 - doe / 146096) / 365 in
  let doy := doe - (365 * yoe + yoe / 4 - yoe / 100) in
  let mp := (5 * doy + 2) / 153 in
  let d := doy - (153 * mp + 2) / 5 + 1 in
  let m := if mp <? 10 then mp + 3 else mp - 9 in
  let y := yoe + era * 400 + (if m <=? 2 then 1 else 0) in
  (y, m, d).

Definition parseDate (s : string) : option Z :=
  '(y, s) ← readDigits 4 s 0;
  s ← expectChar "-" s;
  '(m, s) ← readDigits 2 s 0;
  s ← expectChar "-" s;
  '(d, s) ← readDigits 2 s 0;
  s ← expectChar "T" s;
  '(hh, s) ← readDigits 2 s 0;
  s ← expectChar ":" s;
  '(mm, s) ← readDigits 2 s 0;
  s ← expectChar ":" s;
  '(ss, s) ← readDigits 2 s 0;
  '(ms, s) ← match s with
              | String "." r => readDigits 3 r 0
              | _ => Some (0, s)
              end;
  s ← expectChar "Z" s;
  if isEmpty s && (1 <=? m) && (m <=? 12) && (1 <=? d) && (d <=? 31)
     && (hh <=? 23) && (mm <=? 59) && (ss <=? 59)
  then
    Some ((((daysFromCivil y m d * 24 + hh) * 60 + mm) * 60 + ss) * 1000 + ms)
  else None.

(** The decimal digits of [x], at least [n] of them. *)
Definition padded (n : nat) (x : Z) : string :=
  let s := pretty x in
  string_of_list_ascii (replicate (n - String.length s) "0"%char) +:+ s.

Definition isoString (ms : Z) : string :=
  let days := ms / 86400000 in
  let rest := ms mod 86400000 in
  let '(y, m, d) := civilFromDays days in
  padded 4 y +:+ "-" +:+ padded 2 m +:+ "-" +:+ padded 2 d +:+ "T" +:+
  padded 2 (rest / 3600000) +:+ ":" +:+
  padded 2 (rest / 60000 mod 60) +:+ ":" +:+
  padded 2 (rest / 1000 mod 60) +:+ "." +:+
  padded 3 (rest mod 1000) +:+ "Z".

(** *** Numbers *)

(** [Number(s)] for a string: the empty string is 0, an integer literal
    its value, anything else [NaN] (other numeric literals are outside the
    model). *)
Definition stringToNumber (s : string) : num :=
  let s := trim s in
  if isEmpty s then Int 0
  else
    let '(neg, body) :=
      match s with
      | String "-" s' => (true, s')
      | String "+" s' => (false, s')
      | _ => (false, s)
      end in
    let '(n, count, rest) := digits body 0 0 in
    if (0 <? count)%nat && isEmpty rest then Int (if neg then - n else n)
    else NaN.

Definition runtime : Runtime :=
  {| sha256 := SHA256.sha256;
     hmacSha256 := SHA256.hmac;
     zeroKeyMessage := "Zero-length key is not supported";
     JSON_stringify := stringify;
     JSON_parse := parse;
     Date_parse := parseDate;
     toISOString := isoString;
     StringToNumber := stringToNumber |}.

End Reference.

(** ** Sample data *)

(** An environment, a database and requests on which the worker is
    evaluated with the reference runtime. *)
Module Sample.
Import JS Worker.

#[local] Existing Instance Reference.runtime.

Definition env : Env :=
  {| TOKEN_SECRET := "s3cret";
     ALLOWED_ORIGINS := "https://survey.example, https://lab.example" |}.

(** The same environment without a secret. *)
Definition envNoSecret : Env :=
  {| TOKEN_SECRET := "";
     ALLOWED_ORIGINS := "https://survey.example, https://lab.example" |}.

Definition origin : string := "https://survey.example".

(** 2023-11-14T22:13:20Z *)
Definition now : Z := 1700000000000.

Definition codeRow (code : string) (uses : option Z) (expires : option string)
  : AccessCodeRow :=
  {| code_hash := sha256Hex code;
     active := 1;
     uses_remaining := uses;
     expires_at := expires |}.

Definition db : D1 :=
  {| access_codes :=
       [ codeRow "alpha" (Some 2) None;
         codeRow "beta" None (Some "");
         codeRow "gamma" (Some 1) (Some "2030-01-01T00:00:00Z");
         codeRow "delta" (Some 0) None;
         codeRow "omega" None (Some "2020-01-01T00:00:00Z") ];
     votes := ∅ |}.

Definition post (path : string) (body : JSON) : Request :=
  {| method := "POST";
     pathname := path;
     origin_header := Some origin;
     json := Some body |}.

Definition startRequest (code : string) : Request :=
  post "/api/start" (JObj [("code", JStr code)]).

Definition vote : JSON :=
  JObj [("participant_id", JStr "P1"); ("component", JStr "kg");
        ("trial_id", JNum 3); ("left_method_id", JStr "m1");
        ("right_method_id", JStr "m2"); ("preferred", JStr "Left");
        ("timestamp_utc", JStr "2023-11-14T22:13:19.000Z")].

Definition voteRequest (token : string) : Request :=
  post "/api/vote" (JObj [("token", JStr token); ("vote", vote)]).

(** The text of a token that was made (the samples are made with the
    secret of [env], for which [makeToken] does not throw). *)
Definition issued (token : result string) : string :=
  match token with
  | Ok t => t
  | Throw _ => ""
  end.

(** Tokens signed with the secret of [env]: one that never expires by
    the check of [verifyToken], one that expired, one still valid. *)

Definition tokenExpZero : string :=
  issued (makeToken env (JObj [("exp", JNum 0)])).
Definition tokenExpired : string :=
  issued (makeToken env (JObj [("exp", JNum (now - 1))])).
Definition tokenValid : string :=
  issued (makeToken env (WorkerSpec.sessionPayload (now - 1000) "alpha")).

End Sample.

(** * Properties of the pairing logic *)

Section AppFacts.
Import JSInt App.

(** ** The generator *)

Lemma toUint32_range x : 0 <= toUint32 x < 2 ^ 32.
Proof. unfold toUint32. apply Z.mod_pos_bound. lia. Qed.

Lemma ushr_0 x : ushr x 0 = toUint32 x.
Proof. unfold ushr. by rewrite Z.mod_0_l, Z.shiftr_0_r. Qed.

Lemma hash32_range s : 0 <= hash32 s < 2 ^ 32.
Proof. unfold hash32. rewrite ushr_0. apply toUint32_range. Qed.

Lemma mulberry32_range seed : 0 <= (mulberry32 seed).1 < 2 ^ 32.
Proof. unfold mulberry32. cbn [fst]. rewrite ushr_0. apply toUint32_range. Qed.

(** [Math.floor(rnd() * n)] is an index of an array of length [n]. *)
Lemma floorMul_lt u n :
  0 <= u < 2 ^ 32 -> (0 < n)%nat -> (floorMul u n < n)%nat.
Proof.
  intros Hu Hn. unfold floorMul.
  assert (0 <= u * Z.of_nat n / 4294967296 < Z.of_nat n) as Hq; [|lia].
  split.
  - apply Z.div_pos; lia.
  - apply Z.div_lt_upper_bound; [lia|].
    change (2 ^ 32) with 4294967296 in Hu. nia.
Qed.

(** ** The shuffle *)

Section ShuffleFacts.
Context {T : Type}.
Implicit Types (a xs : list T) (h : gmap nat (list T)).

Lemma swap_Permutation a i j : swap a i j ≡ₚ a.
Proof.
  unfold swap.
  destruct (a !! i) as [x|] eqn:Hi; [|done].
  destruct (a !! j) as [y|] eqn:Hj; [|done].
  by apply Permutation_insert_swap.
Qed.

Lemma swap_length a i j : length (swap a i j) = length a.
Proof. apply Permutation_length, swap_Permutation. Qed.

(** The swap of the loop reads inside the array. *)
Lemma swap_in_range a i u :
  (i < length a)%nat -> 0 <= u < 2 ^ 32 ->
  is_Some (a !! i) ∧ is_Some (a !! floorMul u (i + 1)).
Proof.
  intros Hi Hu. split; apply lookup_lt_is_Some; [done|].
  pose proof (floorMul_lt u (i + 1) Hu). lia.
Qed.

Lemma shuffleLoop_Permutation i a seed : shuffleLoop i a seed ≡ₚ a.
Proof.
  revert a seed. induction i as [|k IH]; intros a seed; cbn; [done|].
  destruct (mulberry32 seed) as [u seed'].
  rewrite IH. apply swap_Permutation.
Qed.

Lemma stableShuffle_Permutation xs seedStr :
  stableShuffle xs seedStr ≡ₚ xs.
Proof. apply shuffleLoop_Permutation. Qed.

Lemma stableShuffle_length xs seedStr :
  length (stableShuffle xs seedStr) = length xs.
Proof. apply Permutation_length, stableShuffle_Permutation. Qed.

(** The in-place loop on the store computes [shuffleLoop] on the
    contents of the array it owns and touches nothing else. *)
Lemma shuffleLoopAt_spec i r h l seed :
  h !! r = Some l ->
  shuffleLoopAt i r h seed = <[r := shuffleLoop i l seed]> h.
Proof.
  revert h l seed. induction i as [|k IH]; intros h l seed Hr; cbn.
  - by rewrite insert_id.
  - destruct (mulberry32 seed) as [u seed'].
    unfold swapAt. rewrite Hr.
    erewrite IH by apply lookup_insert_eq.
    by rewrite insert_insert_eq.
Qed.
End ShuffleFacts.

End AppFacts.

(** C10.  [stableShuffle] is a permutation and leaves its argument alone:
    called on a reference [arr] to an array [xs] of the store, it returns a
    reference [r] to a new array, different from [arr], holding a
    reordering of [xs] (same elements, same multiplicities), which is the
    value [App.stableShuffle xs seedStr]; the array at [arr], and every
    other array of the store, is as before. *)
Theorem stableShuffle_permutes_a_copy
  (T : Type) (h : gmap nat (list T)) (arr : nat) (xs : list T)
  (seedStr : string) :
  h !! arr = Some xs ->
  ∃ h' r ys,
    App.stableShuffleRef h arr seedStr = Some (h', r) ∧
    h' !! r = Some ys ∧
    ys = App.stableShuffle xs seedStr ∧
    ys ≡ₚ xs ∧
    r ≠ arr ∧
    h' !! arr = Some xs ∧
    (∀ l, l ≠ r -> h' !! l = h !! l).
Proof.
  intros Harr. unfold App.stableShuffleRef. rewrite Harr.
  set (r := fresh (dom h)).
  assert (h !! r = None) as Hfresh.
  { apply not_elem_of_dom. apply is_fresh. }
  assert (r ≠ arr) as Hne by congruence.
  eexists _, r, _. split; [reflexivity|].
  erewrite shuffleLoopAt_spec by apply lookup_insert_eq.
  rewrite insert_insert_eq.
  repeat split.
  - apply lookup_insert_eq.
  - apply stableShuffle_Permutation.
  - done.
  - by rewrite lookup_insert_ne.
  - intros l Hl. by rewrite lookup_insert_ne.
Qed.

Lemma stableShuffle_permutes_a_copy_witness :
  ∃ h' r ys,
    App.stableShuffleRef {[ 7%nat := ["m1"; "m2"; "m3"; "m4"] ]} 7 "P1::kg"
      = Some (h', r) ∧
    h' !! r = Some ys ∧
    ys = App.stableShuffle ["m1"; "m2"; "m3"; "m4"] "P1::kg" ∧
    ys ≡ₚ ["m1"; "m2"; "m3"; "m4"] ∧
    r ≠ 7%nat ∧
    h' !! 7%nat = Some ["m1"; "m2"; "m3"; "m4"] ∧
    (∀ l, l ≠ r -> h' !! l = ({[ 7%nat := ["m1"; "m2"; "m3"; "m4"] ]} : gmap nat (list string)) !! l).
Proof.
  apply (stableShuffle_permutes_a_copy string
           {[ 7%nat := ["m1"; "m2"; "m3"; "m4"] ]} 7
           ["m1"; "m2"; "m3"; "m4"] "P1::kg").
  reflexivity.
Defined.

(** ** Pair selection *)

Section PairFacts.
Import App AppSpec.
Implicit Types (rows : list Vote) (r x : Vote) (m : string).

(** The filter of [nextPair] selects the prior votes. *)
Lemma matches_spec pid comp r :
  matches pid comp r = true ↔ participant_id r = pid ∧ component r = comp.
Proof.
  unfold matches. by rewrite andb_true_iff, !String.eqb_eq.
Qed.

Lemma priorVotes_code pid comp history :
  filter (fun r => matches pid comp r) history = priorVotes pid comp history.
Proof.
  unfold priorVotes. apply list_filter_iff. intros r.
  by rewrite Is_true_true, matches_spec.
Qed.

(** The champion of [nextPair] is the method preferred in the row. *)
Lemma champion_of_spec r m : champion_of r = m ↔ preferredMethod r m.
Proof.
  unfold champion_of, preferredMethod.
  destruct (String.eqb_spec (preferred r) "left") as [Hl|Hl].
  - split; [intros <-; by left|]. by intros [[_ ->]|[? _]].
  - split; [intros <-; by right|]. by intros [[? _]|[_ ->]].
Qed.

Lemma last_ascending_mostRecentByTrial rows r :
  mostRecentByPosition rows r -> trialsAscending rows ->
  mostRecentByTrial rows r.
Proof.
  intros [pre ->] Hasc. exists pre, []. split; [done|]. split; [|constructor].
  apply Forall_forall. intros y Hy.
  apply list_elem_of_split in Hy as (l1 & l2 & ->).
  rewrite <- (assoc_L (++)) in Hasc. cbn in Hasc.
  specialize (Hasc l1 y (l2 ++ [r]) eq_refl).
  rewrite Forall_app, Forall_singleton in Hasc. by destruct Hasc as [_ Hr].
Qed.

Lemma elem_of_appearedOf_acc rows (acc : gset string) m :
  m ∈ foldl (fun s r => s ∪ {[left_method_id r]} ∪ {[right_method_id r]})
        acc rows
  ↔ m ∈ acc ∨
    ∃ r, r ∈ rows ∧ (m = left_method_id r ∨ m = right_method_id r).
Proof.
  revert acc. induction rows as [|x rows IH]; intros acc; cbn.
  - split; [by left|]. intros [?|(r & Hr & _)]; [done|]. by inversion Hr.
  - rewrite IH. rewrite !elem_of_union, !elem_of_singleton. split.
    + intros [[[?|?]|?]|(r & Hr & Hm)].
      * by left.
      * right. exists x. split; [left|]; auto.
      * right. exists x. split; [left|]; auto.
      * right. exists r. split; [by right|done].
    + intros [?|(r & Hr & Hm)]; [auto|].
      apply elem_of_cons in Hr as [->|Hr]; [|by eauto].
      destruct Hm; auto.
Qed.

Lemma elem_of_appearedOf rows m :
  m ∈ appearedOf rows
  ↔ ∃ r, r ∈ rows ∧ (m = left_method_id r ∨ m = right_method_id r).
Proof.
  unfold appearedOf. rewrite elem_of_appearedOf_acc.
  split; [intros [Hm|Hm]; [by apply not_elem_of_empty in Hm|done]|by right].
Qed.

Lemma not_appeared_unseen rows m : m ∉ appearedOf rows ↔ unseenIn rows m.
Proof.
  rewrite elem_of_appearedOf. unfold unseenIn. split.
  - intros Hno r Hr. split; intros ->; apply Hno; eauto.
  - intros Hun (r & Hr & [->| ->]); by destruct (Hun r Hr).
Qed.

Lemma insertByTrial_Permutation x rows : insertByTrial x rows ≡ₚ x :: rows.
Proof.
  induction rows as [|y rows IH]; cbn; [done|].
  destruct (Z.leb _ _); [done|]. by rewrite IH, Permutation_swap.
Qed.

Lemma sortByTrial_Permutation rows : sortByTrial rows ≡ₚ rows.
Proof.
  induction rows as [|x rows IH]; cbn; [done|].
  by rewrite insertByTrial_Permutation, IH.
Qed.

(** Where the inserted row ends up last. *)
Lemma last_insertByTrial x rows :
  last (insertByTrial x rows) =
    if forallb (fun y => Z.ltb (trialOf y) (trialOf x)) rows then Some x
    else last rows.
Proof.
  induction rows as [|y rows IH]; cbn; [done|].
  destruct (Z.leb_spec (trialOf x) (trialOf y)) as [Hle|Hlt].
  - replace (Z.ltb (trialOf y) (trialOf x)) with false by lia. done.
  - replace (Z.ltb (trialOf y) (trialOf x)) with true by lia. cbn.
    rewrite last_cons, IH.
    destruct (forallb _ rows) eqn:Hall; [done|].
    destruct rows as [|z rows]; [by cbn in Hall|].
    rewrite last_cons_cons.
    destruct (last (z :: rows)) eqn:E; [done|]. by apply last_None in E.
Qed.

Lemma forallb_false_elem {A} (f : A -> bool) (l : list A) :
  forallb f l = false -> ∃ y, y ∈ l ∧ f y = false.
Proof.
  induction l as [|a l IH]; cbn; [done|].
  destruct (f a) eqn:Ha; cbn.
  - intros (y & Hy & Hf)%IH. exists y. split; [by right|done].
  - intros _. exists a. split; [by left|done].
Qed.

Lemma mostRecentByTrial_max rows r y :
  mostRecentByTrial rows r -> y ∈ rows -> trialOf y <= trialOf r.
Proof.
  intros (pre & post & -> & Hpre & Hpost) Hy.
  rewrite Forall_forall in Hpre. rewrite Forall_forall in Hpost.
  apply elem_of_app in Hy as [Hy|Hy]; [by apply Hpre|].
  apply elem_of_cons in Hy as [->|Hy]; [lia|].
  specialize (Hpost y Hy). cbn in Hpost. lia.
Qed.

(** The last row after the stable sort is the most recent by trial. *)
Lemma last_sortByTrial rows r :
  last (sortByTrial rows) = Some r -> mostRecentByTrial rows r.
Proof.
  revert r. induction rows as [|x rows IH]; intros r; [done|].
  change (sortByTrial (x :: rows))
    with (insertByTrial x (sortByTrial rows)).
  rewrite last_insertByTrial.
  destruct (forallb _ (sortByTrial rows)) eqn:Hall.
  - intros [= ->]. exists [], rows. split_and!; [done|constructor|].
    rewrite <- (sortByTrial_Permutation rows).
    apply Forall_forall. intros y Hy.
    rewrite forallb_forall in Hall.
    apply list_elem_of_In, Hall in Hy. lia.
  - intros Hlast. pose proof (IH r Hlast) as Hmax.
    destruct (IH r Hlast) as (pre & post & Hrows & Hpre & Hpost).
    exists (x :: pre), post. split_and!; [by rewrite Hrows| |done].
    constructor; [|done].
    apply forallb_false_elem in Hall as (y & Hy & Hxy).
    rewrite sortByTrial_Permutation in Hy.
    pose proof (mostRecentByTrial_max rows r y Hmax Hy). lia.
Qed.

Lemma mostRecentByTrial_last rows r :
  mostRecentByTrial rows r -> trialsAscending rows ->
  mostRecentByPosition rows r.
Proof.
  intros (pre & post & -> & _ & Hpost) Hasc.
  specialize (Hasc pre r post eq_refl).
  destruct post as [|y post]; [by exists pre|].
  apply Forall_cons_1 in Hpost as [Hlt _].
  apply Forall_cons_1 in Hasc as [Hle _]. lia.
Qed.

Lemma sortByTrial_nil rows : sortByTrial rows = [] -> rows = [].
Proof.
  intros Hs. apply Permutation_nil_r.
  by rewrite <- Hs, sortByTrial_Permutation.
Qed.

Lemma unseenIn_Permutation rows rows' m :
  rows ≡ₚ rows' -> unseenIn rows m -> unseenIn rows' m.
Proof. intros Hp Hun r Hr. apply Hun. by rewrite Hp. Qed.

(** A lookup below the length of the filtered list gives one of its
    elements. *)
Lemma unseen_lookup (appeared : gset string) champion
  (methodIds : list string) (i : nat) m :
  filter (fun m => (m ∉ appeared) ∧ (m ≠ champion)) methodIds !! i = Some m ->
  m ∈ methodIds ∧ (m ∉ appeared) ∧ (m ≠ champion).
Proof.
  intros Hm%list_elem_of_lookup_2%list_elem_of_filter. tauto.
Qed.
End PairFacts.

(** C5 (amended).  Champion and challenger.  When the participant has at
    least one prior vote for the component and [nextPair] returns a pair,
    its first element is the method preferred in the most recent of those
    votes ([left_method_id] if [preferred] is ["left"], else
    [right_method_id]), and its second element is a method of the list
    that was on neither side of any of those votes and differs from the
    champion.  The most recent vote is, for the current front end, the one
    of largest [trial_id] (the last of them in the history when several
    have it) and, for the first version, the last of those votes in the
    history; the two are the same vote whenever the trials of those votes
    ascend along the history. *)
Theorem nextPair_champion_challenger
  (pid comp : string) (methodIds : list string) (history : list App.Vote)
  (a b : option string) :
  AppSpec.priorVotes pid comp history ≠ [] ->
  (App.nextPair pid comp methodIds history = Some (a, b) ->
   ∃ lastRow champion m,
     AppSpec.mostRecentByTrial (AppSpec.priorVotes pid comp history) lastRow ∧
     (AppSpec.trialsAscending (AppSpec.priorVotes pid comp history) ->
      AppSpec.mostRecentByPosition (AppSpec.priorVotes pid comp history)
        lastRow) ∧
     AppSpec.preferredMethod lastRow champion ∧
     a = Some champion ∧
     b = Some m ∧
     m ∈ methodIds ∧
     AppSpec.unseenIn (AppSpec.priorVotes pid comp history) m ∧
     m ≠ champion)
  ∧
  (AppV0.nextPair pid comp methodIds history = Some (a, b) ->
   ∃ lastRow champion m,
     AppSpec.mostRecentByPosition (AppSpec.priorVotes pid comp history) lastRow ∧
     (AppSpec.trialsAscending (AppSpec.priorVotes pid comp history) ->
      AppSpec.mostRecentByTrial (AppSpec.priorVotes pid comp history)
        lastRow) ∧
     AppSpec.preferredMethod lastRow champion ∧
     a = Some champion ∧
     b = Some m ∧
     m ∈ methodIds ∧
     AppSpec.unseenIn (AppSpec.priorVotes pid comp history) m ∧
     m ≠ champion).
Proof.
  intros Hrows. split.
  - unfold App.nextPair.
    destruct (String.eqb pid "" || _); [done|].
    rewrite (priorVotes_code pid comp history).
    set (rows := AppSpec.priorVotes pid comp history) in *.
    destruct (last (App.sortByTrial rows)) as [lastRow|] eqn:Hlast.
    2:{ by apply last_None, sortByTrial_nil in Hlast. }
    set (unseen := filter _ methodIds).
    destruct (Nat.eqb_spec (length unseen) 0) as [|Hlen]; [done|].
    destruct (App.mulberry32 _) as [u seed'] eqn:Hrnd.
    intros [= <- <-].
    assert (0 <= u < 2 ^ 32) as Hu.
    { pose proof (mulberry32_range
        (App.hash32 (pid +:+ "::" +:+ comp +:+ "::" +:+
                     pretty (size (App.appearedOf (App.sortByTrial rows))))))
        as Hr.
      by rewrite Hrnd in Hr. }
    destruct (lookup_lt_is_Some_2 unseen (App.floorMul u (length unseen)))
      as [m Hm]; [apply floorMul_lt; [done|lia]|].
    apply unseen_lookup in Hm as Hm'. destruct Hm' as (Hin & Hnot & Hch).
    exists lastRow, (App.champion_of lastRow), m. split_and!; try done.
    + by apply last_sortByTrial.
    + by apply mostRecentByTrial_last, last_sortByTrial.
    + by apply champion_of_spec.
    + apply not_appeared_unseen in Hnot.
      eapply unseenIn_Permutation; [apply sortByTrial_Permutation|done].
  - unfold AppV0.nextPair.
    destruct (_ <? _)%nat; [done|].
    rewrite (priorVotes_code pid comp history).
    set (rows := AppSpec.priorVotes pid comp history) in *.
    destruct (last rows) as [lastRow|] eqn:Hlast.
    2:{ by apply last_None in Hlast. }
    set (unseen := filter _ methodIds).
    destruct (Nat.eqb_spec (length unseen) 0) as [|Hlen]; [done|].
    intros [= <- <-].
    destruct (lookup_lt_is_Some_2 unseen (length rows `mod` length unseen))
      as [m Hm]; [apply Nat.mod_upper_bound; lia|].
    apply unseen_lookup in Hm as Hm'. destruct Hm' as (Hin & Hnot & Hch).
    exists lastRow, (App.champion_of lastRow), m. split_and!; try done.
    + by apply last_Some.
    + by apply last_ascending_mostRecentByTrial, last_Some.
    + by apply champion_of_spec.
    + by apply not_appeared_unseen.
Qed.

Lemma nextPair_champion_challenger_witness :
  let history :=
    [ {| App.participant_id := "P1"; App.component := "kg";
         App.trial_id := Some 1; App.left_method_id := "a";
         App.right_method_id := "b"; App.preferred := "left" |} ] in
  ∃ lastRow champion m,
    AppSpec.mostRecentByTrial (AppSpec.priorVotes "P1" "kg" history) lastRow ∧
    (AppSpec.trialsAscending (AppSpec.priorVotes "P1" "kg" history) ->
     AppSpec.mostRecentByPosition (AppSpec.priorVotes "P1" "kg" history)
       lastRow) ∧
    AppSpec.preferredMethod lastRow champion ∧
    Some "a" = Some champion ∧
    Some "c" = Some m ∧
    m ∈ ["a"; "b"; "c"; "d"; "e"] ∧
    AppSpec.unseenIn (AppSpec.priorVotes "P1" "kg" history) m ∧
    m ≠ champion.
Proof.
  intros history.
  refine (proj1 (nextPair_champion_challenger "P1" "kg"
                   ["a"; "b"; "c"; "d"; "e"] history (Some "a") (Some "c") _) _).
  - vm_compute. discriminate.
  - vm_compute. reflexivity.
Defined.

(** C5, as stated, fails: it takes the champion from the most recent
    prior vote for both versions of [nextPair], which do not agree on
    which vote that is.  On a history whose trials descend, the current
    front end takes the vote of largest [trial_id] and the first version
    the last vote of the history, and their champions differ. *)
Lemma most_recent_vote_differs :
  let r1 :=
    {| App.participant_id := "P1"; App.component := "kg";
       App.trial_id := Some 2; App.left_method_id := "a";
       App.right_method_id := "b"; App.preferred := "left" |} in
  let r2 :=
    {| App.participant_id := "P1"; App.component := "kg";
       App.trial_id := Some 1; App.left_method_id := "a";
       App.right_method_id := "c"; App.preferred := "right" |} in
  let history := [r1; r2] in
  AppSpec.priorVotes "P1" "kg" history = [r1; r2] ∧
  AppSpec.mostRecentByTrial (AppSpec.priorVotes "P1" "kg" history) r1 ∧
  AppSpec.mostRecentByPosition (AppSpec.priorVotes "P1" "kg" history) r2 ∧
  AppSpec.preferredMethod r1 "a" ∧
  AppSpec.preferredMethod r2 "c" ∧
  App.nextPair "P1" "kg" ["a"; "b"; "c"; "d"] history
    = Some (Some "a", Some "d") ∧
  AppV0.nextPair "P1" "kg" ["a"; "b"; "c"; "d"] history
    = Some (Some "c", Some "d").
Proof.
  intros r1 r2 history. split_and!.
  - reflexivity.
  - exists [], [r2]. split_and!; [reflexivity|constructor|].
    constructor; [|constructor]. vm_compute. reflexivity.
  - by exists [r1].
  - left. by split.
  - right. by split.
  - vm_compute. reflexivity.
  - vm_compute. reflexivity.
Qed.

(** ** The pairing logic on the store *)

Section StoreFacts.
Import App AppStore.
Implicit Types (σ : gmap nat obj).

Lemma alloc_fresh o σ :
  alloc o σ = Some (fresh (dom σ), <[fresh (dom σ) := o]> σ) ∧
  σ !! fresh (dom σ) = None.
Proof. split; [done|]. apply not_elem_of_dom, is_fresh. Qed.

Lemma mulberry32_seed seed : (App.mulberry32 seed).2 = seed + 0x6d2b79f5.
Proof. done. Qed.

Lemma rnd_store g seed σ :
  σ !! g = Some (Seed seed) ->
  rnd g σ
  = Some ((App.mulberry32 seed).1, <[g := Seed (seed + 0x6d2b79f5)]> σ).
Proof.
  intros Hg. unfold rnd, bind, readSeed. rewrite Hg.
  rewrite <- mulberry32_seed. by destruct (App.mulberry32 seed).
Qed.

(** The loop works on the copy and on the variable of the generator. *)
Lemma shuffleLoop_store i a g xs seed σ :
  a ≠ g ->
  σ !! a = Some (Strings xs) ->
  σ !! g = Some (Seed seed) ->
  AppStore.shuffleLoop i a g σ
  = Some (tt, <[a := Strings (App.shuffleLoop i xs seed)]>
                (<[g := Seed (seed + Z.of_nat i * 0x6d2b79f5)]> σ)).
Proof.
  intros Hne. revert xs seed σ.
  induction i as [|k IH]; intros xs seed σ Ha Hg.
  - cbn [AppStore.shuffleLoop App.shuffleLoop]. unfold ret.
    replace (seed + Z.of_nat 0 * 0x6d2b79f5) with seed by lia.
    rewrite (insert_id σ g) by done. by rewrite (insert_id σ a).
  - cbn [AppStore.shuffleLoop App.shuffleLoop]. unfold bind at 1.
    rewrite (rnd_store g seed σ Hg).
    pose proof (mulberry32_seed seed) as Hseed.
    destruct (App.mulberry32 seed) as [u seed1]. cbn [fst snd] in *.
    subst seed1.
    unfold bind, readStrings, write.
    rewrite lookup_insert_ne by done. rewrite Ha.
    rewrite (IH (swap xs (S k) (floorMul u (S k + 1))) (seed + 0x6d2b79f5)).
    2:{ apply lookup_insert_eq. }
    2:{ rewrite lookup_insert_ne by done. apply lookup_insert_eq. }
    replace (seed + 0x6d2b79f5 + Z.of_nat k * 0x6d2b79f5)
      with (seed + Z.of_nat (S k) * 0x6d2b79f5) by lia.
    do 2 f_equal. apply map_eq. intros l.
    destruct (decide (l = a)) as [->|Hla]; [by rewrite !lookup_insert_eq|].
    rewrite !(lookup_insert_ne _ a) by done.
    destruct (decide (l = g)) as [->|Hlg]; [by rewrite !lookup_insert_eq|].
    by rewrite !lookup_insert_ne by done.
Qed.

Lemma stableShuffle_store arr xs seedStr σ :
  σ !! arr = Some (Strings xs) ->
  match AppStore.stableShuffle arr seedStr σ with
  | Some (a, σ') =>
      σ' !! a = Some (Strings (App.stableShuffle xs seedStr)) ∧ σ ⊆ σ'
  | None => False
  end.
Proof.
  intros Harr. unfold AppStore.stableShuffle, bind at 1, readStrings at 1.
  rewrite Harr. unfold bind at 1.
  destruct (alloc_fresh (Strings xs) σ) as [-> Ha].
  set (a := fresh (dom σ)) in *.
  unfold bind at 1, AppStore.mulberry32.
  destruct (alloc_fresh (Seed (hash32 seedStr)) (<[a := Strings xs]> σ))
    as [-> Hg].
  set (g := fresh (dom (<[a := Strings xs]> σ))) in *.
  apply lookup_insert_None in Hg as [Hg Hag].
  unfold bind at 1, readStrings. rewrite lookup_insert_ne by done.
  rewrite lookup_insert_eq. unfold bind.
  rewrite (shuffleLoop_store (length xs - 1) a g xs (hash32 seedStr));
    [|done| |apply lookup_insert_eq].
  2:{ rewrite lookup_insert_ne by done. apply lookup_insert_eq. }
  unfold ret. split; [apply lookup_insert_eq|].
  apply insert_subseteq_r; [done|]. apply insert_subseteq_r; [done|].
  apply insert_subseteq_r; [done|]. by apply insert_subseteq.
Qed.

Lemma addAppeared_store appeared rows s σ :
  σ !! appeared = Some (StringSet s) ->
  addAppeared appeared rows σ
  = Some (tt,
          <[appeared :=
              StringSet
                (foldl
                   (fun s r => s ∪ {[left_method_id r]} ∪ {[right_method_id r]})
                   s rows)]> σ).
Proof.
  revert s σ. induction rows as [|r rows IH]; intros s σ Hs.
  - cbn. unfold ret. by rewrite (insert_id σ appeared).
  - cbn [addAppeared foldl]. unfold bind, readSet, write.
    rewrite Hs, lookup_insert_eq.
    rewrite (IH (s ∪ {[left_method_id r]} ∪ {[right_method_id r]}))
      by apply lookup_insert_eq.
    by rewrite !insert_insert_eq.
Qed.

(** On the store, [nextPair] returns what [App.nextPair] returns on the
    contents of its two arrays, and leaves every object of the store as it
    is: what it writes, it writes to objects it has made. *)
Lemma nextPair_store pid comp m h ms hs σ :
  σ !! m = Some (Strings ms) ->
  σ !! h = Some (Votes hs) ->
  match AppStore.nextPair pid comp m h σ with
  | Some (r, σ') => r = App.nextPair pid comp ms hs ∧ σ ⊆ σ'
  | None => False
  end.
Proof.
  intros Hm Hh. unfold AppStore.nextPair, App.nextPair.
  destruct (String.eqb pid ""); cbn [orb]; [done|].
  unfold bind at 1, readStrings at 1. rewrite Hm.
  destruct (length ms <? 2)%nat; [done|].
  unfold bind at 1, readVotes at 1. rewrite Hh.
  unfold bind at 1.
  destruct (alloc_fresh (Votes (filter (fun r => matches pid comp r) hs)) σ)
    as [-> Hrows].
  set (rows := fresh (dom σ)) in *.
  unfold bind at 1, readVotes at 1. rewrite lookup_insert_eq.
  unfold bind at 1, write at 1. rewrite insert_insert_eq.
  unfold bind at 1, readVotes at 1. rewrite lookup_insert_eq.
  set (rs := sortByTrial (filter (fun r => matches pid comp r) hs)).
  set (σ1 := <[rows := Votes rs]> σ).
  assert (σ ⊆ σ1) as Hσ1 by by apply insert_subseteq.
  assert (σ1 !! m = Some (Strings ms)) as Hm1
    by by eapply lookup_weaken.
  destruct (last rs) as [lastRow|].
  - unfold bind at 1.
    destruct (alloc_fresh (StringSet ∅) σ1) as [-> Hap].
    set (ap := fresh (dom σ1)) in *.
    unfold bind at 1.
    rewrite (addAppeared_store ap rs ∅) by apply lookup_insert_eq.
    rewrite insert_insert_eq. fold (appearedOf rs).
    set (σ2 := <[ap := StringSet (appearedOf rs)]> σ1).
    assert (σ1 ⊆ σ2) as Hσ2 by by apply insert_subseteq.
    assert (σ2 !! ap = Some (StringSet (appearedOf rs))) as Hap2
      by apply lookup_insert_eq.
    unfold bind at 1, readSet at 1. rewrite Hap2.
    unfold bind at 1, readStrings at 1.
    rewrite (lookup_weaken _ _ _ _ Hm1 Hσ2).
    unfold bind at 1.
    set (us := filter _ ms).
    destruct (alloc_fresh (Strings us) σ2) as [-> Hun].
    set (un := fresh (dom σ2)) in *.
    set (σ3 := <[un := Strings us]> σ2).
    assert (σ2 ⊆ σ3) as Hσ3 by by apply insert_subseteq.
    assert (σ3 !! un = Some (Strings us)) as Hun3 by apply lookup_insert_eq.
    unfold bind at 1, readStrings at 1. rewrite Hun3.
    destruct (length us =? 0)%nat.
    { split; [done|]. by repeat (etrans; [eassumption|]). }
    unfold bind at 1, readSet at 1.
    rewrite (lookup_weaken σ2 σ3 ap (StringSet (appearedOf rs))) by done.
    unfold bind at 1, AppStore.mulberry32.
    match goal with
    | |- context [alloc ?o σ3] => destruct (alloc_fresh o σ3) as [-> Hg]
    end.
    set (g := fresh (dom σ3)) in *.
    unfold bind at 1.
    erewrite rnd_store by apply lookup_insert_eq.
    rewrite insert_insert_eq.
    unfold bind at 1, readStrings at 1.
    assert (g ≠ un) as Hne by congruence.
    rewrite lookup_insert_ne by done. rewrite Hun3. unfold ret.
    split.
    + by destruct (App.mulberry32 _).
    + etrans; [exact Hσ1|]. etrans; [exact Hσ2|]. etrans; [exact Hσ3|].
      by apply insert_subseteq.
  - unfold bind at 1.
    pose proof (stableShuffle_store m ms (pid +:+ "::" +:+ comp) σ1 Hm1)
      as Hshuffle.
    destruct (AppStore.stableShuffle m _ σ1) as [[a σ2]|]; [|done].
    destruct Hshuffle as [Ha Hσ2].
    unfold bind, readStrings. rewrite Ha. unfold ret.
    split; [done|]. by etrans.
Qed.

End StoreFacts.

(** C6.  The selection is deterministic.  Two calls of [nextPair] with
    equal participant id, component, method list and history return equal
    results: run on any two stores that hold that method list and that
    history, whatever else they hold, and again on the store that a call
    leaves, [nextPair] returns the same result, the value of
    [App.nextPair]; each call leaves the objects of its store as they
    were, the variable of each generator being new.  And the first pair,
    which comes from the stable shuffle, depends on the participant id and
    the component only through the seed string [pid::component] built from
    them: two calls without prior votes whose seed strings are equal
    return the same pair of the same method list. *)
Theorem nextPair_deterministic
  (pid comp : string) (methodIds : list string) (history : list App.Vote)
  (σ1 σ2 : gmap nat AppStore.obj) (m1 h1 m2 h2 : nat) :
  σ1 !! m1 = Some (AppStore.Strings methodIds) ->
  σ1 !! h1 = Some (AppStore.Votes history) ->
  σ2 !! m2 = Some (AppStore.Strings methodIds) ->
  σ2 !! h2 = Some (AppStore.Votes history) ->
  (∃ r σ1' σ2' σ1'',
     AppStore.nextPair pid comp m1 h1 σ1 = Some (r, σ1') ∧
     AppStore.nextPair pid comp m2 h2 σ2 = Some (r, σ2') ∧
     AppStore.nextPair pid comp m1 h1 σ1' = Some (r, σ1'') ∧
     σ1 ⊆ σ1' ∧ σ2 ⊆ σ2' ∧ σ1' ⊆ σ1'' ∧
     r = App.nextPair pid comp methodIds history)
  ∧
  (∀ pid' comp' history' h',
     σ2 !! h' = Some (AppStore.Votes history') ->
     pid ≠ "" -> pid' ≠ "" ->
     AppSpec.priorVotes pid comp history = [] ->
     AppSpec.priorVotes pid' comp' history' = [] ->
     pid +:+ "::" +:+ comp = pid' +:+ "::" +:+ comp' ->
     ∃ r σ1' σ2',
       AppStore.nextPair pid comp m1 h1 σ1 = Some (r, σ1') ∧
       AppStore.nextPair pid' comp' m2 h' σ2 = Some (r, σ2')).
Proof.
  intros Hm1 Hh1 Hm2 Hh2.
  pose proof (nextPair_store pid comp m1 h1 methodIds history σ1 Hm1 Hh1)
    as Hrun1.
  destruct (AppStore.nextPair pid comp m1 h1 σ1) as [[r1 σ1']|] eqn:Hcall1;
    [|done].
  destruct Hrun1 as [-> Hσ1]. split.
  - pose proof (nextPair_store pid comp m2 h2 methodIds history σ2 Hm2 Hh2)
      as Hrun2.
    destruct (AppStore.nextPair pid comp m2 h2 σ2) as [[r2 σ2']|]; [|done].
    destruct Hrun2 as [-> Hσ2].
    pose proof (nextPair_store pid comp m1 h1 methodIds history σ1'
                  (lookup_weaken _ _ _ _ Hm1 Hσ1)
                  (lookup_weaken _ _ _ _ Hh1 Hσ1)) as Hrun3.
    destruct (AppStore.nextPair pid comp m1 h1 σ1') as [[r3 σ1'']|] eqn:Hcall3;
      [|done].
    destruct Hrun3 as [-> Hσ3].
    eexists _, _, _, _. split_and!; done.
  - intros pid' comp' history' h' Hh' Hp Hp' Hr Hr' Hseed.
    pose proof (nextPair_store pid' comp' m2 h' methodIds history' σ2 Hm2 Hh')
      as Hrun2.
    destruct (AppStore.nextPair pid' comp' m2 h' σ2) as [[r2 σ2']|]; [|done].
    destruct Hrun2 as [-> Hσ2].
    eexists _, _, _. split; [done|]. do 2 f_equal.
    unfold App.nextPair.
    rewrite (priorVotes_code pid comp history).
    rewrite (priorVotes_code pid' comp' history').
    rewrite Hr, Hr', Hseed. cbn [App.sortByTrial foldr last].
    destruct pid; [done|]. destruct pid'; [done|]. done.
Qed.

Lemma nextPair_deterministic_witness :
  let σ1 : gmap nat AppStore.obj :=
    {[ 0%nat := AppStore.Strings ["m1"; "m2"; "m3"];
       1%nat := AppStore.Votes [] ]} in
  let σ2 : gmap nat AppStore.obj :=
    {[ 4%nat := AppStore.Seed 42;
       5%nat := AppStore.Votes [];
       7%nat := AppStore.Strings ["m1"; "m2"; "m3"] ]} in
  ∃ r σ1' σ2',
    AppStore.nextPair "a::b" "c" 0 1 σ1 = Some (r, σ1') ∧
    AppStore.nextPair "a" "b::c" 7 5 σ2 = Some (r, σ2').
Proof.
  intros σ1 σ2.
  refine (proj2 (nextPair_deterministic "a::b" "c" ["m1"; "m2"; "m3"] []
                   σ1 σ2 0 1 7 5 _ _ _ _) "a" "b::c" [] 5%nat _ _ _ _ _ _);
    [reflexivity|reflexivity|reflexivity|reflexivity|reflexivity
    |discriminate|discriminate|reflexivity|reflexivity|reflexivity].
Defined.

(** * Properties of the base64 codec *)

Section B64Facts.
Import JS B64Spec.

(** Induction on a string three characters at a time. *)
Lemma string_by_three (P : string -> Prop) :
  P EmptyString ->
  (∀ a, P (String a EmptyString)) ->
  (∀ a b, P (String a (String b EmptyString))) ->
  (∀ a b c s, P s -> P (String a (String b (String c s)))) ->
  ∀ s, P s.
Proof.
  intros H0 H1 H2 H3.
  refine (fix go s := _).
  destruct s as [|a [|b [|c s]]]; [apply H0|apply H1|apply H2|].
  apply H3, go.
Qed.

(** A property checked on the 64 groups holds of every group. *)
Lemma sextet_forall (p : N -> bool) :
  forallb p (N.of_nat <$> seq 0 64) = true ->
  ∀ n, (n < 64)%N -> p n = true.
Proof.
  intros Hall n Hn. rewrite forallb_forall in Hall. apply Hall.
  apply in_map_iff. exists (N.to_nat n). split; [lia|].
  apply in_seq. lia.
Qed.

Lemma b64index_b64char n : (n < 64)%N -> b64index (b64char n) = Some n.
Proof.
  intros Hn.
  pose proof (sextet_forall
    (fun n => bool_decide (b64index (b64char n) = Some n))) as Hall.
  specialize (Hall ltac:(by vm_compute) n Hn). cbn beta in Hall.
  by apply bool_decide_eq_true_1 in Hall.
Qed.

(** The characters of the alphabet are not [=], white space, [-] or [_],
    and the two replacements of [base64UrlEncode] are undone by those of
    [fromB64Json]. *)
Lemma b64char_facts n :
  (n < 64)%N ->
  Ascii.eqb (b64char n) "="%char = false ∧
  Ascii.eqb (urlChar (b64char n)) "="%char = false ∧
  isB64White (b64char n) = false ∧
  unurlChar (urlChar (b64char n)) = b64char n.
Proof.
  intros Hn.
  pose proof (sextet_forall
    (fun n => negb (Ascii.eqb (b64char n) "="%char)
              && negb (Ascii.eqb (urlChar (b64char n)) "="%char)
              && negb (isB64White (b64char n))
              && bool_decide (unurlChar (urlChar (b64char n)) = b64char n)))
    as Hall.
  specialize (Hall ltac:(by vm_compute) n Hn). cbn beta in Hall.
  apply andb_true_iff in Hall as [Hall H4].
  apply andb_true_iff in Hall as [Hall H3].
  apply andb_true_iff in Hall as [H1 H2].
  apply bool_decide_eq_true_1 in H4.
  apply negb_true_iff in H1, H2, H3. done.
Qed.

Lemma N_of_ascii_lt a : (N_of_ascii a < 256)%N.
Proof. apply N_ascii_bounded. Qed.

Ltac byte_arith :=
  repeat match goal with
    | a : ascii |- _ =>
        lazymatch goal with
        | H : (N_of_ascii a < 256)%N |- _ => fail
        | _ => pose proof (N_of_ascii_lt a)
        end
    end;
  zify; Z.to_euclidean_division_equations; lia.

Lemma sextetsOf_range s : Forall (fun n => (n < 64)%N) (sextetsOf s).
Proof.
  induction s as [|a|a b|a b c s IH] using string_by_three; cbn [sextetsOf].
  - apply Forall_nil_2.
  - repeat (apply Forall_cons_2; [byte_arith|]). apply Forall_nil_2.
  - repeat (apply Forall_cons_2; [byte_arith|]). apply Forall_nil_2.
  - repeat (apply Forall_cons_2; [byte_arith|]). done.
Qed.

Lemma ascii_of_N_eq a n : n = N_of_ascii a -> ascii_of_N n = a.
Proof. intros ->. apply ascii_N_embedding. Qed.

Lemma decodeSextets_sextetsOf s : decodeSextets (sextetsOf s) = s.
Proof.
  induction s as [|a|a b|a b c s IH] using string_by_three;
    cbn [sextetsOf decodeSextets]; [done|..].
  - f_equal. apply ascii_of_N_eq. byte_arith.
  - f_equal; [|f_equal].
    + apply ascii_of_N_eq. byte_arith.
    + apply ascii_of_N_eq. byte_arith.
  - rewrite IH. f_equal; [|f_equal; [|f_equal]].
    + apply ascii_of_N_eq. byte_arith.
    + apply ascii_of_N_eq. byte_arith.
    + apply ascii_of_N_eq. byte_arith.
Qed.

Lemma sextets_charsOf l :
  Forall (fun n => (n < 64)%N) l -> sextets (charsOf l) = Some l.
Proof.
  induction 1 as [|n l Hn _ IH]; [done|]. cbn [charsOf sextets].
  rewrite b64index_b64char by done. cbn [mbind option_bind].
  by rewrite IH.
Qed.

Lemma padOf_step a b c s :
  padOf (String a (String b (String c s))) = padOf s.
Proof.
  unfold padOf. cbn [String.length].
  replace (S (S (S (String.length s)))) with (String.length s + 1 * 3)%nat
    by lia.
  by rewrite Nat.Div0.mod_add.
Qed.

Lemma btoa_charsOf s : btoa s = charsOf (sextetsOf s) +:+ padOf s.
Proof.
  induction s as [|a|a b|a b c s IH] using string_by_three; [done..|].
  rewrite padOf_step. cbn [btoa sextetsOf charsOf]. by rewrite IH.
Qed.

(** *** Plumbing on strings *)

Lemma append_cons c s t : String c s +:+ t = String c (s +:+ t).
Proof. done. Qed.

Lemma append_nil t : "" +:+ t = t.
Proof. done. Qed.

Lemma length_mapChars f s : String.length (mapChars f s) = String.length s.
Proof. induction s as [|c s IH]; cbn; [done|]. by rewrite IH. Qed.

Lemma replaceAll_url s :
  replaceAll "/"%char "_"%char (replaceAll "+"%char "-"%char s)
  = mapChars urlChar s.
Proof.
  unfold replaceAll. induction s as [|c s IH]; cbn [mapChars]; [done|].
  by rewrite IH.
Qed.

Lemma replaceAll_unurl s :
  replaceAll "_"%char "/"%char (replaceAll "-"%char "+"%char s)
  = mapChars unurlChar s.
Proof.
  unfold replaceAll. induction s as [|c s IH]; cbn [mapChars]; [done|].
  by rewrite IH.
Qed.

Lemma length_charsOf l : String.length (charsOf l) = length l.
Proof. induction l as [|n l IH]; cbn; [done|]. by rewrite IH. Qed.

Lemma padOf_cases s : isPad (padOf s).
Proof.
  unfold padOf, isPad. destruct (_ mod 3)%nat as [|[|]]; auto.
Qed.

(** *** The encoder, character by character *)

Lemma url_charsOf_pad l pad :
  isPad pad ->
  mapChars urlChar (charsOf l +:+ pad) = mapChars urlChar (charsOf l) +:+ pad.
Proof.
  intros Hpad. induction l as [|n l' IH]; cbn [charsOf].
  - rewrite !append_nil. by destruct Hpad as [->|[->| ->]].
  - rewrite !append_cons. cbn [mapChars]. by rewrite IH, append_cons.
Qed.

Lemma strip_url_charsOf_pad l pad :
  Forall (fun n => (n < 64)%N) l ->
  isPad pad ->
  stripTrailingEquals (mapChars urlChar (charsOf l) +:+ pad)
  = mapChars urlChar (charsOf l).
Proof.
  intros Hl Hpad. induction Hl as [|n l' Hn _ IH]; cbn [charsOf mapChars].
  - rewrite append_nil. by destruct Hpad as [->|[->| ->]].
  - rewrite append_cons. cbn [stripTrailingEquals].
    destruct (b64char_facts n Hn) as (_ & -> & _ & _).
    cbn [andb]. by rewrite IH.
Qed.

Lemma unurl_url_charsOf l :
  Forall (fun n => (n < 64)%N) l ->
  mapChars unurlChar (mapChars urlChar (charsOf l)) = charsOf l.
Proof.
  intros Hl. induction Hl as [|n l' Hn _ IH]; cbn [charsOf mapChars]; [done|].
  destruct (b64char_facts n Hn) as (_ & _ & _ & ->). by rewrite IH.
Qed.

Lemma removeWhite_charsOf_pad l pad :
  Forall (fun n => (n < 64)%N) l ->
  isPad pad ->
  removeWhite (charsOf l +:+ pad) = charsOf l +:+ pad.
Proof.
  intros Hl Hpad. induction Hl as [|n l' Hn _ IH]; cbn [charsOf].
  - rewrite append_nil. by destruct Hpad as [->|[->| ->]].
  - rewrite append_cons. cbn [removeWhite].
    destruct (b64char_facts n Hn) as (_ & _ & -> & _). by rewrite IH.
Qed.

Lemma dropEquals_charsOf_pad l pad :
  Forall (fun n => (n < 64)%N) l ->
  isPad pad -> dropEquals (charsOf l +:+ pad) = charsOf l.
Proof.
  intros Hl Hpad. induction Hl as [|n l' Hn _ IH]; cbn [charsOf].
  - rewrite append_nil. by destruct Hpad as [->|[->| ->]].
  - rewrite append_cons. cbn [dropEquals].
    destruct (b64char_facts n Hn) as (-> & _ & _ & _).
    cbn [andb]. by rewrite IH.
Qed.


(** *** Lengths and padding *)

Lemma length_append s t :
  String.length (s +:+ t) = (String.length s + String.length t)%nat.
Proof. induction s as [|c s IH]; [done|]. rewrite append_cons. cbn. by rewrite IH. Qed.

(** The number of characters modulo 4 and the padding go together. *)
Lemma core_pad_shape s :
  ((length (sextetsOf s) mod 4)%nat = 0%nat ∧ padOf s = "") ∨
  ((length (sextetsOf s) mod 4)%nat = 2%nat ∧ padOf s = "==") ∨
  ((length (sextetsOf s) mod 4)%nat = 3%nat ∧ padOf s = "=").
Proof.
  induction s as [|a|a b|a b c s IH] using string_by_three; [auto..|].
  rewrite padOf_step. cbn [sextetsOf length].
  replace (S (S (S (S (length (sextetsOf s))))))
    with (length (sextetsOf s) + 1 * 4)%nat by lia.
  by rewrite Nat.Div0.mod_add.
Qed.

(** *** Round trip *)

Lemma base64UrlEncode_chars s :
  Worker.base64UrlEncode s = mapChars urlChar (charsOf (sextetsOf s)).
Proof.
  unfold Worker.base64UrlEncode.
  rewrite btoa_charsOf, replaceAll_url.
  rewrite url_charsOf_pad by apply padOf_cases.
  apply strip_url_charsOf_pad; [apply sextetsOf_range|apply padOf_cases].
Qed.

Lemma atob_btoa_chars s : atob (charsOf (sextetsOf s) +:+ padOf s) = Ok s.
Proof.
  pose proof (sextetsOf_range s) as Hl.
  pose proof (padOf_cases s) as Hpad.
  unfold atob.
  rewrite removeWhite_charsOf_pad by done.
  assert (dropPadding (charsOf (sextetsOf s) +:+ padOf s)
          = charsOf (sextetsOf s)) as ->.
  { unfold dropPadding. rewrite length_append, length_charsOf.
    rewrite dropEquals_charsOf_pad by done.
    rewrite Nat.Div0.add_mod.
    by destruct (core_pad_shape s) as [[-> ->]|[[-> ->]|[-> ->]]]. }
  rewrite length_charsOf.
  destruct (Nat.eqb_spec (length (sextetsOf s) mod 4) 1) as [Hone|_].
  { destruct (core_pad_shape s) as [[? _]|[[? _]|[? _]]]; lia. }
  rewrite sextets_charsOf by done.
  by rewrite decodeSextets_sextetsOf.
Qed.

(** What [fromB64Json] hands to [atob] for an encoded byte string is the
    padded standard encoding, and decodes to the bytes. *)
Lemma atob_base64UrlEncode s :
  atob (replaceAll "_"%char "/"%char
          (replaceAll "-"%char "+"%char (Worker.base64UrlEncode s))
        +:+ slice ((String.length (Worker.base64UrlEncode s) + 3) mod 4) "===")
  = Ok s.
Proof.
  rewrite base64UrlEncode_chars, replaceAll_unurl.
  rewrite unurl_url_charsOf by apply sextetsOf_range.
  rewrite length_mapChars, length_charsOf.
  transitivity (atob (charsOf (sextetsOf s) +:+ padOf s));
    [|apply atob_btoa_chars].
  do 2 f_equal.
  rewrite Nat.Div0.add_mod.
  by destruct (core_pad_shape s) as [[-> ->]|[[-> ->]|[-> ->]]].
Qed.

(** *** Shape of an encoding *)

Lemma urlChar_notDot n : (n < 64)%N -> notDot (urlChar (b64char n)) = true.
Proof.
  intros Hn.
  by apply (sextet_forall (fun n => notDot (urlChar (b64char n)))).
Qed.

Lemma base64UrlEncode_notDot s :
  allChars notDot (Worker.base64UrlEncode s) = true.
Proof.
  rewrite base64UrlEncode_chars.
  induction (sextetsOf_range s) as [|n l Hn _ IH]; [done|].
  cbn [charsOf mapChars allChars]. by rewrite urlChar_notDot, IH.
Qed.

Lemma base64UrlEncode_nonempty s :
  s ≠ "" -> isEmpty (Worker.base64UrlEncode s) = false.
Proof.
  intros Hs. rewrite base64UrlEncode_chars.
  by destruct s as [|a [|b [|c s]]].
Qed.

Lemma split_no_separator s :
  allChars notDot s = true -> split "."%char s = [s].
Proof.
  induction s as [|c s IH]; [done|]. cbn [allChars split].
  intros [Hc Hs]%andb_true_iff. rewrite (IH Hs).
  unfold notDot in Hc. apply negb_true_iff in Hc. by rewrite Hc.
Qed.

Lemma split_two s t :
  allChars notDot s = true -> allChars notDot t = true ->
  split "."%char (s +:+ "." +:+ t) = [s; t].
Proof.
  intros Hs Ht. induction s as [|c s IH].
  - rewrite append_nil. change ("." +:+ t) with (String "."%char t).
    cbn [split]. by rewrite Ascii.eqb_refl, split_no_separator.
  - cbn [allChars] in Hs. apply andb_true_iff in Hs as [Hc Hs].
    rewrite append_cons. cbn [split]. rewrite (IH Hs).
    unfold notDot in Hc. apply negb_true_iff in Hc. by rewrite Hc.
Qed.

End B64Facts.

(** * Properties of the worker *)

Section TokenFacts.
Import JS B64Spec Worker.
Context `{Runtime}.

Lemma fromB64Json_b64Json payload :
  JSON_parse (JSON_stringify payload) = Some payload ->
  fromB64Json (b64Json payload) = Ok payload.
Proof.
  intros Hparse. unfold fromB64Json, b64Json.
  rewrite atob_base64UrlEncode. cbn. by rewrite Hparse.
Qed.

(** [hmacSign] throws exactly for the empty secret. *)
Lemma hmacSign_Ok secret data :
  secret ≠ "" ->
  hmacSign secret data = Ok (base64UrlEncode (hmacSha256 secret data)).
Proof. unfold hmacSign. by destruct secret. Qed.

Lemma hmacSign_inv secret data sig :
  hmacSign secret data = Ok sig ->
  secret ≠ "" ∧ sig = base64UrlEncode (hmacSha256 secret data).
Proof. unfold hmacSign. destruct secret; [done|]. by intros [= <-]. Qed.

Lemma hmacSign_empty data :
  hmacSign "" data = Throw (DataError zeroKeyMessage).
Proof. done. Qed.

Lemma makeToken_Ok env payload :
  TOKEN_SECRET env ≠ "" ->
  makeToken env payload
  = Ok (b64Json payload +:+ "." +:+
        base64UrlEncode (hmacSha256 (TOKEN_SECRET env) (b64Json payload))).
Proof. intros Hsecret. unfold makeToken. by rewrite hmacSign_Ok. Qed.

Lemma makeToken_inv env payload token :
  makeToken env payload = Ok token ->
  TOKEN_SECRET env ≠ "" ∧
  token = b64Json payload +:+ "." +:+
          base64UrlEncode (hmacSha256 (TOKEN_SECRET env) (b64Json payload)).
Proof.
  unfold makeToken, hmacSign. destruct (TOKEN_SECRET env); [done|].
  by intros [= <-].
Qed.

(** A token made by [makeToken] passes the format and signature checks of
    [verifyToken], which is left with the expiry check on the payload. *)
Lemma verifyToken_makeToken env now payload token :
  makeToken env payload = Ok token ->
  JSON_stringify payload ≠ "" ->
  hmacSha256 (TOKEN_SECRET env) (b64Json payload) ≠ "" ->
  JSON_parse (JSON_stringify payload) = Some payload ->
  verifyToken env now token
  = (exp ← get payload "exp";
     if truthy exp && gtNum now (ToNumber exp) then Throw (Error "Token expired")
     else Ok payload).
Proof.
  intros [Hsecret ->]%makeToken_inv Hstr Hmac Hparse. unfold verifyToken.
  rewrite split_two by apply base64UrlEncode_notDot.
  cbn [lookup list_lookup falsyStr default].
  assert (isEmpty (b64Json payload) = false) as ->
    by by apply base64UrlEncode_nonempty.
  rewrite base64UrlEncode_nonempty by done.
  cbn [orb]. unfold Datatypes.id. rewrite hmacSign_Ok by done.
  cbn [mbind result_bind]. rewrite String.eqb_refl. cbn [negb].
  by rewrite fromB64Json_b64Json.
Qed.

End TokenFacts.

Section FetchFacts.
Import JS Worker WorkerSpec.
Context `{Runtime}.

Lemma checkExpiry_Some origin now doc r :
  checkExpiry origin now doc = Some r ->
  (r = errorResponse 500 origin "Bad expires_at format in DB" ∧
   ∃ e, expires_at doc = Some e ∧ e ≠ "" ∧ Date_parse e = None) ∨
  (r = errorResponse 403 origin "Code expired" ∧
   ∃ e expMs, expires_at doc = Some e ∧ e ≠ "" ∧
     Date_parse e = Some expMs ∧ expMs < now).
Proof.
  unfold checkExpiry. intros Hr.
  destruct (expires_at doc) as [e|]; [|done].
  destruct e as [|c e]; [done|]. cbn [isEmpty] in Hr.
  destruct (Date_parse _) as [expMs|] eqn:Hparse.
  - destruct (Z.gtb_spec now expMs); [|done].
    right. split; [congruence|]. by exists (String c e), expMs.
  - left. split; [congruence|]. by exists (String c e).
Qed.


Lemma fetch_outcome env now req db :
  fetchOutcome (originOf req) db (fetch env now req db).
Proof.
  unfold fetch, fetch_start, fetch_vote. fold (originOf req).
  repeat case_match; simplify_eq;
    try (by constructor);
    try (by apply outcome_error; unfold errorStatuses; set_solver).
  all: try (apply outcome_started; eauto).
  all: try (by apply outcome_threw_after_decrement).
  all: match goal with
       | Hc : checkExpiry _ _ _ = Some _ |- _ =>
           apply checkExpiry_Some in Hc as [[-> _]|[-> _]];
           apply outcome_error; unfold errorStatuses; set_solver
       end.
Qed.

(** C7.  Every response of the handler other than a 200 success and the
    204 preflight has a body of the shape [{error: string}] and a status
    among 400, 403, 404, 405 and 500. *)
Theorem error_responses_shape env now req db resp db' :
  fetch env now req db = (Ok resp, db') ->
  status resp ≠ 200 ->
  status resp ≠ 204 ->
  isErrorBody resp ∧ status resp ∈ errorStatuses.
Proof.
  intros Hfetch H200 H204.
  pose proof (fetch_outcome env now req db) as Hout.
  rewrite Hfetch in Hout. inversion Hout; subst; try done.
  split; [by eexists|done].
Qed.

Lemma originAllowed_false env origin :
  origin = "" ∨ origin ∉ allowedList env -> originAllowed env origin = false.
Proof.
  unfold originAllowed. intros [->|Hnot]; [done|].
  rewrite bool_decide_eq_false_2 by done. apply andb_false_r.
Qed.

Lemma allowedList_empty env : ALLOWED_ORIGINS env = "" -> allowedList env = [].
Proof. unfold allowedList. by intros ->. Qed.

(** C8.  The allow-list gates every request that is not a preflight: when
    the [Origin] header is missing, empty, or not in the trimmed
    comma-separated [ALLOWED_ORIGINS] list (in particular when
    [ALLOWED_ORIGINS] is empty), the response is 403 with
    [{error: "Origin not allowed"}], whatever the method, path and body,
    and the database is as before. *)
Theorem origin_not_allowed_rejected env now req db :
  method req ≠ "OPTIONS" ->
  (origin_header req = None ∨
   origin_header req = Some "" ∨
   (∃ o, origin_header req = Some o ∧ o ∉ allowedList env) ∨
   ALLOWED_ORIGINS env = "") ->
  fetch env now req db
  = (Ok (errorResponse 403 (originOf req) "Origin not allowed"), db).
Proof.
  intros Hmethod Horigin. unfold fetch. fold (originOf req).
  apply String.eqb_neq in Hmethod. rewrite Hmethod.
  rewrite originAllowed_false; [done|].
  unfold originOf.
  destruct Horigin as [->|[->|[(o & -> & Ho)|Hempty]]]; [by left..|by right|].
  right. rewrite (allowedList_empty env Hempty). apply not_elem_of_nil.
Qed.

(** Rows of [access_codes] keep their place and their [code_hash]; the
    only change is a decrement of a positive [uses_remaining]. *)
Lemma decrementRow_usesNotNegative codeHash r :
  usesNotNegative r ->
  usesNotNegative (decrementRow codeHash r) ∧
  code_hash (decrementRow codeHash r) = code_hash r.
Proof.
  unfold usesNotNegative, decrementRow.
  destruct (uses_remaining r) as [n|] eqn:Huses; [|by rewrite Huses].
  destruct (String.eqb _ _ && (n >? 0)) eqn:Hcond; [|by rewrite Huses].
  apply andb_true_iff in Hcond as [_ Hn]. intros _. split; [cbn; lia|done].
Qed.

Lemma fetch_row env now req db i r :
  access_codes db !! i = Some r ->
  access_codes (fetch env now req db).2 !! i = Some r ∨
  ∃ codeHash,
    access_codes (fetch env now req db).2 !! i = Some (decrementRow codeHash r).
Proof.
  intros Hrow.
  destruct (fetch_outcome env now req db)
    as [hdrs|st msg Hst|token db' Hdb|row|e|e codeHash]; cbn [snd].
  - by left.
  - by left.
  - destruct Hdb as [->|[codeHash ->]]; [by left|].
    right. exists codeHash. cbn. by rewrite list_lookup_fmap, Hrow.
  - by left.
  - by left.
  - right. exists codeHash. cbn. by rewrite list_lookup_fmap, Hrow.
Qed.

(** C9.  [uses_remaining] never becomes negative: a row of [access_codes]
    whose [uses_remaining] is null or not negative is, after any sequence
    of requests, still at its place with the same [code_hash] and a
    [uses_remaining] that is null or not negative; and so it is after
    [dbDecrementUsesRemaining] alone, for any code hash. *)
Theorem uses_remaining_never_negative env reqs db i r :
  access_codes db !! i = Some r ->
  usesNotNegative r ->
  (∃ r', access_codes (serve env reqs db) !! i = Some r' ∧
         usesNotNegative r' ∧ code_hash r' = code_hash r)
  ∧
  (∀ codeHash,
     ∃ r', access_codes (dbDecrementUsesRemaining db codeHash) !! i = Some r' ∧
           usesNotNegative r' ∧ code_hash r' = code_hash r).
Proof.
  intros Hrow Hok. split.
  - revert db r Hrow Hok. unfold serve.
    induction reqs as [|[now req] reqs IH]; intros db r Hrow Hok; cbn [foldl].
    { by exists r. }
    cbn [fst snd].
    destruct (fetch_row env now req db i r Hrow) as [Hsame|[codeHash Hdec]].
    + by apply IH.
    + destruct (decrementRow_usesNotNegative codeHash r Hok) as [Hok' Hhash].
      destruct (IH _ _ Hdec Hok') as (r' & Hr' & Hokr' & Hhash').
      exists r'. split_and!; [done..|congruence].
  - intros codeHash. exists (decrementRow codeHash r).
    cbn. rewrite list_lookup_fmap, Hrow.
    by destruct (decrementRow_usesNotNegative codeHash r Hok).
Qed.

(** *** Votes *)

Lemma endsWith_vote_not_start path :
  endsWith path "/api/vote" = true -> endsWith path "/api/start" = false.
Proof.
  unfold endsWith.
  change (String.rev "/api/vote") with "etov/ipa/".
  change (String.rev "/api/start") with "trats/ipa/".
  destruct (String.rev path) as [|c r]; [done|]. cbn [String.prefix].
  destruct (ascii_dec "e" c) as [<-|]; [done|]. discriminate.
Qed.

(** A 200 response outside [/api/start] is a stored vote: the row built
    from the vote of the body has been upserted. *)
Lemma fetch_vote_stored env now req db resp db' :
  fetch env now req db = (Ok resp, db') ->
  status resp = 200 ->
  endsWith (pathname req) "/api/start" = false ->
  ∃ vote preferred,
    field (default (JObj []) (json req)) "vote" = Some vote ∧
    normalizePreferred (ToString (field vote "preferred")) = Ok preferred ∧
    db' = dbUpsertVote db (voteRow now vote preferred).
Proof.
  unfold fetch, fetch_vote, get. intros Hfetch Hst Hstart. rewrite Hstart in Hfetch.
  repeat case_match; simplify_eq; try done.
  all: eauto.
Qed.

(** C4.  Upsert by composite key.  The identifier of the row built from a
    vote is [participant_id__component__trial_id]; [dbUpsertVote] done a
    second time with the same row leaves the store as after the first;
    with a row of the same identifier it overwrites the row without adding
    one; and a successful [POST /api/vote] changes the store by exactly
    that upsert. *)
Theorem vote_upsert_by_composite_key :
  (∀ now vote preferred,
     id (voteRow now vote preferred)
     = ToString (field vote "participant_id") +:+ "__" +:+
       ToString (field vote "component") +:+ "__" +:+
       numToString (ToNumber (field vote "trial_id")))
  ∧
  (∀ db row, dbUpsertVote (dbUpsertVote db row) row = dbUpsertVote db row)
  ∧
  (∀ db row1 row2,
     id row1 = id row2 ->
     dbUpsertVote (dbUpsertVote db row1) row2 = dbUpsertVote db row2 ∧
     votes (dbUpsertVote (dbUpsertVote db row1) row2) !! id row2
       = Some (boundRow row2) ∧
     dom (votes (dbUpsertVote (dbUpsertVote db row1) row2))
       = dom (votes (dbUpsertVote db row1)) ∧
     size (votes (dbUpsertVote (dbUpsertVote db row1) row2))
       = size (votes (dbUpsertVote db row1)))
  ∧
  (∀ env now req db resp db',
     fetch env now req db = (Ok resp, db') ->
     status resp = 200 ->
     endsWith (pathname req) "/api/vote" = true ->
     ∃ vote preferred,
       field (default (JObj []) (json req)) "vote" = Some vote ∧
       normalizePreferred (ToString (field vote "preferred")) = Ok preferred ∧
       db' = dbUpsertVote db (voteRow now vote preferred)).
Proof.
  split_and!.
  - done.
  - intros db row. unfold dbUpsertVote. cbn. by rewrite insert_insert_eq.
  - intros db row1 row2 Hid.
    assert (dbUpsertVote (dbUpsertVote db row1) row2 = dbUpsertVote db row2)
      as Hover.
    { unfold dbUpsertVote. cbn. by rewrite Hid, insert_insert_eq. }
    assert (dom (votes (dbUpsertVote (dbUpsertVote db row1) row2))
            = dom (votes (dbUpsertVote db row1))) as Hdom.
    { rewrite Hover. cbn. by rewrite !dom_insert_L, Hid. }
    split_and!; [done| |done|].
    + cbn. apply lookup_insert_eq.
    + by rewrite <- !size_dom, Hdom.
  - intros env now req db resp db' Hfetch Hst Hpath.
    eapply fetch_vote_stored; [done..|].
    by apply endsWith_vote_not_start.
Qed.

(** *** Access codes *)

Lemma dbGetAccessCode_Some db codeHash row :
  dbGetAccessCode db codeHash = Some row ->
  row ∈ access_codes db ∧ code_hash row = codeHash.
Proof.
  unfold dbGetAccessCode. intros [Hin Heq]%find_some.
  split; [by apply list_elem_of_In|by apply String.eqb_eq].
Qed.



(** *** Tokens *)

(** C2 (amended).  Token round trip: for every payload other than [null]
    that survives [JSON.stringify] and [JSON.parse], and every secret that
    is not empty, [makeToken] returns a token, and [verifyToken] with the
    same secret on that token throws nothing and returns the payload,
    provided the [exp] field of the payload is absent or a number not
    earlier than the current time.  (The text of a JSON value and a MAC
    are not empty.) *)
Theorem verifyToken_makeToken_roundtrip env now payload :
  TOKEN_SECRET env ≠ "" ->
  payload ≠ JNull ->
  JSON_parse (JSON_stringify payload) = Some payload ->
  JSON_stringify payload ≠ "" ->
  hmacSha256 (TOKEN_SECRET env) (b64Json payload) ≠ "" ->
  (field payload "exp" = None ∨
   ∃ n, field payload "exp" = Some (JNum n) ∧ now <= n) ->
  ∃ token,
    makeToken env payload = Ok token ∧
    verifyToken env now token = Ok payload.
Proof.
  intros Hsecret Hnull Hparse Hstr Hmac Hexp.
  eexists. split; [by apply makeToken_Ok|].
  rewrite (verifyToken_makeToken env now payload)
    by (by try apply makeToken_Ok).
  assert (get payload "exp" = Ok (field payload "exp")) as ->
    by by destruct payload.
  cbn [mbind result_bind].
  destruct Hexp as [->|(n & -> & Hn)]; [done|].
  cbn [truthy ToNumber gtNum].
  replace (now >? n) with false by lia. by rewrite andb_false_r.
Qed.

Lemma split_nonempty token sig :
  split "."%char token !! 1%nat = Some sig -> isEmpty token = false.
Proof. by destruct token. Qed.

(** C3 (amended).  Expiry rejection: for every token [body.sig] with a
    well-formed body and a valid signature whose decoded payload carries
    an [exp] field that is a number other than 0 and less than the current
    time, [verifyToken] throws the error ['Token expired']; consequently
    [POST /api/vote] with that token and a vote responds 403, with that
    message when the origin is allowed, and stores no vote. *)
Theorem expired_token_rejected env now token tokenBody sig payload n :
  split "."%char token !! 0%nat = Some tokenBody ->
  split "."%char token !! 1%nat = Some sig ->
  tokenBody ≠ "" ->
  sig ≠ "" ->
  hmacSign (TOKEN_SECRET env) tokenBody = Ok sig ->
  fromB64Json tokenBody = Ok payload ->
  field payload "exp" = Some (JNum n) ->
  n ≠ 0 ->
  n < now ->
  verifyToken env now token = Throw (Error "Token expired")
  ∧
  (∀ req db reqBody vote,
     method req = "POST" ->
     endsWith (pathname req) "/api/vote" = true ->
     json req = Some reqBody ->
     field reqBody "token" = Some (JStr token) ->
     field reqBody "vote" = Some vote ->
     truthy (Some vote) = true ->
     ∃ msg,
       fetch env now req db = (Ok (errorResponse 403 (originOf req) msg), db) ∧
       (originAllowed env (originOf req) = true -> msg = "Token expired")).
Proof.
  intros Hbody Hsig Hb Hs Hvalid Hdecode Hexp Hn0 Hlt.
  assert (verifyToken env now token = Throw (Error "Token expired")) as Hverify.
  { unfold verifyToken. rewrite Hbody, Hsig. cbn [falsyStr default].
    destruct tokenBody; [done|]. destruct sig as [|c sig']; [done|].
    cbn [isEmpty orb from_option]. unfold Datatypes.id.
    rewrite Hvalid. cbn [mbind result_bind].
    rewrite String.eqb_refl. cbn [negb].
    rewrite Hdecode. cbn [mbind result_bind].
    assert (get payload "exp" = Ok (Some (JNum n))) as ->.
    { rewrite <- Hexp. by destruct payload. }
    cbn [mbind result_bind truthy ToNumber gtNum].
    replace (n =? 0) with false by lia.
    by replace (now >? n) with true by lia. }
  split; [done|].
  intros req db reqBody vote Hmethod Hpath Hjson Htoken Hvote Htruthy.
  unfold fetch. fold (originOf req). rewrite Hmethod.
  cbn [String.eqb Ascii.eqb Bool.eqb negb].
  destruct (originAllowed env (originOf req)) eqn:Horigin; cbn [negb].
  2:{ by exists "Origin not allowed". }
  rewrite (endsWith_vote_not_start _ Hpath), Hpath.
  exists "Token expired". split; [|done].
  unfold fetch_vote. rewrite Hjson. cbn [default from_option].
  unfold Datatypes.id.
  assert (reqBody ≠ JNull) as Hnull by (by intros ->).
  assert (∀ k, get reqBody k = Ok (field reqBody k)) as Hget
    by (by destruct reqBody).
  rewrite !Hget, Htoken, Hvote.
  pose proof (split_nonempty token sig Hsig) as Hne.
  rewrite Htruthy.
  unfold orElse. cbn [truthy ToString toStr]. rewrite Hne. cbn [negb ToString toStr].
  rewrite Hne. cbn [negb orb].
  by rewrite Hverify.
Qed.

End FetchFacts.

(** * The worker on sample requests *)

Section Evaluation.
Import JS Worker WorkerSpec Sample.

#[local] Existing Instance Reference.runtime.

(** The reference digest and MAC on the test vectors of FIPS 180-4 and
    RFC 4231, and the dates of the samples. *)
Example sha256_abc :
  hexOfBytes (SHA256.sha256 "abc")
  = "ba7816bf8f01cfea414140de5dae2223b00361a396177a9cb410ff61f20015ad".
Proof. vm_compute. reflexivity. Qed.

Example hmac_rfc4231_case2 :
  hexOfBytes (SHA256.hmac "Jefe" "what do ya want for nothing?")
  = "5bdcc146bf60754e6a042426089575c75a003f089d2739839dec58b964ec3843".
Proof. vm_compute. reflexivity. Qed.

Example parseDate_now : Reference.parseDate "2023-11-14T22:13:20Z" = Some now.
Proof. vm_compute. reflexivity. Qed.

Example tokenExpZero_text :
  makeToken env (JObj [("exp", JNum 0)]) = Ok tokenExpZero ∧
  tokenExpZero = "eyJleHAiOjB9.1yC9GQ0pmDg6eXZHO9WySosQtqP7NvRa6uxP02ldygE".
Proof. split; vm_compute; reflexivity. Qed.

Example tokenExpired_made :
  makeToken env (JObj [("exp", JNum (now - 1))]) = Ok tokenExpired.
Proof. vm_compute. reflexivity. Qed.

Example tokenValid_made :
  makeToken env (sessionPayload (now - 1000) "alpha") = Ok tokenValid.
Proof. vm_compute. reflexivity. Qed.

(** Without a secret no token is made: [makeToken] throws, and so does
    [POST /api/start] for a code that would be granted, after the use has
    been counted. *)
Example start_without_secret_throws :
  makeToken envNoSecret (sessionPayload now "alpha")
    = Throw (DataError "Zero-length key is not supported") ∧
  fetch envNoSecret now (startRequest "alpha") db
    = (Throw (DataError "Zero-length key is not supported"),
       dbDecrementUsesRemaining db (sha256Hex "alpha")) ∧
  dbDecrementUsesRemaining db (sha256Hex "alpha") ≠ db.
Proof.
  split_and!; [vm_compute; reflexivity..|].
  intros Heq. apply (f_equal (fun d => uses_remaining <$> access_codes d !! 0%nat)) in Heq.
  vm_compute in Heq. discriminate Heq.
Qed.


(** A body that is the JSON value [null] is read without a guard: the
    handler throws instead of answering 400. *)
Example start_null_body_throws :
  ∃ msg,
    fetch env now (post "/api/start" JNull) db = (Throw (TypeError msg), db).
Proof.
  exists "Cannot read properties of null (reading 'code')".
  vm_compute. reflexivity.
Qed.


(** C2, as stated in the specification, fails: [null] is serializable and
    has no [exp] field, and [verifyToken] throws a [TypeError] on the
    token made from it; and with the empty secret [makeToken] throws for a
    serializable payload whose [exp] is not earlier than the current
    time, so that there is no token to verify. *)
Lemma verifyToken_null_payload_throws :
  JSON_parse (JSON_stringify JNull) = Some JNull ∧
  field JNull "exp" = None ∧
  (∃ token msg,
     makeToken env JNull = Ok token ∧
     verifyToken env now token = Throw (TypeError msg)) ∧
  JSON_parse (JSON_stringify (sessionPayload now "alpha"))
    = Some (sessionPayload now "alpha") ∧
  field (sessionPayload now "alpha") "exp"
    = Some (JNum (now + 12 * 60 * 60 * 1000)) ∧
  ∃ e, makeToken envNoSecret (sessionPayload now "alpha") = Throw e.
Proof.
  split_and!; [vm_compute; reflexivity|reflexivity| |vm_compute; reflexivity
              |reflexivity|].
  - exists (issued (makeToken env JNull)),
      "Cannot read properties of null (reading 'exp')".
    split; vm_compute; reflexivity.
  - exists (DataError "Zero-length key is not supported").
    vm_compute. reflexivity.
Qed.

Lemma verifyToken_makeToken_roundtrip_witness :
  ∃ token,
    makeToken env (sessionPayload (now - 1000) "alpha") = Ok token ∧
    verifyToken env now token = Ok (sessionPayload (now - 1000) "alpha").
Proof.
  apply (@verifyToken_makeToken_roundtrip Reference.runtime).
  - discriminate.
  - discriminate.
  - vm_compute. reflexivity.
  - vm_compute. discriminate.
  - vm_compute. discriminate.
  - right. eexists. split; [reflexivity|]. vm_compute. discriminate.
Defined.

(** C3, as stated in the specification, fails: the token signed for the
    payload [{exp: 0}] has a well-formed body and a valid signature, 0 is
    less than the current time, and [verifyToken] returns the payload;
    [POST /api/vote] with it responds 200 and stores the vote. *)
Lemma exp_zero_token_not_rejected :
  let payload := JObj [("exp", JNum 0)] in
  (∃ sig,
     split "."%char tokenExpZero = [b64Json payload; sig] ∧
     hmacSign (TOKEN_SECRET env) (b64Json payload) = Ok sig) ∧
  fromB64Json (b64Json payload) = Ok payload ∧
  field payload "exp" = Some (JNum 0) ∧
  0 < now ∧
  verifyToken env now tokenExpZero = Ok payload ∧
  ∃ resp db',
    fetch env now (voteRequest tokenExpZero) db = (Ok resp, db') ∧
    status resp = 200 ∧
    is_Some (votes db' !! "P1__kg__3").
Proof.
  intros payload. split_and!; try (vm_compute; reflexivity).
  { exists (issued (hmacSign (TOKEN_SECRET env) (b64Json payload))).
    split; vm_compute; reflexivity. }
  exists (jsonResponse 200 origin (JObj [("ok", JBool true)])),
    (dbUpsertVote db (voteRow now vote "left")).
  split_and!.
  - vm_compute. reflexivity.
  - reflexivity.
  - eexists. vm_compute. reflexivity.
Qed.

Lemma expired_token_rejected_witness :
  verifyToken env now tokenExpired = Throw (Error "Token expired") ∧
  ∃ msg,
    fetch env now (voteRequest tokenExpired) db
    = (Ok (errorResponse 403 (originOf (voteRequest tokenExpired)) msg), db) ∧
    (originAllowed env (originOf (voteRequest tokenExpired)) = true ->
     msg = "Token expired").
Proof.
  pose (payload := JObj [("exp", JNum (now - 1))]).
  destruct (@expired_token_rejected Reference.runtime env now tokenExpired
              (b64Json payload)
              (issued (hmacSign (TOKEN_SECRET env) (b64Json payload)))
              payload (now - 1)) as [Hverify Hvote].
  - vm_compute. reflexivity.
  - vm_compute. reflexivity.
  - vm_compute. discriminate.
  - vm_compute. discriminate.
  - reflexivity.
  - vm_compute. reflexivity.
  - reflexivity.
  - vm_compute. discriminate.
  - vm_compute. reflexivity.
  - split; [exact Hverify|].
    apply (Hvote (voteRequest tokenExpired) db
             (JObj [("token", JStr tokenExpired); ("vote", vote)]) vote);
      reflexivity.
Defined.

Lemma vote_upsert_by_composite_key_witness :
  ∃ v preferred,
    field (default (JObj []) (json (voteRequest tokenValid))) "vote" = Some v ∧
    normalizePreferred (ToString (field v "preferred")) = Ok preferred ∧
    dbUpsertVote db (voteRow now vote "left")
    = dbUpsertVote db (voteRow now v preferred).
Proof.
  refine (proj2 (proj2 (proj2 (@vote_upsert_by_composite_key Reference.runtime)))
            env now (voteRequest tokenValid) db
            (jsonResponse 200 origin (JObj [("ok", JBool true)]))
            (dbUpsertVote db (voteRow now vote "left")) _ _ _).
  - vm_compute. reflexivity.
  - reflexivity.
  - vm_compute. reflexivity.
Defined.

Lemma error_responses_shape_witness :
  isErrorBody (errorResponse 400 origin "Missing code") ∧
  status (errorResponse 400 origin "Missing code") ∈ errorStatuses.
Proof.
  apply (@error_responses_shape Reference.runtime env now (startRequest "  ")
           db (errorResponse 400 origin "Missing code") db).
  - vm_compute. reflexivity.
  - discriminate.
  - discriminate.
Defined.

Lemma origin_not_allowed_rejected_witness :
  let req :=
    {| method := "POST"; pathname := "/api/start";
       origin_header := Some "https://evil.example";
       json := Some (JObj [("code", JStr "alpha")]) |} in
  fetch env now req db
  = (Ok (errorResponse 403 (originOf req) "Origin not allowed"), db).
Proof.
  intros req.
  apply (@origin_not_allowed_rejected Reference.runtime env now req db).
  - discriminate.
  - right; right; left. exists "https://evil.example". split; [reflexivity|].
    vm_compute. intros Hin.
    repeat (apply elem_of_cons in Hin as [Hin|Hin]; [discriminate Hin|]).
    by apply elem_of_nil in Hin.
Defined.

Lemma uses_remaining_never_negative_witness :
  let reqs :=
    [(now, startRequest "alpha"); (now + 1, startRequest "alpha");
     (now + 2, startRequest "alpha"); (now + 3, startRequest "alpha")] in
  ∃ r',
    access_codes (serve env reqs db) !! 0%nat = Some r' ∧
    usesNotNegative r' ∧
    code_hash r' = code_hash (codeRow "alpha" (Some 2) None).
Proof.
  intros reqs.
  refine (proj1 (@uses_remaining_never_negative Reference.runtime env reqs db
                   0%nat (codeRow "alpha" (Some 2) None) _ _)).
  - reflexivity.
  - vm_compute. discriminate.
Defined.

Example uses_remaining_runs_out :
  uses_remaining <$>
    access_codes
      (serve env
         [(now, startRequest "alpha"); (now + 1, startRequest "alpha");
          (now + 2, startRequest "alpha"); (now + 3, startRequest "alpha")] db)
      !! 0%nat
  = Some (Some 0).
Proof. vm_compute. reflexivity. Qed.

End Evaluation.

(** * Further properties of the worker *)

(** Arithmetic on the codes of the characters in the context. *)
Ltac char_arith :=
  repeat match goal with
    | a : ascii |- _ =>
        lazymatch goal with
        | H : (N_of_ascii a < 256)%N |- _ => fail
        | _ => pose proof (N_ascii_bounded a)
        end
    end;
  zify; Z.to_euclidean_division_equations; lia.

Section CodecMore.
Import JS B64Spec Worker WorkerMore.
Context `{Runtime}.

(** Decoding inverts encoding: [fromB64Json] hands to [JSON.parse] exactly
    the bytes that [base64UrlEncode] encoded, whatever they are. *)
Theorem fromB64Json_base64UrlEncode s :
  match JSON_parse s with
  | Some v => fromB64Json (base64UrlEncode s) = Ok v
  | None => ∃ msg, fromB64Json (base64UrlEncode s) = Throw (SyntaxError msg)
  end.
Proof.
  unfold fromB64Json. rewrite atob_base64UrlEncode. cbn.
  destruct (JSON_parse s); [done|by eexists].
Qed.

Lemma urlChar_safe n : (n < 64)%N -> isUrlSafeChar (urlChar (b64char n)) = true.
Proof.
  intros Hn.
  by apply (sextet_forall (fun n => isUrlSafeChar (urlChar (b64char n)))).
Qed.

Lemma length_sextetsOf s :
  length (sextetsOf s) = ((4 * String.length s + 2) / 3)%nat.
Proof.
  induction s as [|a|a b|a b c s IH] using string_by_three; [done..|].
  cbn [sextetsOf length String.length]. rewrite IH.
  replace (4 * S (S (S (String.length s))) + 2)%nat
    with (4 * String.length s + 2 + 4 * 3)%nat by lia.
  rewrite Nat.div_add by lia. lia.
Qed.

(** The encoding is URL-safe and unpadded: it is made of letters, digits,
    [-] and [_] only, and [n] bytes give [ceil (4 n / 3)] characters. *)
Theorem base64UrlEncode_url_safe s :
  allChars isUrlSafeChar (base64UrlEncode s) = true ∧
  String.length (base64UrlEncode s) = ((4 * String.length s + 2) / 3)%nat.
Proof.
  rewrite base64UrlEncode_chars. split.
  - induction (sextetsOf_range s) as [|n l Hn _ IH]; [done|].
    cbn [charsOf mapChars allChars]. by rewrite urlChar_safe, IH.
  - by rewrite length_mapChars, length_charsOf, length_sextetsOf.
Qed.

Lemma hexDigit_inj a b :
  (a < 16)%N -> (b < 16)%N -> hexDigit a = hexDigit b -> a = b.
Proof.
  intros Ha Hb.
  assert (forallb (fun x => forallb (fun y =>
            implb (Ascii.eqb (hexDigit x) (hexDigit y)) (x =? y)%N)
              (N.of_nat <$> seq 0 16)) (N.of_nat <$> seq 0 16) = true)
    as Hall by (by vm_compute).
  rewrite forallb_forall in Hall.
  assert (∀ n, (n < 16)%N -> In n (N.of_nat <$> seq 0 16)) as Hin.
  { intros n Hn. apply in_map_iff. exists (N.to_nat n). split; [lia|].
    apply in_seq. lia. }
  specialize (Hall a (Hin a Ha)). rewrite forallb_forall in Hall.
  specialize (Hall b (Hin b Hb)). intros Heq.
  rewrite Heq, Ascii.eqb_refl in Hall. cbn in Hall. by apply N.eqb_eq.
Qed.

Lemma hexDigit_isHex a : (a < 16)%N -> isHexChar (hexDigit a) = true.
Proof.
  intros Ha.
  assert (forallb (fun x => isHexChar (hexDigit x)) (N.of_nat <$> seq 0 16)
          = true) as Hall by (by vm_compute).
  rewrite forallb_forall in Hall. apply Hall.
  apply in_map_iff. exists (N.to_nat a). split; [lia|]. apply in_seq. lia.
Qed.

(** The hexadecimal text of a digest has two lower-case hex digits per
    byte, and different byte strings have different texts. *)
Theorem hexOfBytes_faithful bytes :
  String.length (hexOfBytes bytes) = (2 * String.length bytes)%nat ∧
  allChars isHexChar (hexOfBytes bytes) = true ∧
  (∀ bytes', hexOfBytes bytes = hexOfBytes bytes' -> bytes = bytes').
Proof.
  split_and!.
  - induction bytes as [|b bytes IH]; [done|]. cbn. rewrite IH. lia.
  - induction bytes as [|b bytes IH]; [done|].
    cbn [hexOfBytes allChars].
    rewrite !hexDigit_isHex, IH; [done|..]; char_arith.
  - induction bytes as [|b bytes IH]; intros [|b' bytes']; cbn [hexOfBytes];
      try done.
    intros [= H1 H2 Hrest].
    apply hexDigit_inj in H1; [|char_arith..].
    apply hexDigit_inj in H2; [|char_arith..].
    f_equal; [|by apply IH].
    rewrite <- (ascii_N_embedding b), <- (ascii_N_embedding b').
    f_equal. char_arith.
Qed.

End CodecMore.

Section TokenMore.
Import JS B64Spec Worker WorkerSpec WorkerMore.
Context `{Runtime}.

(** [verifyToken] never accepts a token it did not sign: when it returns
    a payload, the token starts with [body.sig] where [sig] is the MAC of
    [body] under the secret, [body] decodes to the payload, and the
    payload's [exp] is falsy or not earlier than the current time. *)
Theorem verifyToken_accepts_only_signed env now token payload :
  verifyToken env now token = Ok payload ->
  ∃ tokenBody sig,
    split "."%char token !! 0%nat = Some tokenBody ∧
    split "."%char token !! 1%nat = Some sig ∧
    tokenBody ≠ "" ∧
    hmacSign (TOKEN_SECRET env) tokenBody = Ok sig ∧
    fromB64Json tokenBody = Ok payload ∧
    payload ≠ JNull ∧
    (truthy (field payload "exp") = false ∨
     gtNum now (ToNumber (field payload "exp")) = false).
Proof.
  unfold verifyToken. intros Hverify.
  destruct (split "."%char token !! 0%nat) as [[|c tokenBody]|] eqn:Hbody;
    [done| |done].
  destruct (split "."%char token !! 1%nat) as [[|c' sig]|] eqn:Hsig;
    [done| |done].
  cbn [falsyStr isEmpty orb default from_option] in Hverify.
  unfold Datatypes.id in Hverify.
  destruct (hmacSign (TOKEN_SECRET env) (String c tokenBody))
    as [expected|] eqn:Hsign; [|done].
  cbn [mbind result_bind] in Hverify.
  destruct (String.eqb_spec expected (String c' sig)) as [->|]; [|done].
  cbn [negb] in Hverify.
  destruct (fromB64Json (String c tokenBody)) as [decoded|] eqn:Hdecode;
    [|done].
  cbn [mbind result_bind] in Hverify.
  destruct decoded; try done; cbn [get mbind result_bind] in Hverify.
  all: destruct (truthy _ && gtNum _ _) eqn:Hexp; [done|].
  all: injection Hverify as <-.
  all: eexists _, _; split_and!; try done.
  all: by apply andb_false_iff in Hexp.
Qed.

Lemma append_assoc s t u : (s +:+ t) +:+ u = s +:+ (t +:+ u).
Proof.
  induction s as [|c s IH]; [done|]. rewrite !append_cons. by rewrite IH.
Qed.

Lemma split_first_piece s rest :
  allChars notDot s = true ->
  split "."%char (s +:+ "." +:+ rest) = s :: split "."%char rest.
Proof.
  intros Hs. induction s as [|c s IH].
  - rewrite append_nil. change ("." +:+ rest) with (String "."%char rest).
    cbn [split]. by rewrite Ascii.eqb_refl.
  - cbn [allChars] in Hs. apply andb_true_iff in Hs as [Hc Hs].
    rewrite append_cons. cbn [split]. rewrite (IH Hs).
    unfold notDot in Hc. apply negb_true_iff in Hc. by rewrite Hc.
Qed.

(** Only the first two pieces of a token count: a token made by
    [makeToken], followed by a dot and any text, is verified like the
    token itself (and nothing is verified when [makeToken] throws). *)
Theorem verifyToken_ignores_trailing_pieces env now payload junk :
  (token ← makeToken env payload;
   verifyToken env now (token +:+ "." +:+ junk))
  = (token ← makeToken env payload; verifyToken env now token).
Proof.
  destruct (makeToken env payload) as [token|e] eqn:Hmade; [|done].
  apply makeToken_inv in Hmade as [_ ->]. cbn [mbind result_bind].
  unfold verifyToken.
  rewrite append_assoc, append_assoc.
  rewrite split_first_piece by apply base64UrlEncode_notDot.
  rewrite split_first_piece by apply base64UrlEncode_notDot.
  by rewrite split_two by apply base64UrlEncode_notDot.
Qed.

Lemma gtNum_mono now now' y :
  now' <= now -> gtNum now' y = true -> gtNum now y = true.
Proof. destruct y; cbn; [lia|done]. Qed.

(** A token ages only one way: what is accepted now was accepted at any
    earlier time, and what is rejected as expired stays so at any later
    time. *)
Theorem verifyToken_over_time env now now' token :
  now' <= now ->
  (∀ payload,
     verifyToken env now token = Ok payload ->
     verifyToken env now' token = Ok payload)
  ∧
  (verifyToken env now' token = Throw (Error "Token expired") ->
   verifyToken env now token = Throw (Error "Token expired")).
Proof.
  intros Hle. unfold verifyToken.
  destruct (falsyStr _ || falsyStr _); [done|].
  destruct (hmacSign _ _) as [expected|e]; [|done].
  cbn [mbind result_bind].
  destruct (negb _); [done|].
  destruct (fromB64Json _) as [decoded|e]; [|done].
  cbn [mbind result_bind].
  destruct (get decoded "exp") as [exp|e]; [|done].
  cbn [mbind result_bind].
  destruct (truthy exp); cbn [andb]; [|done].
  destruct (gtNum now' (ToNumber exp)) eqn:Hthen.
  - by rewrite (gtNum_mono now now' _ Hle Hthen).
  - split; [|done]. intros payload. by destruct (gtNum now _).
Qed.

(** The session of a token made by [/api/start] at [now] lasts twelve
    hours: the token is accepted up to [now + 12 h] and rejected as
    expired after, given that the payload survives the JSON codec with a
    text and a MAC that are not empty. *)
Theorem session_token_window env now code t token :
  let payload := sessionPayload now code in
  makeToken env payload = Ok token ->
  JSON_parse (JSON_stringify payload) = Some payload ->
  JSON_stringify payload ≠ "" ->
  hmacSha256 (TOKEN_SECRET env) (b64Json payload) ≠ "" ->
  now + 12 * 60 * 60 * 1000 ≠ 0 ->
  (t <= now + 12 * 60 * 60 * 1000 ->
   verifyToken env t token = Ok payload)
  ∧
  (now + 12 * 60 * 60 * 1000 < t ->
   verifyToken env t token = Throw (Error "Token expired")).
Proof.
  intros payload Hmade Hparse Hstr Hmac Hexp.
  rewrite (verifyToken_makeToken env t payload token) by done.
  cbn [payload sessionPayload get field lookupField String.eqb Ascii.eqb
       Bool.eqb mbind result_bind truthy ToNumber gtNum].
  split; intros Ht.
  - replace (t >? _) with false by lia. by rewrite andb_false_r.
  - replace (t >? _) with true by lia.
    by replace (_ =? 0) with false by lia.
Qed.

End TokenMore.

Section HandlerMore.
Import JS Worker WorkerSteps WorkerSpec WorkerMore.
Context `{Runtime}.

Lemma get_field v k a : get v k = Ok a -> a = field v k.
Proof. destruct v; cbn; congruence. Qed.

(** The votes table is never written without a valid token: when a call
    changes it, the request is a [POST] from an allowed origin to
    [/api/vote] whose token [verifyToken] accepts at that time. *)
Theorem votes_change_only_with_valid_token env now req db :
  votes (fetch env now req db).2 ≠ votes db ->
  method req = "POST" ∧
  originAllowed env (originOf req) = true ∧
  endsWith (pathname req) "/api/vote" = true ∧
  ∃ payload, verifyToken env now (tokenOf req) = Ok payload.
Proof.
  unfold fetch, fetch_start, fetch_vote, tokenOf. fold (originOf req).
  intros Hchanged.
  repeat case_match; simplify_eq; cbn [snd] in Hchanged; try done.
  match goal with
  | Hget : get _ "token" = Ok _ |- _ => apply get_field in Hget as ->
  end.
  split_and!.
  - by apply String.eqb_eq, negb_false_iff.
  - by apply negb_false_iff.
  - done.
  - by eexists.
Qed.

Lemma makeToken_Throw env payload e :
  makeToken env payload = Throw e ->
  TOKEN_SECRET env = "" ∧ e = DataError zeroKeyMessage.
Proof.
  unfold makeToken, hmacSign. destruct (TOKEN_SECRET env); [|done].
  by intros [= <-].
Qed.

(** What a call can touch: nothing unless it is a [POST] from an allowed
    origin; never the votes on [/api/start]; never the access codes
    elsewhere; nothing when it throws, except on [/api/start] without a
    secret, where the [DataError] of [makeToken] comes after the
    decrement. *)
Theorem fetch_frame env now req db :
  (method req ≠ "POST" ∨ originAllowed env (originOf req) = false ->
   (fetch env now req db).2 = db)
  ∧
  (endsWith (pathname req) "/api/start" = true ->
   votes (fetch env now req db).2 = votes db)
  ∧
  (endsWith (pathname req) "/api/start" = false ->
   access_codes (fetch env now req db).2 = access_codes db)
  ∧
  (∀ e,
     (fetch env now req db).1 = Throw e ->
     (fetch env now req db).2 = db ∨
     (TOKEN_SECRET env = "" ∧
      endsWith (pathname req) "/api/start" = true ∧
      e = DataError zeroKeyMessage ∧
      (fetch env now req db).2
      = dbDecrementUsesRemaining db (sha256Hex (codeOf req)))).
Proof.
  unfold fetch, fetch_start, fetch_vote, codeOf. fold (originOf req).
  split_and!.
  - intros [Hmethod|Horigin].
    + apply String.eqb_neq in Hmethod. rewrite Hmethod. cbn [negb].
      by repeat case_match.
    + rewrite Horigin. cbn [negb]. by repeat case_match.
  - intros ->. by repeat case_match.
  - intros ->. by repeat case_match.
  - intros e. repeat case_match; simplify_eq; cbn [fst snd];
      intros; simplify_eq; try (by left).
    right.
    match goal with
    | Hget : get _ "code" = Ok _ |- _ => apply get_field in Hget as ->
    end.
    match goal with
    | Hmade : makeToken _ _ = Throw _ |- _ =>
        apply makeToken_Throw in Hmade as [-> ->]
    end.
    done.
Qed.

(** Responses other than the preflight always carry the CORS headers for
    the origin of the request, allowed or not; the preflight carries
    them for an allowed origin only, has no body and touches nothing. *)
Theorem cors_headers env now req db :
  (∀ resp db',
     fetch env now req db = (Ok resp, db') ->
     status resp ≠ 204 ->
     headers resp = cors (originOf req))
  ∧
  (method req = "OPTIONS" ->
   fetch env now req db
   = (Ok {| status := 204;
            headers := if originAllowed env (originOf req)
                       then cors (originOf req) else [];
            body := None |},
      db)).
Proof.
  split.
  - intros resp db' Hfetch Hst.
    pose proof (fetch_outcome env now req db) as Hout.
    rewrite Hfetch in Hout. by inversion Hout; subst.
  - intros Hmethod. unfold fetch. by rewrite Hmethod.
Qed.

Lemma normalizePreferred_Ok p v :
  normalizePreferred p = Ok v -> v = "left" ∨ v = "right".
Proof.
  unfold normalizePreferred. repeat case_match; intros [= <-]; auto.
Qed.

Lemma fetch_votes_step env now req db :
  votes (fetch env now req db).2 = votes db ∨
  ∃ vote preferred,
    (preferred = "left" ∨ preferred = "right") ∧
    votes (fetch env now req db).2
    = <[id (voteRow now vote preferred) := boundRow (voteRow now vote preferred)]>
        (votes db).
Proof.
  unfold fetch, fetch_start, fetch_vote. fold (originOf req).
  repeat case_match; simplify_eq; cbn [snd]; try (by left).
  right. eexists _, _. split; [|done].
  by eapply normalizePreferred_Ok.
Qed.

(** The rows of the votes table keep their shape: if every row is stored
    under its [id], which is [participant__component__trial], with a
    [preferred] that is ["left"] or ["right"] and the optional columns
    filled, then so it is after any sequence of requests. *)
Theorem stored_votes_well_formed env reqs db :
  map_Forall storedVoteOk (votes db) ->
  map_Forall storedVoteOk (votes (serve env reqs db)).
Proof.
  revert db. unfold serve.
  induction reqs as [|[now req] reqs IH]; intros db Hok; cbn [foldl]; [done|].
  apply IH. cbn [fst snd].
  destruct (fetch_votes_step env now req db)
    as [->|(vote & preferred & Hpref & ->)]; [done|].
  apply map_Forall_insert_2; [|done].
  unfold storedVoteOk. cbn. split_and!; by eauto.
Qed.

(** *** Uses of a code *)

Lemma find_map_decrement codeHash codeHash' rows :
  List.find (fun r => String.eqb (code_hash r) codeHash')
    (decrementRow codeHash <$> rows)
  = decrementRow codeHash <$>
      List.find (fun r => String.eqb (code_hash r) codeHash') rows.
Proof.
  induction rows as [|r rows IH]; [done|]. cbn [fmap list_fmap List.find].
  assert (code_hash (decrementRow codeHash r) = code_hash r) as ->.
  { unfold decrementRow. by repeat case_match. }
  by destruct (String.eqb _ _).
Qed.

Lemma dbGet_decrement db codeHash codeHash' :
  dbGetAccessCode (dbDecrementUsesRemaining db codeHash) codeHash'
  = decrementRow codeHash <$> dbGetAccessCode db codeHash'.
Proof. unfold dbGetAccessCode. cbn. apply find_map_decrement. Qed.


Lemma decrementRow_other codeHash row :
  code_hash row ≠ codeHash ∨ uses_remaining row = None ->
  decrementRow codeHash row = row.
Proof.
  unfold decrementRow. intros [Hne|Hnone].
  - apply String.eqb_neq in Hne. rewrite Hne. by destruct (uses_remaining row).
  - by rewrite Hnone.
Qed.

(** Looking a code up after a decrement: the row found for another hash,
    or one whose [uses_remaining] is null, is as before; the row found for
    the decremented hash with [n > 0] uses has [n - 1] and is otherwise
    the same. *)
Theorem lookup_after_decrement db codeHash codeHash' row :
  dbGetAccessCode db codeHash' = Some row ->
  (codeHash' ≠ codeHash ∨ uses_remaining row = None ->
   dbGetAccessCode (dbDecrementUsesRemaining db codeHash) codeHash' = Some row)
  ∧
  (∀ n,
     codeHash' = codeHash -> uses_remaining row = Some n -> 0 < n ->
     dbGetAccessCode (dbDecrementUsesRemaining db codeHash) codeHash'
     = Some {| code_hash := code_hash row;
               active := active row;
               uses_remaining := Some (n - 1);
               expires_at := expires_at row |}).
Proof.
  intros Hrow. rewrite dbGet_decrement, Hrow. cbn.
  apply dbGetAccessCode_Some in Hrow as [_ Hhash]. split.
  - intros Hcase. rewrite decrementRow_other; [done|]. by rewrite Hhash.
  - intros n -> Huses Hn. unfold decrementRow.
    rewrite Huses, Hhash, String.eqb_refl.
    by replace (n >? 0) with true by lia.
Qed.




(** The branch [POST /api/start] is its two steps, one after the other. *)
Lemma fetch_start_steps env now origin req db :
  fetch_start env now origin req db
  = match start_select now origin req db with
    | Answered out => (out, db)
    | Selected codeHash doc => start_commit env now origin codeHash doc db
    end.
Proof.
  unfold fetch_start, start_select, start_commit. by repeat case_match.
Qed.




End HandlerMore.

(** * Further properties of the front end *)

Section PairingMore.
Import App AppSpec AppUI AppMore.
Implicit Types (rows history : list Vote) (methodIds : list string).

(** The generator stays in range: a call returns a numerator of [[0, 1)],
    and the index drawn for position [i] of the shuffle, or for an array
    of [n > 0] elements, is inside the array. *)
Theorem generator_in_range seed i n :
  0 <= (mulberry32 seed).1 < 2 ^ 32 ∧
  (floorMul (mulberry32 seed).1 (i + 1) <= i)%nat ∧
  ((0 < n)%nat -> (floorMul (mulberry32 seed).1 n < n)%nat).
Proof.
  pose proof (mulberry32_range seed) as Hu. split; [done|split].
  - pose proof (floorMul_lt _ (i + 1) Hu). lia.
  - by apply floorMul_lt.
Qed.

Lemma first_pair_shape pid comp methodIds history :
  pid ≠ "" ->
  NoDup methodIds ->
  (2 <= length methodIds)%nat ->
  priorVotes pid comp history = [] ->
  ∃ x y,
    nextPair pid comp methodIds history = Some (Some x, Some y) ∧
    x ≠ y ∧ x ∈ methodIds ∧ y ∈ methodIds.
Proof.
  intros Hpid Hnodup Hlen Hrows. unfold nextPair.
  rewrite (priorVotes_code pid comp history). rewrite Hrows.
  destruct pid; [done|]. cbn [String.eqb orb].
  rewrite (proj2 (Nat.ltb_ge (length methodIds) 2)) by lia.
  cbn [sortByTrial foldr last].
  set (shuffled := stableShuffle methodIds _).
  assert (shuffled ≡ₚ methodIds) as Hperm by apply stableShuffle_Permutation.
  assert (length shuffled = length methodIds) as Hl
    by by apply Permutation_length.
  rewrite <- Hperm in Hnodup.
  destruct shuffled as [|x [|y rest]]; cbn in Hl; [lia..|].
  exists x, y. split_and!; [done| | |].
  - apply NoDup_cons in Hnodup as [Hx _]. intros ->. apply Hx. by left.
  - rewrite <- Hperm. by left.
  - rewrite <- Hperm. right. by left.
Qed.

(** The first pair is made of two different methods of the list, when the
    list has no duplicates: two of the shuffled list in the current front
    end, the first two of the list in its first version. *)
Theorem first_pair_distinct pid comp methodIds history :
  NoDup methodIds ->
  (2 <= length methodIds)%nat ->
  priorVotes pid comp history = [] ->
  (pid ≠ "" ->
   ∃ x y,
     nextPair pid comp methodIds history = Some (Some x, Some y) ∧
     x ≠ y ∧ x ∈ methodIds ∧ y ∈ methodIds)
  ∧
  (∃ x y rest,
     methodIds = x :: y :: rest ∧
     AppV0.nextPair pid comp methodIds history = Some (Some x, Some y) ∧
     x ≠ y).
Proof.
  intros Hnodup Hlen Hrows. split.
  - intros Hpid. by apply first_pair_shape.
  - unfold AppV0.nextPair. rewrite (priorVotes_code pid comp history). rewrite Hrows.
    destruct methodIds as [|x [|y rest]]; cbn in Hlen; [lia..|].
    exists x, y, rest. split_and!; [done..|].
    apply NoDup_cons in Hnodup as [Hx _]. intros ->. apply Hx. by left.
Qed.

Lemma champion_of_side r :
  champion_of r = left_method_id r ∨ champion_of r = right_method_id r.
Proof. unfold champion_of. destruct (String.eqb _ _); auto. Qed.

(** With prior votes, the comparisons of a component are complete, that
    is [nextPair] returns [null], exactly when every method of the list
    was on a side of one of those votes. *)
Theorem nextPair_complete_iff pid comp methodIds history :
  pid ≠ "" ->
  (2 <= length methodIds)%nat ->
  priorVotes pid comp history ≠ [] ->
  nextPair pid comp methodIds history = None
  ↔ ∀ m, m ∈ methodIds ->
      ∃ r, r ∈ priorVotes pid comp history ∧
           (m = left_method_id r ∨ m = right_method_id r).
Proof.
  intros Hpid Hlen Hrows. unfold nextPair.
  rewrite (priorVotes_code pid comp history).
  set (rows := priorVotes pid comp history) in *.
  destruct pid; [done|]. cbn [String.eqb orb].
  rewrite (proj2 (Nat.ltb_ge (length methodIds) 2)) by lia.
  destruct (last (sortByTrial rows)) as [lastRow|] eqn:Hlast.
  2:{ by apply last_None, sortByTrial_nil in Hlast. }
  assert (lastRow ∈ rows) as Hin.
  { rewrite <- (sortByTrial_Permutation rows). by apply last_Some_elem_of. }
  assert (∀ m, m ∈ appearedOf (sortByTrial rows)
               ↔ ∃ r, r ∈ rows ∧ (m = left_method_id r ∨ m = right_method_id r))
    as Happ.
  { intros m. rewrite elem_of_appearedOf.
    by setoid_rewrite (sortByTrial_Permutation rows). }
  set (unseen := filter _ methodIds).
  destruct (mulberry32 _) as [u seed'].
  destruct (Nat.eqb_spec (length unseen) 0) as [Hnil|Hne].
  - split; [|done]. intros _ m Hm.
    apply nil_length_inv in Hnil.
    destruct (decide (m ∈ appearedOf (sortByTrial rows))) as [Hyes|Hno].
    { by apply Happ. }
    destruct (decide (m = champion_of lastRow)) as [->|Hch].
    { exists lastRow. split; [done|]. apply champion_of_side. }
    assert (m ∈ unseen) as Hun by (apply list_elem_of_filter; auto).
    rewrite Hnil in Hun. by apply elem_of_nil in Hun.
  - split; [done|]. intros Hall. exfalso. apply Hne.
    destruct unseen as [|m rest] eqn:Hun; [done|].
    assert (m ∈ filter (λ m, (m ∉ appearedOf (sortByTrial rows))
                              ∧ (m ≠ champion_of lastRow)) methodIds)
      as Hm by (fold unseen; rewrite Hun; by left).
    apply list_elem_of_filter in Hm as [[Hno _] Hm].
    exfalso. apply Hno, Happ, Hall, Hm.
Qed.

(** *** A tournament *)

Lemma priorVotes_snoc pid comp history v :
  priorVotes pid comp (history ++ [v])
  = priorVotes pid comp history ++ (if matches pid comp v then [v] else []).
Proof.
  rewrite <- !priorVotes_code, filter_app. f_equal.
  cbn. unfold filter, list_filter. by destruct (matches pid comp v).
Qed.

Lemma matches_castVote pid comp trial pair preferred :
  matches pid comp (castVote pid comp trial pair preferred) = true.
Proof. unfold matches. cbn. by rewrite !String.eqb_refl. Qed.

Lemma vote_cases token pid comp methodIds history preferred :
  token ≠ "" -> pid ≠ "" ->
  match nextPair pid comp methodIds history with
  | None => vote token pid comp methodIds history preferred = history
  | Some p =>
      vote token pid comp methodIds history preferred
      = history ++ [castVote pid comp (nextTrialId pid history) p preferred]
  end.
Proof.
  intros Htoken Hpid. unfold vote.
  destruct (nextPair _ _ _ _) as [[l r]|]; [|done].
  by destruct token, pid.
Qed.

Lemma appearedOf_snoc rows v :
  appearedOf (rows ++ [v])
  = appearedOf rows ∪ {[left_method_id v]} ∪ {[right_method_id v]}.
Proof. unfold appearedOf. by rewrite foldl_app. Qed.

Lemma appearedOf_sort rows : appearedOf (sortByTrial rows) = appearedOf rows.
Proof.
  apply set_eq. intros m. rewrite !elem_of_appearedOf.
  by setoid_rewrite (sortByTrial_Permutation rows).
Qed.

Lemma tournamentInv_length methodIds rows :
  NoDup methodIds -> tournamentInv methodIds rows ->
  rows ≠ [] ∧ (length rows <= length methodIds - 1)%nat.
Proof.
  intros Hnodup [Hsub Hsize]. apply subseteq_size in Hsub.
  rewrite size_list_to_set in Hsub by done. split; [|lia].
  intros ->. change (appearedOf []) with (∅ : gset string) in Hsize.
  by rewrite size_empty in Hsize.
Qed.

(** Under the invariant, the methods not yet shown run out exactly when
    every method has been shown. *)
Lemma unseen_nil_iff methodIds rows champion :
  NoDup methodIds -> tournamentInv methodIds rows ->
  champion ∈ appearedOf rows ->
  filter (λ m, (m ∉ appearedOf rows) ∧ (m ≠ champion)) methodIds = []
  ↔ length rows = (length methodIds - 1)%nat.
Proof.
  intros Hnodup [Hsub Hsize] Hch.
  pose proof (subseteq_size _ _ Hsub) as Hle.
  rewrite size_list_to_set in Hle by done. split.
  - intros Hnil.
    assert (list_to_set methodIds ⊆ appearedOf rows) as Hsup.
    { intros m Hm%elem_of_list_to_set.
      destruct (decide (m ∈ appearedOf rows)) as [|Hno]; [done|].
      assert (m ∈ filter (λ m, (m ∉ appearedOf rows) ∧ (m ≠ champion))
                    methodIds) as Hin.
      { apply list_elem_of_filter. split; [|done]. split; [done|].
        by intros ->. }
      rewrite Hnil in Hin. by apply elem_of_nil in Hin. }
    apply subseteq_size in Hsup.
    rewrite size_list_to_set in Hsup by done. lia.
  - intros Hlen.
    assert (appearedOf rows = list_to_set methodIds) as Heq.
    { apply set_subseteq_size_eq; [done|].
      rewrite size_list_to_set by done. lia. }
    destruct (filter _ methodIds) as [|m rest] eqn:Hfilter; [done|].
    assert (m ∈ filter (λ m, (m ∉ appearedOf rows) ∧ (m ≠ champion))
                  methodIds) as Hin by (rewrite Hfilter; by left).
    apply list_elem_of_filter in Hin as [[Hno _] Hm].
    exfalso. apply Hno. rewrite Heq. by apply elem_of_list_to_set.
Qed.

Lemma nextPair_under_inv pid comp methodIds history :
  pid ≠ "" -> NoDup methodIds -> (2 <= length methodIds)%nat ->
  tournamentInv methodIds (priorVotes pid comp history) ->
  (length (priorVotes pid comp history) = (length methodIds - 1)%nat ->
   nextPair pid comp methodIds history = None)
  ∧
  ((length (priorVotes pid comp history) < length methodIds - 1)%nat ->
   ∃ champion challenger,
     nextPair pid comp methodIds history
       = Some (Some champion, Some challenger) ∧
     champion ∈ appearedOf (priorVotes pid comp history) ∧
     challenger ∈ methodIds ∧
     challenger ∉ appearedOf (priorVotes pid comp history)).
Proof.
  intros Hpid Hnodup Hlen Hinv.
  destruct (tournamentInv_length _ _ Hnodup Hinv) as [Hrows _].
  unfold nextPair. rewrite (priorVotes_code pid comp history).
  set (rows := priorVotes pid comp history) in *.
  destruct pid; [done|]. cbn [String.eqb orb].
  rewrite (proj2 (Nat.ltb_ge (length methodIds) 2)) by lia.
  destruct (last (sortByTrial rows)) as [lastRow|] eqn:Hlast.
  2:{ by apply last_None, sortByTrial_nil in Hlast. }
  rewrite appearedOf_sort.
  assert (champion_of lastRow ∈ appearedOf rows) as Hch.
  { apply elem_of_appearedOf. exists lastRow. split; [|apply champion_of_side].
    rewrite <- (sortByTrial_Permutation rows). by apply last_Some_elem_of. }
  pose proof (unseen_nil_iff methodIds rows _ Hnodup Hinv Hch) as Hnil.
  set (unseen := filter _ methodIds) in *.
  destruct (mulberry32 _) as [u seed'] eqn:Hrnd.
  destruct (Nat.eqb_spec (length unseen) 0) as [Hzero|Hnz].
  - apply nil_length_inv in Hzero. apply Hnil in Hzero. split; [done|lia].
  - split.
    { intros Hfull. apply Hnil in Hfull. by rewrite Hfull in Hnz. }
    intros _.
    assert (0 <= u < 2 ^ 32) as Hu.
    { pose proof (mulberry32_range
        (hash32 (String a pid +:+ "::" +:+ comp +:+ "::" +:+
                 pretty (size (appearedOf rows))))) as Hr.
      by rewrite Hrnd in Hr. }
    destruct (lookup_lt_is_Some_2 unseen (floorMul u (length unseen)))
      as [c Hc]; [apply floorMul_lt; [done|lia]|].
    apply unseen_lookup in Hc as Hc'. destruct Hc' as (Hin & Hnot & _).
    exists (champion_of lastRow), c. by rewrite Hc.
Qed.

Lemma vote_step token pid comp methodIds history preferred :
  token ≠ "" -> pid ≠ "" -> NoDup methodIds -> (2 <= length methodIds)%nat ->
  priorVotes pid comp history = [] ∨
  tournamentInv methodIds (priorVotes pid comp history) ->
  ((length (priorVotes pid comp history) < length methodIds - 1)%nat ->
   ∃ v,
     vote token pid comp methodIds history preferred = history ++ [v] ∧
     priorVotes pid comp (history ++ [v]) = priorVotes pid comp history ++ [v] ∧
     tournamentInv methodIds (priorVotes pid comp history ++ [v]))
  ∧
  (length (priorVotes pid comp history) = (length methodIds - 1)%nat ->
   vote token pid comp methodIds history preferred = history).
Proof.
  intros Htoken Hpid Hnodup Hlen Hstate.
  pose proof (vote_cases token pid comp methodIds history preferred Htoken Hpid)
    as Hvote.
  destruct Hstate as [Hnil|Hinv].
  - destruct (first_pair_shape pid comp methodIds history Hpid Hnodup Hlen Hnil)
      as (x & y & Hpair & Hxy & Hx & Hy).
    rewrite Hpair in Hvote. rewrite Hnil. split; [|cbn; lia].
    intros _. eexists. split; [exact Hvote|].
    rewrite priorVotes_snoc, matches_castVote, Hnil. split; [done|].
    split.
    + rewrite (appearedOf_snoc []). cbn.
      intros m. rewrite !elem_of_union, !elem_of_singleton, elem_of_list_to_set.
      change (appearedOf []) with (∅ : gset string).
      intros [[Hm| ->]| ->]; [by apply not_elem_of_empty in Hm|done..].
    + rewrite (appearedOf_snoc []). cbn.
      change (appearedOf []) with (∅ : gset string).
      rewrite (left_id_L ∅ (∪)), size_union, !size_singleton; [done|].
      by apply disjoint_singleton_l, not_elem_of_singleton.
  - destruct (nextPair_under_inv pid comp methodIds history Hpid Hnodup Hlen Hinv)
      as [Hfull Hmore].
    split.
    + intros Hlt.
      destruct (Hmore Hlt) as (champion & challenger & Hpair & Hch & Hin & Hnot).
      rewrite Hpair in Hvote. eexists. split; [exact Hvote|].
      rewrite priorVotes_snoc, matches_castVote. split; [done|].
      destruct Hinv as [Hsub Hsize]. unfold tournamentInv.
      rewrite appearedOf_snoc. cbn.
      rewrite (comm_L (∪) (appearedOf _) {[champion]}),
        (subseteq_union_1_L {[champion]} (appearedOf _))
        by by apply singleton_subseteq_l.
      split.
      * intros m. rewrite elem_of_union, elem_of_singleton.
        intros [Hm| ->]; [by apply Hsub|by apply elem_of_list_to_set].
      * rewrite size_union, size_singleton, length_app, Hsize; [cbn; lia|].
        by apply disjoint_singleton_r.
    + intros Heq. by rewrite (Hfull Heq) in Hvote.
Qed.

Lemma playVotes_inv token pid comp methodIds prefs history :
  token ≠ "" -> pid ≠ "" -> NoDup methodIds -> (2 <= length methodIds)%nat ->
  priorVotes pid comp history = [] ∨
  tournamentInv methodIds (priorVotes pid comp history) ->
  let history' := playVotes token pid comp methodIds prefs history in
  (priorVotes pid comp history' = [] ∨
   tournamentInv methodIds (priorVotes pid comp history'))
  ∧
  length (priorVotes pid comp history')
  = ((length (priorVotes pid comp history) + length prefs)
       `min` (length methodIds - 1))%nat.
Proof.
  intros Htoken Hpid Hnodup Hlen. revert history. unfold playVotes.
  induction prefs as [|p prefs IH]; intros history Hstate; cbn [foldl length].
  - split; [done|].
    destruct Hstate as [->|Hinv]; [cbn; lia|].
    apply tournamentInv_length in Hinv as [_ Hle]; [lia|done].
  - assert (length (priorVotes pid comp history) <= length methodIds - 1)%nat
      as Hle.
    { destruct Hstate as [->|Hinv]; [cbn; lia|].
      by apply tournamentInv_length in Hinv as [_ Hle]. }
    destruct (vote_step token pid comp methodIds history p
                Htoken Hpid Hnodup Hlen Hstate) as [Hmore Hfull].
    destruct (decide (length (priorVotes pid comp history)
                      = length methodIds - 1)%nat) as [Heq|Hne].
    + rewrite (Hfull Heq).
      destruct (IH history Hstate) as [Hstate' Hlen']. split; [done|].
      rewrite Hlen'. lia.
    + destruct (Hmore ltac:(lia)) as (v & -> & Hrows & Hinv).
      destruct (IH (history ++ [v])) as [Hstate' Hlen'].
      { right. by rewrite Hrows. }
      split; [done|]. rewrite Hlen', Hrows, length_app. cbn. lia.
Qed.

(** A tournament runs to its end: a participant who starts a component
    and votes on each pair proposed, whatever the preferences, has cast
    [min k (n - 1)] votes after [k] attempts on [n] distinct methods, the
    progress shown is that count out of [n - 1], and the component is
    complete exactly after [n - 1] votes. *)
Theorem tournament_run token pid comp methodIds prefs history :
  token ≠ "" -> pid ≠ "" -> NoDup methodIds -> (2 <= length methodIds)%nat ->
  priorVotes pid comp history = [] ->
  let history' := playVotes token pid comp methodIds prefs history in
  progress pid comp methodIds history'
  = ((length prefs `min` (length methodIds - 1))%nat,
     (length methodIds - 1)%nat)
  ∧
  (nextPair pid comp methodIds history' = None
   ↔ (length methodIds - 1 <= length prefs)%nat).
Proof.
  intros Htoken Hpid Hnodup Hlen Hfresh history'.
  destruct (playVotes_inv token pid comp methodIds prefs history
              Htoken Hpid Hnodup Hlen (or_introl Hfresh)) as [Hstate Hcount].
  fold history' in Hstate, Hcount. rewrite Hfresh in Hcount. cbn in Hcount.
  split.
  - unfold progress. rewrite (priorVotes_code pid comp history').
    rewrite Hcount. f_equal. lia.
  - destruct Hstate as [Hnil|Hinv].
    + rewrite Hnil in Hcount. cbn in Hcount.
      destruct (first_pair_shape pid comp methodIds history'
                  Hpid Hnodup Hlen Hnil) as (x & y & -> & _).
      split; [done|lia].
    + destruct (nextPair_under_inv pid comp methodIds history'
                  Hpid Hnodup Hlen Hinv) as [Hfull Hmore].
      split.
      * intros Hnone.
        destruct (decide (length methodIds - 1 <= length prefs)%nat)
          as [|Hlt]; [done|].
        destruct (Hmore ltac:(lia)) as (? & ? & Hsome & _). congruence.
      * intros Hk. apply Hfull. lia.
Qed.

Lemma foldl_max_le (rows : list Vote) (a : Z) :
  a <= foldl (fun mx r => Z.max mx (trialOf r)) a rows
  ∧ ∀ r, r ∈ rows ->
      trialOf r <= foldl (fun mx r => Z.max mx (trialOf r)) a rows.
Proof.
  revert a. induction rows as [|x rows IH]; intros a; cbn [foldl].
  - split; [lia|]. intros r Hr. by apply elem_of_nil in Hr.
  - destruct (IH (Z.max a (trialOf x))) as [Hle Hall]. split; [lia|].
    intros r [->|Hr]%elem_of_cons; [lia|by apply Hall].
Qed.

Lemma nextTrialId_above pid history :
  1 <= nextTrialId pid history
  ∧ ∀ r, r ∈ history -> participant_id r = pid ->
      trialOf r < nextTrialId pid history.
Proof.
  unfold nextTrialId.
  destruct (foldl_max_le
    (filter (fun r => String.eqb (participant_id r) pid = true) history) 0)
    as [Hle Hall].
  split; [lia|]. intros r Hr Hpid.
  assert (trialOf r <= foldl (fun mx r => Z.max mx (trialOf r)) 0
            (filter (fun r => String.eqb (participant_id r) pid = true)
               history)); [|lia].
  apply Hall, list_elem_of_filter. split; [|done].
  by apply String.eqb_eq.
Qed.

(** The vote that [vote] appends carries a [trial_id] that is at least 1
    and larger than that of every row of the participant in the history,
    whatever the component: the key [participant__component__trial] under
    which the worker stores it is new. *)
Theorem vote_trial_fresh token pid comp methodIds history preferred :
  token ≠ "" -> pid ≠ "" ->
  nextPair pid comp methodIds history ≠ None ->
  ∃ v,
    vote token pid comp methodIds history preferred = history ++ [v] ∧
    participant_id v = pid ∧ component v = comp ∧
    App.preferred v = preferred ∧
    1 <= trialOf v ∧
    ∀ r, r ∈ history -> participant_id r = pid -> trialOf r < trialOf v.
Proof.
  intros Htoken Hpid Hpair.
  pose proof (vote_cases token pid comp methodIds history preferred Htoken Hpid)
    as Hvote.
  destruct (nextPair pid comp methodIds history) as [p|]; [|done].
  eexists. split; [exact Hvote|].
  destruct (nextTrialId_above pid history) as [Hone Habove].
  by repeat split.
Qed.

Lemma trialsAscending_snoc rows v :
  trialsAscending rows ->
  (∀ r, r ∈ rows -> trialOf r <= trialOf v) ->
  trialsAscending (rows ++ [v]).
Proof.
  intros Hasc Hv pre r post. revert pre r.
  induction post as [|x post _] using rev_ind; intros pre r Heq; [done|].
  change (pre ++ r :: post ++ [x]) with (pre ++ (r :: post) ++ [x]) in Heq.
  rewrite (assoc_L (++)) in Heq. apply app_inj_tail in Heq as [Hrows <-].
  apply Forall_app. split; [by apply (Hasc pre)|].
  apply Forall_singleton, Hv. rewrite Hrows.
  apply elem_of_app. right. apply elem_of_cons. by left.
Qed.

Lemma vote_keeps_ascending token pid comp methodIds history preferred pid' comp' :
  trialsAscending (priorVotes pid' comp' history) ->
  trialsAscending
    (priorVotes pid' comp'
       (vote token pid comp methodIds history preferred)).
Proof.
  intros Hasc. unfold vote.
  destruct (nextPair _ _ _ _) as [[leftId rightId]|]; [|done].
  destruct (JS.isEmpty token || JS.isEmpty pid); [done|].
  rewrite priorVotes_snoc.
  destruct (matches pid' comp' _) eqn:Hm; [|by rewrite app_nil_r].
  apply trialsAscending_snoc; [done|].
  intros r [Hr Hin]%list_elem_of_filter.
  apply andb_prop in Hm as [Hp%String.eqb_eq _]. cbn in Hp. subst pid'.
  destruct Hr as [Hr _].
  destruct (nextTrialId_above pid history) as [_ Habove].
  specialize (Habove r Hin Hr). cbn. lia.
Qed.

(** The votes cast through the front end keep every participant's rows of
    every component in the order of their trials: the row that [nextPair]
    takes as the most recent one, the last after the sort, is the one
    appended last. *)
Theorem playVotes_trials_ascending
  token pid comp methodIds prefs history pid' comp' :
  trialsAscending (priorVotes pid' comp' history) ->
  trialsAscending
    (priorVotes pid' comp'
       (playVotes token pid comp methodIds prefs history)).
Proof.
  unfold playVotes. revert history.
  induction prefs as [|p prefs IH]; intros history Hasc; [done|].
  cbn [foldl]. by apply IH, vote_keeps_ascending.
Qed.

End PairingMore.

(** ** The key of a component and the escaping of text *)

Section KeysMore.
Import JS AppUI AppMore B64Spec.

Lemma keyScore_range target k : 0 <= keyScore target k <= 100.
Proof. unfold keyScore. repeat case_match; lia. Qed.

Lemma keyScore_exact target k :
  keyScore target k = 100 ↔ normKey k = target.
Proof.
  unfold keyScore. destruct (String.eqb_spec (normKey k) target) as [|Hne].
  - done.
  - split; [|done]. repeat case_match; lia.
Qed.

Lemma betterKey_cases target b x :
  (betterKey target b x = Some (x, keyScore target x) ∧
   0 < keyScore target x ∧
   ∀ b0, b = Some b0 -> b0.2 < keyScore target x)
  ∨
  (betterKey target b x = b ∧
   (keyScore target x <= 0 ∨ ∃ b0, b = Some b0 ∧ keyScore target x <= b0.2)).
Proof.
  unfold betterKey.
  destruct (Z.ltb_spec 0 (keyScore target x)) as [H0|H0]; cbn [andb].
  - destruct b as [bb|].
    + destruct (Z.ltb_spec bb.2 (keyScore target x)) as [Hb|Hb].
      * left. split; [done|]. split; [done|]. by intros ? [= <-].
      * right. split; [done|]. right. by exists bb.
    + left. by split.
  - right. split; [done|]. by left.
Qed.

(** What the loop on [best] computes: the first key of largest score,
    when that score is positive and beats the one it started with. *)
Lemma foldl_betterKey_spec target keys b :
  (∀ b0, b = Some b0 -> 0 < b0.2) ->
  match foldl (betterKey target) b keys with
  | None => b = None ∧ Forall (fun k => keyScore target k = 0) keys
  | Some (k, s) =>
      0 < s ∧
      ((b = Some (k, s) ∧ Forall (fun k' => keyScore target k' <= s) keys)
       ∨ ∃ pre post,
           keys = pre ++ k :: post ∧ s = keyScore target k ∧
           (∀ b0, b = Some b0 -> b0.2 < s) ∧
           Forall (fun k' => keyScore target k' < s) pre ∧
           Forall (fun k' => keyScore target k' <= s) post)
  end.
Proof.
  revert b. induction keys as [|x keys IH]; intros b Hpos; cbn [foldl].
  - destruct b as [[k s]|]; [|done].
    split; [exact (Hpos _ eq_refl)|]. by left.
  - pose proof (keyScore_range target x) as Hx.
    destruct (betterKey_cases target b x) as [(Hb & H0 & Hlt)|[Hb Hle]];
      rewrite Hb.
    + specialize (IH (Some (x, keyScore target x))).
      destruct (foldl _ _ keys) as [[k s]|].
      * destruct IH as [Hs IH]; [by intros ? [= <-]|]. split; [done|].
        right.
        destruct IH as [[[= <- <-] Hall]|
          (pre & post & -> & -> & Hbound & Hpre & Hpost)].
        -- exists [], keys. split; [done|]. split; [done|].
           split; [done|]. by split.
        -- specialize (Hbound _ eq_refl). cbn in Hbound.
           exists (x :: pre), post. split; [done|]. split; [done|].
           split; [|split; [by constructor|done]].
           intros b0 Hb0. specialize (Hlt _ Hb0). lia.
      * by destruct IH as [? _]; [by intros ? [= <-]|].
    + specialize (IH b Hpos).
      destruct (foldl _ b keys) as [[k s]|].
      * destruct IH as [Hs IH]. split; [done|].
        destruct IH as [[-> Hall]|
          (pre & post & -> & -> & Hbound & Hpre & Hpost)].
        -- left. split; [done|]. constructor; [|done].
           destruct Hle as [|(b0 & [= <-] & Hle)]; [lia|done].
        -- right. exists (x :: pre), post. split; [done|]. split; [done|].
           split; [done|]. split; [|done]. constructor; [|done].
           destruct Hle as [|(b0 & Hb0 & Hle)]; [lia|].
           specialize (Hbound _ Hb0). lia.
      * destruct IH as [-> Hall]. split; [done|]. constructor; [|done].
        destruct Hle as [|(b0 & [=] & _)]. lia.
Qed.

Lemma bestMatchingKey_keys obj desired keys :
  objectKeys obj = Some keys ->
  bestMatchingKey (Some obj) desired
  = fst <$> foldl (betterKey (normKey desired)) None keys.
Proof.
  intros Hkeys. unfold bestMatchingKey.
  destruct obj; try done; cbn in *; by simplify_eq.
Qed.

(** [bestMatchingKey] returns the first of the keys of largest score, in
    the order of [Object.keys], when that score is positive, and [null]
    when every key has the score 0. *)
Theorem bestMatchingKey_first_best obj desired keys :
  objectKeys obj = Some keys ->
  match bestMatchingKey (Some obj) desired with
  | None => Forall (fun k => keyScore (normKey desired) k = 0) keys
  | Some k =>
      ∃ pre post,
        keys = pre ++ k :: post ∧
        0 < keyScore (normKey desired) k ∧
        Forall (fun k' => keyScore (normKey desired) k'
                          < keyScore (normKey desired) k) pre ∧
        Forall (fun k' => keyScore (normKey desired) k'
                          <= keyScore (normKey desired) k) post
  end.
Proof.
  intros Hkeys. rewrite (bestMatchingKey_keys _ _ _ Hkeys).
  pose proof (foldl_betterKey_spec (normKey desired) keys None) as Hspec.
  destruct (foldl _ None keys) as [[k s]|]; cbn.
  - destruct Hspec as [Hs [[? _]|(pre & post & -> & -> & _ & Hpre & Hpost)]];
      [done..|].
    by exists pre, post.
  - by destruct Hspec.
Qed.

(** A key that is the component up to case and punctuation wins over
    every approximate match: when there is one, the key returned is one. *)
Theorem bestMatchingKey_exact_wins obj desired keys k :
  objectKeys obj = Some keys ->
  k ∈ keys ->
  normKey k = normKey desired ->
  ∃ k', bestMatchingKey (Some obj) desired = Some k' ∧
        k' ∈ keys ∧ normKey k' = normKey desired.
Proof.
  intros Hkeys Hin Hk. rewrite (bestMatchingKey_keys _ _ _ Hkeys).
  pose proof (foldl_betterKey_spec (normKey desired) keys None) as Hspec.
  apply keyScore_exact in Hk.
  destruct (foldl _ None keys) as [[k' s]|]; cbn.
  - destruct Hspec as [Hs [[? _]|(pre & post & -> & -> & _ & Hpre & Hpost)]];
      [done..|].
    exists k'. split; [done|]. split.
    { apply elem_of_app. right. apply elem_of_cons. by left. }
    apply keyScore_exact.
    pose proof (keyScore_range (normKey desired) k') as Hrange.
    apply elem_of_app in Hin as [Hin|[->|Hin]%elem_of_cons]; [|done|].
    + rewrite Forall_forall in Hpre. specialize (Hpre _ Hin). lia.
    + rewrite Forall_forall in Hpost. specialize (Hpost _ Hin). lia.
  - destruct Hspec as [_ Hall]; [done|].
    rewrite Forall_forall in Hall. specialize (Hall _ Hin). lia.
Qed.

Lemma includes_empty s : includes s "" = true.
Proof. by destruct s. Qed.

(** A key without a letter or a digit matches every component: its
    normal form is empty, and the empty string is included in every
    target, so that [bestMatchingKey] never answers [null] on an object
    that has such a key. *)
Theorem blank_key_matches_everything obj desired keys k :
  objectKeys obj = Some keys ->
  k ∈ keys ->
  normKey k = "" ->
  70 <= keyScore (normKey desired) k ∧
  ∃ k', bestMatchingKey (Some obj) desired = Some k'.
Proof.
  intros Hkeys Hin Hk.
  assert (70 <= keyScore (normKey desired) k) as Hscore.
  { unfold keyScore. rewrite Hk, includes_empty, orb_true_r.
    repeat case_match; lia. }
  split; [done|].
  rewrite (bestMatchingKey_keys _ _ _ Hkeys).
  pose proof (foldl_betterKey_spec (normKey desired) keys None) as Hspec.
  destruct (foldl _ None keys) as [[k' s]|]; cbn; [by exists k'|].
  destruct Hspec as [_ Hall]; [done|].
  rewrite Forall_forall in Hall. specialize (Hall _ Hin). lia.
Qed.

Lemma rev_app_snoc t c acc :
  String.rev_app (t +:+ String c "") acc = String c (String.rev_app t acc).
Proof.
  revert acc. induction t as [|x t IH]; intros acc; [done|].
  rewrite append_cons. cbn [String.rev_app]. by rewrite IH.
Qed.

Lemma rev_snoc t c : String.rev (t +:+ String c "") = String c (String.rev t).
Proof. apply rev_app_snoc. Qed.

Lemma endsWith_snoc t c : endsWith (t +:+ String c "") (String c "") = true.
Proof.
  unfold endsWith. rewrite rev_snoc. cbn.
  destruct (ascii_dec c c) as [_|Hne]; [by destruct (String.rev t)|done].
Qed.

Lemma dropLast_snoc t c : dropLast (t +:+ String c "") = t.
Proof.
  induction t as [|x t IH]; [done|]. rewrite append_cons. cbn [dropLast].
  rewrite IH. by destruct t.
Qed.

Lemma snoc_neq t c : String.eqb (t +:+ String c "") t = false.
Proof.
  apply String.eqb_neq. intros Heq.
  apply (f_equal String.length) in Heq.
  rewrite length_append in Heq. cbn in Heq. lia.
Qed.

(** A key and a component that differ, once normalized, by a final [s]
    only get the score 95 of the comparison without plurals. *)
Theorem plural_key_scores_95 target k :
  (normKey k = target +:+ "s" ∧ endsWith target "s" = false) ∨
  (target = normKey k +:+ "s" ∧ endsWith (normKey k) "s" = false) ->
  keyScore target k = 95.
Proof.
  unfold keyScore, stripPlural.
  intros [[-> Hs]|[-> Hs]].
  - by rewrite snoc_neq, endsWith_snoc, dropLast_snoc, Hs, String.eqb_refl.
  - rewrite String.eqb_sym, snoc_neq, endsWith_snoc, dropLast_snoc, Hs.
    by rewrite String.eqb_refl.
Qed.





Lemma lowerChar_alnum c :
  isLowerAlnum c = true -> lowerChar c = c.
Proof.
  unfold isLowerAlnum, lowerChar. cbn zeta. intros H.
  destruct ((65 <=? N_of_ascii c) && (N_of_ascii c <=? 90))%N eqn:Hup;
    [|done].
  apply andb_prop in Hup as [Hlo%N.leb_le Hhi%N.leb_le].
  apply orb_prop in H as [[H1%N.leb_le H2%N.leb_le]%andb_prop|
                          [H1%N.leb_le H2%N.leb_le]%andb_prop]; lia.
Qed.

Lemma allChars_filterChars p s : allChars p (filterChars p s) = true.
Proof.
  induction s as [|c s IH]; [done|]. cbn.
  destruct (p c) eqn:Hp; [|done]. cbn. by rewrite Hp.
Qed.

Lemma filterChars_all p s : allChars p s = true -> filterChars p s = s.
Proof.
  induction s as [|c s IH]; [done|]. cbn.
  intros [Hc Hs]%andb_prop. rewrite Hc. by rewrite IH.
Qed.

Lemma toLowerCase_alnum s :
  allChars isLowerAlnum s = true -> toLowerCase s = s.
Proof.
  unfold toLowerCase. induction s as [|c s IH]; [done|]. cbn.
  intros [Hc Hs]%andb_prop. by rewrite lowerChar_alnum, IH.
Qed.

(** [normKey] gives a normal form: its result has only lower-case letters
    and digits, and normalizing again changes nothing. *)
Theorem normKey_normal s :
  allChars isLowerAlnum (normKey s) = true ∧
  normKey (normKey s) = normKey s.
Proof.
  assert (allChars isLowerAlnum (normKey s) = true) as Hall
    by apply allChars_filterChars.
  split; [done|]. unfold normKey at 1.
  by rewrite toLowerCase_alnum, filterChars_all.
Qed.

Lemma allChars_append p a b :
  allChars p (a +:+ b) = allChars p a && allChars p b.
Proof.
  induction a as [|x a IH]; [done|]. rewrite append_cons. cbn [allChars].
  rewrite IH. by destruct (p x).
Qed.

Lemma replaceCharWith_removes c r s :
  allChars (fun x => negb (Ascii.eqb x c)) r = true ->
  allChars (fun x => negb (Ascii.eqb x c)) (replaceCharWith c r s) = true.
Proof.
  intros Hr. induction s as [|x s IH]; [done|]. cbn.
  destruct (Ascii.eqb x c) eqn:Hx.
  - by rewrite allChars_append, Hr, IH.
  - cbn. by rewrite Hx.
Qed.

Lemma replaceCharWith_keeps p c r s :
  allChars p r = true -> allChars p s = true ->
  allChars p (replaceCharWith c r s) = true.
Proof.
  intros Hr. induction s as [|x s IH]; [done|]. cbn.
  intros [Hx Hs]%andb_prop. destruct (Ascii.eqb x c).
  - by rewrite allChars_append, Hr, IH.
  - cbn. by rewrite Hx, IH.
Qed.

Lemma replaceCharWith_absent c r s :
  allChars (fun x => negb (Ascii.eqb x c)) s = true ->
  replaceCharWith c r s = s.
Proof.
  induction s as [|x s IH]; [done|]. cbn.
  intros [Hx Hs]%andb_prop. apply negb_true_iff in Hx. rewrite Hx.
  by rewrite IH.
Qed.

Lemma allChars_and p q s :
  allChars (fun x => p x && q x) s = allChars p s && allChars q s.
Proof.
  induction s as [|x s IH]; [done|]. cbn. rewrite IH.
  destruct (p x), (q x), (allChars p s), (allChars q s); done.
Qed.

Lemma allChars_ext p q s :
  (∀ x, p x = q x) -> allChars p s = allChars q s.
Proof. intros Hpq. induction s as [|x s IH]; [done|]. cbn. by rewrite Hpq, IH. Qed.

(** The text that [escapeHtml] returns has none of the characters [<],
    [>], double quote and single quote, whatever the input. *)
Theorem escapeHtml_no_markup s :
  allChars (fun c => negb (isMarkupChar c)) (escapeHtml s) = true.
Proof.
  rewrite (allChars_ext _
    (fun c => (negb (Ascii.eqb c "<") && negb (Ascii.eqb c ">"))
              && (negb (Ascii.eqb c "034") && negb (Ascii.eqb c "'")))).
  2:{ intros x. unfold isMarkupChar.
      by destruct (Ascii.eqb x "<"), (Ascii.eqb x ">"),
        (Ascii.eqb x "034"), (Ascii.eqb x "'"). }
  unfold escapeHtml. rewrite !allChars_and.
  repeat (apply andb_true_intro; split).
  - do 2 (apply replaceCharWith_keeps; [done|]).
    apply replaceCharWith_keeps; [done|]. by apply replaceCharWith_removes.
  - do 2 (apply replaceCharWith_keeps; [done|]).
    by apply replaceCharWith_removes.
  - apply replaceCharWith_keeps; [done|]. by apply replaceCharWith_removes.
  - by apply replaceCharWith_removes.
Qed.

(** [escapeHtml] leaves a text without [&], [<], [>] and quotes as it
    is. *)
Theorem escapeHtml_plain s :
  allChars (fun c => negb (isEscaped c)) s = true ->
  escapeHtml s = s.
Proof.
  intros Hs. unfold escapeHtml.
  rewrite (allChars_ext _
    (fun c => negb (Ascii.eqb c "&") &&
              ((negb (Ascii.eqb c "<") && negb (Ascii.eqb c ">"))
               && (negb (Ascii.eqb c "034") && negb (Ascii.eqb c "'"))))) in Hs.
  2:{ intros x. unfold isEscaped, isMarkupChar.
      by destruct (Ascii.eqb x "&"), (Ascii.eqb x "<"), (Ascii.eqb x ">"),
        (Ascii.eqb x "034"), (Ascii.eqb x "'"). }
  rewrite !allChars_and in Hs.
  apply andb_prop in Hs as [Hamp [[Hlt Hgt]%andb_prop [Hdq Hsq]%andb_prop]%andb_prop].
  by rewrite (replaceCharWith_absent "&"), (replaceCharWith_absent "<"),
    (replaceCharWith_absent ">"), (replaceCharWith_absent "034"),
    (replaceCharWith_absent "'").
Qed.

End KeysMore.

(** * The further properties on sample inputs *)

Section EvaluationMore.
Import JS B64Spec Worker WorkerSteps WorkerSpec WorkerMore Sample.

#[local] Existing Instance Reference.runtime.

Lemma hexOfBytes_faithful_witness :
  String.length (hexOfBytes "hi") = 4%nat ∧ "hi" = "hi".
Proof.
  destruct (hexOfBytes_faithful "hi") as (Hlen & _ & Hinj).
  split; [exact Hlen|]. apply (Hinj "hi"). reflexivity.
Defined.

Lemma verifyToken_accepts_only_signed_witness :
  ∃ tokenBody sig,
    split "."%char tokenValid !! 0%nat = Some tokenBody ∧
    split "."%char tokenValid !! 1%nat = Some sig ∧
    tokenBody ≠ "" ∧
    hmacSign (TOKEN_SECRET env) tokenBody = Ok sig ∧
    fromB64Json tokenBody = Ok (sessionPayload (now - 1000) "alpha") ∧
    sessionPayload (now - 1000) "alpha" ≠ JNull ∧
    (truthy (field (sessionPayload (now - 1000) "alpha") "exp") = false ∨
     gtNum now (ToNumber (field (sessionPayload (now - 1000) "alpha") "exp"))
     = false).
Proof.
  apply (verifyToken_accepts_only_signed env now tokenValid
           (sessionPayload (now - 1000) "alpha")).
  vm_compute. reflexivity.
Defined.

Lemma verifyToken_over_time_witness :
  verifyToken env (now - 5) tokenValid
  = Ok (sessionPayload (now - 1000) "alpha").
Proof.
  refine (proj1 (verifyToken_over_time env now (now - 5) tokenValid _)
            (sessionPayload (now - 1000) "alpha") _).
  - vm_compute. discriminate.
  - vm_compute. reflexivity.
Defined.

Lemma session_token_window_witness :
  verifyToken env (now + 1000)
    (issued (makeToken env (sessionPayload now "alpha")))
  = Ok (sessionPayload now "alpha").
Proof.
  refine (proj1 (session_token_window env now "alpha" (now + 1000)
                   (issued (makeToken env (sessionPayload now "alpha")))
                   _ _ _ _ _) _).
  - vm_compute. reflexivity.
  - vm_compute. reflexivity.
  - vm_compute. discriminate.
  - vm_compute. discriminate.
  - vm_compute. discriminate.
  - vm_compute. discriminate.
Defined.

Lemma votes_change_only_with_valid_token_witness :
  method (voteRequest tokenValid) = "POST" ∧
  originAllowed env (originOf (voteRequest tokenValid)) = true ∧
  endsWith (pathname (voteRequest tokenValid)) "/api/vote" = true ∧
  ∃ payload,
    verifyToken env now (tokenOf (voteRequest tokenValid)) = Ok payload.
Proof.
  apply (votes_change_only_with_valid_token env now (voteRequest tokenValid) db).
  intros Heq.
  apply (f_equal (fun m : gmap string VoteRow => m !! "P1__kg__3")) in Heq.
  vm_compute in Heq. discriminate Heq.
Defined.

Lemma fetch_frame_witness :
  let req :=
    {| method := "GET"; pathname := "/api/vote";
       origin_header := Some origin; json := None |} in
  (fetch env now req db).2 = db.
Proof.
  intros req. apply (proj1 (fetch_frame env now req db)).
  left. discriminate.
Defined.

Lemma cors_headers_witness :
  headers
    (grantResponse origin
       (issued (makeToken env (sessionPayload now "alpha"))))
  = cors (originOf (startRequest "alpha")).
Proof.
  refine (proj1 (cors_headers env now (startRequest "alpha") db)
            (grantResponse origin
               (issued (makeToken env (sessionPayload now "alpha"))))
            (dbDecrementUsesRemaining db (sha256Hex "alpha")) _ _).
  - vm_compute. reflexivity.
  - vm_compute. discriminate.
Defined.

Lemma stored_votes_well_formed_witness :
  map_Forall storedVoteOk
    (votes (serve env [(now, voteRequest tokenValid)] db)).
Proof.
  apply (stored_votes_well_formed env [(now, voteRequest tokenValid)] db).
  exact (map_Forall_empty storedVoteOk).
Defined.

Lemma lookup_after_decrement_witness :
  dbGetAccessCode (dbDecrementUsesRemaining db (sha256Hex "alpha"))
    (sha256Hex "alpha")
  = Some {| code_hash := code_hash (codeRow "alpha" (Some 2) None);
            active := active (codeRow "alpha" (Some 2) None);
            uses_remaining := Some (2 - 1);
            expires_at := expires_at (codeRow "alpha" (Some 2) None) |}.
Proof.
  refine (proj2 (lookup_after_decrement db (sha256Hex "alpha")
                   (sha256Hex "alpha") (codeRow "alpha" (Some 2) None) _)
            2 _ _ _).
  - vm_compute. reflexivity.
  - reflexivity.
  - reflexivity.
  - reflexivity.
Defined.


End EvaluationMore.

Section EvaluationFrontEnd.
Import JS B64Spec App AppSpec AppUI AppMore.

Lemma generator_in_range_witness :
  (floorMul (mulberry32 42).1 5 < 5)%nat.
Proof.
  apply (proj2 (proj2 (generator_in_range 42 0 5))).
  apply Nat.lt_0_succ.
Defined.

Lemma first_pair_distinct_witness :
  ∃ x y,
    nextPair "P1" "kg" ["m1"; "m2"; "m3"] [] = Some (Some x, Some y) ∧
    x ≠ y ∧ x ∈ ["m1"; "m2"; "m3"] ∧ y ∈ ["m1"; "m2"; "m3"].
Proof.
  refine (proj1 (first_pair_distinct "P1" "kg" ["m1"; "m2"; "m3"] [] _ _ _) _).
  - apply (bool_decide_unpack (NoDup ["m1"; "m2"; "m3"])). vm_compute. exact I.
  - cbn. lia.
  - reflexivity.
  - discriminate.
Defined.

Lemma nextPair_complete_iff_witness :
  let history :=
    [ {| participant_id := "P1"; component := "kg"; trial_id := Some 1;
         left_method_id := "m1"; right_method_id := "m2";
         preferred := "left" |} ] in
  nextPair "P1" "kg" ["m1"; "m2"] history = None.
Proof.
  intros history.
  refine (proj2 (nextPair_complete_iff "P1" "kg" ["m1"; "m2"] history _ _ _) _).
  - discriminate.
  - vm_compute. reflexivity.
  - vm_compute. discriminate.
  - intros m Hm.
    exists {| participant_id := "P1"; component := "kg"; trial_id := Some 1;
              left_method_id := "m1"; right_method_id := "m2";
              preferred := "left" |}.
    split.
    + change (priorVotes "P1" "kg" history) with history.
      apply elem_of_cons. left. reflexivity.
    + apply elem_of_cons in Hm as [->|Hm]; [left; reflexivity|].
      apply elem_of_cons in Hm as [->|Hm]; [right; reflexivity|].
      by apply elem_of_nil in Hm.
Defined.

Lemma tournament_run_witness :
  let history' :=
    playVotes "t" "P1" "kg" ["m1"; "m2"; "m3"] ["left"; "right"; "left"] [] in
  progress "P1" "kg" ["m1"; "m2"; "m3"] history' = (2%nat, 2%nat)
  ∧
  (nextPair "P1" "kg" ["m1"; "m2"; "m3"] history' = None ↔ (2 <= 3)%nat).
Proof.
  refine (tournament_run "t" "P1" "kg" ["m1"; "m2"; "m3"]
            ["left"; "right"; "left"] [] _ _ _ _ _).
  - discriminate.
  - discriminate.
  - apply (bool_decide_unpack (NoDup ["m1"; "m2"; "m3"])). vm_compute. exact I.
  - cbn. lia.
  - reflexivity.
Defined.

Lemma vote_trial_fresh_witness :
  ∃ v,
    vote "t" "P1" "kg" ["m1"; "m2"; "m3"] [] "left" = [] ++ [v] ∧
    participant_id v = "P1" ∧ component v = "kg" ∧
    preferred v = "left" ∧
    1 <= trialOf v ∧
    ∀ r, r ∈ ([] : list Vote) -> participant_id r = "P1" ->
         trialOf r < trialOf v.
Proof.
  apply (vote_trial_fresh "t" "P1" "kg" ["m1"; "m2"; "m3"] [] "left").
  - discriminate.
  - discriminate.
  - vm_compute. discriminate.
Defined.

Lemma playVotes_trials_ascending_witness :
  trialsAscending
    (priorVotes "P1" "kg"
       (playVotes "t" "P1" "kg" ["m1"; "m2"; "m3"] ["left"; "right"] [])).
Proof.
  apply (playVotes_trials_ascending "t" "P1" "kg" ["m1"; "m2"; "m3"]
           ["left"; "right"] [] "P1" "kg").
  intros pre r post Heq. destruct pre; discriminate Heq.
Defined.

Lemma bestMatchingKey_first_best_witness :
  match
    bestMatchingKey
      (Some (JObj [("kg", JNull); ("Conversation_states", JNum 1)]))
      "conversation_state"
  with
  | None =>
      Forall (fun k => keyScore (normKey "conversation_state") k = 0)
        ["kg"; "Conversation_states"]
  | Some k =>
      ∃ pre post,
        ["kg"; "Conversation_states"] = pre ++ k :: post ∧
        0 < keyScore (normKey "conversation_state") k ∧
        Forall (fun k' => keyScore (normKey "conversation_state") k'
                          < keyScore (normKey "conversation_state") k) pre ∧
        Forall (fun k' => keyScore (normKey "conversation_state") k'
                          <= keyScore (normKey "conversation_state") k) post
  end.
Proof.
  apply (bestMatchingKey_first_best
           (JObj [("kg", JNull); ("Conversation_states", JNum 1)])
           "conversation_state" ["kg"; "Conversation_states"]).
  reflexivity.
Defined.

Lemma bestMatchingKey_exact_wins_witness :
  ∃ k',
    bestMatchingKey
      (Some (JObj [("knowledge", JNull); ("Knowledge_Graph", JNum 1)]))
      "knowledge graph"
    = Some k' ∧
    k' ∈ ["knowledge"; "Knowledge_Graph"] ∧
    normKey k' = normKey "knowledge graph".
Proof.
  apply (bestMatchingKey_exact_wins
           (JObj [("knowledge", JNull); ("Knowledge_Graph", JNum 1)])
           "knowledge graph" ["knowledge"; "Knowledge_Graph"]
           "Knowledge_Graph").
  - reflexivity.
  - apply elem_of_cons. right. apply elem_of_cons. left. reflexivity.
  - vm_compute. reflexivity.
Defined.

Lemma blank_key_matches_everything_witness :
  70 <= keyScore (normKey "kg") "_" ∧
  ∃ k', bestMatchingKey (Some (JObj [("_", JNum 1)])) "kg" = Some k'.
Proof.
  apply (blank_key_matches_everything (JObj [("_", JNum 1)]) "kg" ["_"] "_").
  - reflexivity.
  - apply elem_of_cons. left. reflexivity.
  - vm_compute. reflexivity.
Defined.

Lemma plural_key_scores_95_witness :
  keyScore "conversationstate" "Conversation_states" = 95.
Proof.
  apply (plural_key_scores_95 "conversationstate" "Conversation_states").
  left. split; vm_compute; reflexivity.
Defined.

Lemma escapeHtml_plain_witness :
  escapeHtml "plain text, 100%" = "plain text, 100%".
Proof.
  apply (escapeHtml_plain "plain text, 100%"). vm_compute. reflexivity.
Defined.

End EvaluationFrontEnd.
